(** * sec-edgar-toolkit (TypeScript SDK): a shallow embedding and its properties

    The development follows the TypeScript sources:
    - [utils/cache.ts]            the TTL + LRU cache and its key generation,
    - [utils/http-client.ts]      the retrying HTTP client,
    - [exceptions/base.ts], [exceptions/errors.ts]  the error taxonomy,
    - [parsers/ownership-forms.ts]  the ownership-form parser constructor,
    - [parsers/item-extractor.ts] the item segmentation parser,
    - [edgar.ts]                  [FinancialFormParser] (risk factors, ratios).

    JavaScript numbers that hold millisecond clocks, sizes and HTTP status
    codes are integers and are modelled in [Z]; the financial values are IEEE
    binary64 numbers and are modelled with Rocq's primitive floats.  Reads of
    [Date.now()] are explicit arguments of the operation that performs them.
    A string is a sequence of 8-bit character codes, which is the JavaScript
    string on ASCII text; case mapping covers the letters A to Z.  What the
    sources take from outside the repository is a parameter: the regular
    expression engine of the runtime, the XML parser, and the remote
    service that answers the HTTP requests. *)

From Stdlib Require Import ZArith String Ascii List Bool Lia Floats.
From stdpp Require Import gmap strings list fin_maps pretty.

Local Open Scope Z_scope.
Set Warnings "-register-all".
Set Warnings "-inexact-float".

(** ** JavaScript helpers shared by the modules *)

Module Js.

(** [a || b] on numbers: [a] unless it is falsy ([undefined] or [0]). *)
Definition or_num (a : option Z) (b : Z) : Z :=
  match a with
  | Some v => if v =? 0 then b else v
  | None => b
  end.

(** [a || b] on booleans. *)
Definition or_bool (a : option bool) (b : bool) : bool :=
  match a with
  | Some v => v || b
  | None => b
  end.

(** [Array.prototype.indexOf] followed by [splice(index, 1)] when the
    index is not [-1]: the first occurrence is removed. *)
Fixpoint remove_first (key : string) (l : list string) : list string :=
  match l with
  | [] => []
  | x :: r => if String.eqb x key then r else x :: remove_first key r
  end.

Definition code (c : ascii) : nat := nat_of_ascii c.

(** White space of [String.prototype.trim], among 8-bit character codes. *)
Definition is_space (c : ascii) : bool :=
  let n := code c in
  ((9 <=? n) && (n <=? 13) || (n =? 32) || (n =? 160))%nat.

Definition upper_char (c : ascii) : ascii :=
  let n := code c in
  if ((97 <=? n) && (n <=? 122))%nat then ascii_of_nat (n - 32) else c.

Definition lower_char (c : ascii) : ascii :=
  let n := code c in
  if ((65 <=? n) && (n <=? 90))%nat then ascii_of_nat (n + 32) else c.

Fixpoint map_chars (f : ascii → ascii) (s : string) : string :=
  match s with
  | EmptyString => EmptyString
  | String c r => String (f c) (map_chars f r)
  end.

(** [toUpperCase] and [toLowerCase], on the letters A to Z.  These are
    the case maps of JavaScript on ASCII text; on other characters the
    maps of JavaScript follow Unicode and are not these. *)
Definition toUpperCase (s : string) : string := map_chars upper_char s.
Definition toLowerCase (s : string) : string := map_chars lower_char s.

(** ASCII text: every character code is below 128. *)
Definition is_ascii_char (c : ascii) : bool := (code c <? 128)%nat.

Fixpoint ascii_only (s : string) : bool :=
  match s with
  | EmptyString => true
  | String c r => is_ascii_char c && ascii_only r
  end.

Fixpoint trimStart (s : string) : string :=
  match s with
  | EmptyString => EmptyString
  | String c r => if is_space c then trimStart r else s
  end.

Definition reverse (s : string) : string :=
  string_of_list_ascii (rev (list_ascii_of_string s)).

Definition trimEnd (s : string) : string := reverse (trimStart (reverse s)).

Definition trim (s : string) : string := trimEnd (trimStart s).

(** [s.substring(a, b)] for indices that are not negative: both are
    clamped to the length and swapped when out of order. *)
Definition substring (s : string) (a b : nat) : string :=
  let len := String.length s in
  let a' := Nat.min a len in
  let b' := Nat.min b len in
  String.substring (Nat.min a' b') (Nat.max a' b' - Nat.min a' b') s.

(** [s.substring(a)]. *)
Definition substring_from (s : string) (a : nat) : string :=
  substring s a (String.length s).

(** [s.indexOf(sub, from)]: the first index at or after [from] where [sub]
    occurs, [-1] when there is none. *)
Fixpoint indexOf_at (s sub : string) (from pos : nat) : Z :=
  if (from <=? pos)%nat && String.prefix sub s then Z.of_nat pos
  else match s with
       | EmptyString => -1
       | String _ r => indexOf_at r sub from (S pos)
       end.

Definition indexOf (s sub : string) (from : nat) : Z :=
  indexOf_at s sub (Nat.min from (String.length s)) 0.

(** [String.prototype.includes]. *)
Fixpoint includes (s sub : string) : bool :=
  String.prefix sub s
  || match s with
     | EmptyString => false
     | String _ r => includes r sub
     end.

Fixpoint repeat_string (p : string) (n : nat) : string :=
  match n with
  | O => EmptyString
  | S k => p +:+ repeat_string p k
  end.

(** [s.padStart(targetLength, padString)]: the pad string is repeated and
    cut to the missing length. *)
Definition padStart (s : string) (targetLength : nat) (padString : string)
    : string :=
  let len := String.length s in
  if (targetLength <=? len)%nat || String.eqb padString EmptyString then s
  else
    String.substring 0 (targetLength - len)
      (repeat_string padString (targetLength - len)) +:+ s.

(** The value of a digit in the given radix, letters counting from ten. *)
Definition digit_value (radix : Z) (c : ascii) : option Z :=
  let n := Z.of_nat (code c) in
  let v := if (48 <=? n) && (n <=? 57) then Some (n - 48)
           else if (97 <=? n) && (n <=? 122) then Some (n - 87)
           else if (65 <=? n) && (n <=? 90) then Some (n - 55)
           else None in
  match v with
  | Some d => if d <? radix then Some d else None
  | None => None
  end.

(** The longest prefix of digits, read from the left; [None] while no
    digit has been read. *)
Fixpoint parse_digits (radix : Z) (s : string) (acc : option Z) : option Z :=
  match s with
  | EmptyString => acc
  | String c r =>
      match digit_value radix c with
      | Some d =>
          parse_digits radix r
            (Some (match acc with Some a => a * radix + d | None => d end))
      | None => acc
      end
  end.

(** [parseInt(s)] with no radix, [None] for [NaN]: leading white space is
    skipped, a sign is read, [0x] or [0X] selects radix 16, and what follows
    the digits is ignored.  Exact for results below [2 ^ 53]. *)
Definition parseInt (s : string) : option Z :=
  let s0 := trimStart s in
  let '(sign, s1) :=
    match s0 with
    | String "-" r => (-1, r)
    | String "+" r => (1, r)
    | _ => (1, s0)
    end in
  let '(radix, s2) :=
    match s1 with
    | String "0" (String "x" r) => (16, r)
    | String "0" (String "X" r) => (16, r)
    | _ => (10, s1)
    end in
  Z.mul sign <$> parse_digits radix s2 None.

(** A number in a template literal: [NaN] prints as such. *)
Definition number_in_template (n : option Z) : string :=
  match n with
  | Some v => pretty v
  | None => "NaN"
  end.

(** [s.replace(/c/g, '')] for a one-character pattern [c]. *)
Fixpoint remove_char (c : ascii) (s : string) : string :=
  match s with
  | EmptyString => EmptyString
  | String a r => if Ascii.eqb a c then remove_char c r
                  else String a (remove_char c r)
  end.

End Js.

(** ** utils/cache.ts *)

Module Cache.

Record CacheEntry (T : Type) := mkEntry {
  data : T;
  timestamp : Z;
  expiry : option Z;
}.
Arguments mkEntry {T}.
Arguments data {T}.
Arguments timestamp {T}.
Arguments expiry {T}.

(** [CacheOptions]: every field is optional. *)
Record CacheOptions := mkOptions {
  ttl : option Z;
  maxSize : option Z;
  persistent : option bool;
}.

(** [Required<CacheOptions>], as the constructor fills it. *)
Record RequiredOptions := mkRequired {
  r_ttl : Z;
  r_maxSize : Z;
  r_persistent : bool;
}.

Record t (T : Type) := mkCache {
  cache : gmap string (CacheEntry T);
  options : RequiredOptions;
  accessOrder : list string;
  hits : nat;
  misses : nat;
}.
Arguments mkCache {T}.
Arguments cache {T}.
Arguments options {T}.
Arguments accessOrder {T}.
Arguments hits {T}.
Arguments misses {T}.

Section Operations.
Context {T : Type}.

Definition new (o : CacheOptions) : t T :=
  mkCache ∅
    (mkRequired (Js.or_num (ttl o) 3600000)
                (Js.or_num (maxSize o) 1000)
                (Js.or_bool (persistent o) false))
    [] 0%nat 0%nat.

Definition removeFromAccessOrder (c : t T) (key : string) : t T :=
  mkCache (cache c) (options c) (Js.remove_first key (accessOrder c))
          (hits c) (misses c).

Definition updateAccessOrder (c : t T) (key : string) : t T :=
  let c1 := removeFromAccessOrder c key in
  mkCache (cache c1) (options c1) (accessOrder c1 ++ [key])
          (hits c1) (misses c1).

(** [entry.expiry && now > entry.expiry]: an absent expiry and the
    (falsy) expiry [0] never expire. *)
Definition expired (e : CacheEntry T) (now : Z) : bool :=
  match expiry e with
  | Some x => negb (x =? 0) && (now >? x)
  | None => false
  end.

(** [delete(key)]: the updated cache and whether the key was stored. *)
Definition delete (c : t T) (key : string) : t T * bool :=
  let c1 := removeFromAccessOrder c key in
  (mkCache (base.delete key (cache c1)) (options c1) (accessOrder c1)
           (hits c1) (misses c1),
   bool_decide (is_Some (cache c1 !! key))).

(** [get(key)] at clock reading [now]; [None] is the [null] of a miss. *)
Definition get (c : t T) (key : string) (now : Z) : t T * option T :=
  match cache c !! key with
  | None =>
      (mkCache (cache c) (options c) (accessOrder c) (hits c) (S (misses c)),
       None)
  | Some entry =>
      if expired entry now then
        let c1 := mkCache (base.delete key (cache c)) (options c)
                    (accessOrder c) (hits c) (misses c) in
        let c2 := removeFromAccessOrder c1 key in
        (mkCache (cache c2) (options c2) (accessOrder c2) (hits c2)
                 (S (misses c2)),
         None)
      else
        let c1 := updateAccessOrder c key in
        (mkCache (cache c1) (options c1) (accessOrder c1) (S (hits c1))
                 (misses c1),
         Some (data entry))
  end.

Definition evictLRU (c : t T) : t T :=
  match accessOrder c with
  | lruKey :: _ => fst (delete c lruKey)
  | [] => c
  end.

(** [set(key, data, ttl?)].  The body reads the clock twice: [t_stamp]
    is the read stored in [timestamp], [now] the one added to the TTL. *)
Definition set (c : t T) (key : string) (d : T) (ttl : option Z)
    (t_stamp now : Z) : t T :=
  let expiry := Js.or_num ttl (r_ttl (options c)) in
  let c1 :=
    if (Z.of_nat (size (cache c)) >=? r_maxSize (options c))
       && negb (bool_decide (is_Some (cache c !! key)))
    then evictLRU c else c in
  let entry := mkEntry d t_stamp
                 (if expiry >? 0 then Some (now + expiry) else None) in
  let c2 := mkCache (<[key := entry]> (cache c1)) (options c1)
              (accessOrder c1) (hits c1) (misses c1) in
  updateAccessOrder c2 key.

Definition clear (c : t T) : t T :=
  mkCache ∅ (options c) [] (hits c) (misses c).

(** [has(key)] at clock reading [now]. *)
Definition has (c : t T) (key : string) (now : Z) : t T * bool :=
  match cache c !! key with
  | None => (c, false)
  | Some entry =>
      if expired entry now then (fst (delete c key), false) else (c, true)
  end.

Definition size_ (c : t T) : nat := size (cache c).

(** Representation invariant: [accessOrder] lists the stored keys, each
    exactly once. *)
Definition wf (c : t T) : Prop :=
  NoDup (accessOrder c) ∧
  ∀ k, k ∈ accessOrder c ↔ is_Some (cache c !! k).

(** One call [set(key, data, ttl?)] with its two clock reads. *)
Record SetCall := mkSet {
  s_key : string;
  s_data : T;
  s_ttl : option Z;
  s_stamp : Z;
  s_now : Z;
}.

Definition set_call (c : t T) (s : SetCall) : t T :=
  set c (s_key s) (s_data s) (s_ttl s) (s_stamp s) (s_now s).

(** Consecutive calls of [set], with no other access in between. *)
Definition set_all (c : t T) (l : list SetCall) : t T :=
  fold_left set_call l c.

(** The calls a client can make, each with the clock it reads. *)
Inductive Call :=
| CallGet (key : string) (now : Z)
| CallSet (s : SetCall)
| CallDelete (key : string)
| CallHas (key : string) (now : Z)
| CallClear.

Definition call (c : t T) (op : Call) : t T :=
  match op with
  | CallGet key now => fst (get c key now)
  | CallSet s => set_call c s
  | CallDelete key => fst (delete c key)
  | CallHas key now => fst (has c key now)
  | CallClear => clear c
  end.

Definition run (c : t T) (ops : list Call) : t T := fold_left call ops c.

(** [CacheStats]. *)
Record CacheStats := mkStats {
  st_size : nat;
  st_hits : nat;
  st_misses : nat;
  st_hitRate : float;
}.

(** A counter as the number it is in JavaScript (exact below 2^53). *)
Definition number_of (n : nat) : float :=
  PrimFloat.of_uint63 (Uint63.of_Z (Z.of_nat n)).

(** [getStats()]. *)
Definition getStats (c : t T) : CacheStats :=
  mkStats (size (cache c)) (hits c) (misses c)
    (if (0 <? hits c + misses c)%nat
     then PrimFloat.div (number_of (hits c)) (number_of (hits c + misses c))
     else PrimFloat.zero).

(** The body of the loop of [cleanup()], on one entry of the map. *)
Definition cleanup_entry (now : Z) (acc : t T * nat)
    (entry : string * CacheEntry T) : t T * nat :=
  if expired (snd entry) now
  then (fst (delete (fst acc) (fst entry)), S (snd acc))
  else acc.

(** [cleanup()] at clock reading [now]: the cache without its expired
    entries, and how many were removed.  The loop visits the entries of the
    map; the deletions do not depend on the order of the visit. *)
Definition cleanup (c : t T) (now : Z) : t T * nat :=
  fold_left (cleanup_entry now) (map_to_list (cache c)) (c, 0%nat).

(** The number of [get] calls in a sequence of calls. *)
Definition is_get (op : Call) : bool :=
  match op with
  | CallGet _ _ => true
  | _ => false
  end.

Definition gets (ops : list Call) : nat := length (List.filter is_get ops).

End Operations.
Arguments SetCall : clear implicits.
Arguments Call : clear implicits.

End Cache.


(** ** JSON values and [JSON.stringify] *)

Module Json.

(** The values [JSON.stringify] is applied to.  Numbers are the integer
    ones; the properties of an object are listed in the order in which
    JavaScript enumerates them (for keys that are not array indices this
    is the insertion order). *)
Inductive t :=
| JNull
| JUndefined
| JBool (b : bool)
| JNumber (n : Z)
| JString (s : string)
| JArray (items : list t)
| JObject (props : list (string * t)).

Definition hex_digit (n : Z) : ascii :=
  nth (Z.to_nat n)
    ["0"; "1"; "2"; "3"; "4"; "5"; "6"; "7"; "8"; "9";
     "a"; "b"; "c"; "d"; "e"; "f"]%char "0"%char.

Definition str1 (c : ascii) : string := String c EmptyString.

Definition dquote : ascii := "034"%char.
Definition backslash : ascii := "092"%char.

(** [QuoteJSONString] on one character (a byte of the UTF-8 encoding). *)
Definition escape_char (c : ascii) : string :=
  let n := Z.of_N (N_of_ascii c) in
  if n =? 34 then String backslash (str1 dquote)
  else if n =? 92 then String backslash (str1 backslash)
  else if n =? 8 then String backslash (str1 "b")
  else if n =? 12 then String backslash (str1 "f")
  else if n =? 10 then String backslash (str1 "n")
  else if n =? 13 then String backslash (str1 "r")
  else if n =? 9 then String backslash (str1 "t")
  else if n <? 32 then
    String backslash
      (String "u" (String "0" (String "0"
         (String (hex_digit (n / 16)) (str1 (hex_digit (n mod 16)))))))
  else str1 c.

Fixpoint escape (s : string) : string :=
  match s with
  | EmptyString => EmptyString
  | String c r => escape_char c +:+ escape r
  end.

Definition quote (s : string) : string :=
  String dquote (escape s +:+ str1 dquote).

Fixpoint join_comma (l : list string) : string :=
  match l with
  | [] => EmptyString
  | [x] => x
  | x :: r => x +:+ String "," (join_comma r)
  end.

(** [JSON.stringify] below the top level: [undefined] is written [null]
    as an array element, and a property holding it is left out. *)
Fixpoint stringify (v : t) : string :=
  match v with
  | JNull => "null"
  | JUndefined => "null"
  | JBool true => "true"
  | JBool false => "false"
  | JNumber n => pretty n
  | JString s => quote s
  | JArray items =>
      String "[" (join_comma (map stringify items) +:+ "]")
  | JObject props =>
      String "{"
        (join_comma
           (flat_map
              (λ p, let '(k, w) := p in
                    match w with
                    | JUndefined => []
                    | _ => [quote k +:+ String ":" (stringify w)]
                    end) props) +:+ "}")
  end%string.

(** Two objects with the same key-value pairs, whatever their order. *)
Definition same_properties (a b : t) : Prop :=
  match a, b with
  | JObject pa, JObject pb => Permutation pa pb
  | _, _ => a = b
  end.

End Json.

(** ** MD5 (RFC 1321), the digest behind [createHash('md5')] *)

Module MD5.

Definition mask32 : Z := 0xffffffff.
Definition add32 (a b : Z) : Z := Z.land (a + b) mask32.
Definition not32 (a : Z) : Z := Z.lxor a mask32.
Definition rotl32 (x s : Z) : Z :=
  Z.lor (Z.land (Z.shiftl x s) mask32) (Z.shiftr x (32 - s)).

Definition shifts : list Z :=
  [7; 12; 17; 22; 7; 12; 17; 22; 7; 12; 17; 22; 7; 12; 17; 22;
   5; 9; 14; 20; 5; 9; 14; 20; 5; 9; 14; 20; 5; 9; 14; 20;
   4; 11; 16; 23; 4; 11; 16; 23; 4; 11; 16; 23; 4; 11; 16; 23;
   6; 10; 15; 21; 6; 10; 15; 21; 6; 10; 15; 21; 6; 10; 15; 21].

(** [floor (2^32 * abs (sin (i + 1)))] for [i = 0 .. 63]. *)
Definition sines : list Z :=
  [0xd76aa478; 0xe8c7b756; 0x242070db; 0xc1bdceee;
   0xf57c0faf; 0x4787c62a; 0xa8304613; 0xfd469501;
   0x698098d8; 0x8b44f7af; 0xffff5bb1; 0x895cd7be;
   0x6b901122; 0xfd987193; 0xa679438e; 0x49b40821;
   0xf61e2562; 0xc040b340; 0x265e5a51; 0xe9b6c7aa;
   0xd62f105d; 0x02441453; 0xd8a1e681; 0xe7d3fbc8;
   0x21e1cde6; 0xc33707d6; 0xf4d50d87; 0x455a14ed;
   0xa9e3e905; 0xfcefa3f8; 0x676f02d9; 0x8d2a4c8a;
   0xfffa3942; 0x8771f681; 0x6d9d6122; 0xfde5380c;
   0xa4beea44; 0x4bdecfa9; 0xf6bb4b60; 0xbebfbc70;
   0x289b7ec6; 0xeaa127fa; 0xd4ef3085; 0x04881d05;
   0xd9d4d039; 0xe6db99e5; 0x1fa27cf8; 0xc4ac5665;
   0xf4292244; 0x432aff97; 0xab9423a7; 0xfc93a039;
   0x655b59c3; 0x8f0ccc92; 0xffeff47d; 0x85845dd1;
   0x6fa87e4f; 0xfe2ce6e0; 0xa3014314; 0x4e0811a1;
   0xf7537e82; 0xbd3af235; 0x2ad7d2bb; 0xeb86d391].

Definition state : Type := Z * Z * Z * Z.

Definition init : state := (0x67452301, 0xefcdab89, 0x98badcfe, 0x10325476).

Definition mix (i b c d : Z) : Z :=
  if i <? 16 then Z.lor (Z.land b c) (Z.land (not32 b) d)
  else if i <? 32 then Z.lor (Z.land d b) (Z.land (not32 d) c)
  else if i <? 48 then Z.lxor b (Z.lxor c d)
  else Z.lxor c (Z.lor b (not32 d)).

Definition word_index (i : Z) : Z :=
  if i <? 16 then i
  else if i <? 32 then (5 * i + 1) mod 16
  else if i <? 48 then (3 * i + 5) mod 16
  else (7 * i) mod 16.

Definition at_ (l : list Z) (i : Z) : Z := nth (Z.to_nat i) l 0.

Definition step (M : list Z) (st : state) (i : Z) : state :=
  let '(a, b, c, d) := st in
  let f := add32 (add32 (add32 (mix i b c d) a) (at_ sines i))
                 (at_ M (word_index i)) in
  (d, add32 b (rotl32 f (at_ shifts i)), b, c).

Definition process_block (st : state) (M : list Z) : state :=
  let '(a0, b0, c0, d0) := st in
  let '(a, b, c, d) := fold_left (step M) (map Z.of_nat (seq 0 64)) st in
  (add32 a0 a, add32 b0 b, add32 c0 c, add32 d0 d).

(** Little-endian bytes of the low [n] bytes of [x]. *)
Fixpoint le_bytes (n : nat) (x : Z) : list Z :=
  match n with
  | O => []
  | S m => x mod 256 :: le_bytes m (x / 256)
  end.

Definition pad (msg : list Z) : list Z :=
  let len := Z.of_nat (length msg) in
  msg ++ [0x80] ++ repeat 0 (Z.to_nat ((55 - len) mod 64))
      ++ le_bytes 8 ((8 * len) mod 2 ^ 64).

Fixpoint words (bytes : list Z) : list Z :=
  match bytes with
  | b0 :: b1 :: b2 :: b3 :: r =>
      (b0 + 256 * b1 + 65536 * b2 + 16777216 * b3) :: words r
  | _ => []
  end.

Fixpoint blocks (n : nat) (ws : list Z) : list (list Z) :=
  match n with
  | O => []
  | S m => take 16 ws :: blocks m (drop 16 ws)
  end.

Definition bytes_of_string (s : string) : list Z :=
  map (λ c, Z.of_N (N_of_ascii c)) (list_ascii_of_string s).

Definition digest (s : string) : state :=
  let ws := words (pad (bytes_of_string s)) in
  fold_left process_block (blocks (length ws / 16) ws) init.

Definition hex_byte (b : Z) (rest : string) : string :=
  String (Json.hex_digit (b / 16)) (String (Json.hex_digit (b mod 16)) rest).

Definition hex_word (w : Z) (rest : string) : string :=
  match le_bytes 4 w with
  | [b0; b1; b2; b3] => hex_byte b0 (hex_byte b1 (hex_byte b2 (hex_byte b3 rest)))
  | _ => rest
  end.

(** [hash.digest('hex')]. *)
Definition hexdigest (s : string) : string :=
  let '(a, b, c, d) := digest s in
  hex_word a (hex_word b (hex_word c (hex_word d EmptyString))).

End MD5.

(** ** Key generation of [utils/cache.ts] *)

Module CacheKey.

(** [Cache.generateKey(...values)]: MD5 of [JSON.stringify(values)]. *)
Definition generateKey (values : list Json.t) : string :=
  MD5.hexdigest (Json.stringify (Json.JArray values)).

(** [RequestCache.generateRequestKey(url, options?)]. *)
Definition generateRequestKey (url : string) (options : Json.t) : string :=
  generateKey [Json.JString url; options].

(** The digits of a lower-case hexadecimal numeral. *)
Definition lower_hex (c : ascii) : bool :=
  existsb (Ascii.eqb c)
    ["0"; "1"; "2"; "3"; "4"; "5"; "6"; "7"; "8"; "9";
     "a"; "b"; "c"; "d"; "e"; "f"]%char.

Fixpoint all_lower_hex (s : string) : bool :=
  match s with
  | EmptyString => true
  | String c r => lower_hex c && all_lower_hex r
  end.

End CacheKey.


(** ** exceptions/base.ts and exceptions/errors.ts *)

Module Exceptions.

(** The classes that reach the HTTP client.  [PlainError] stands for the
    errors of the runtime and of node-fetch ([AbortError], [FetchError],
    [SyntaxError], ...), which are not [SecEdgarApiError]s. *)
Inductive ErrorClass :=
| PlainError
| SecEdgarApiError
| RateLimitError
| AuthenticationError
| NotFoundError
| RequestError
| TimeoutError
| NetworkError
| OwnershipFormParseError.

(** The [extends] clause of each class. *)
Definition extends (c : ErrorClass) : option ErrorClass :=
  match c with
  | PlainError => None
  | SecEdgarApiError | OwnershipFormParseError => Some PlainError
  | RateLimitError | AuthenticationError | NotFoundError | RequestError =>
      Some SecEdgarApiError
  | TimeoutError | NetworkError => Some RequestError
  end.

Definition class_eqb (a b : ErrorClass) : bool :=
  match a, b with
  | PlainError, PlainError | SecEdgarApiError, SecEdgarApiError
  | RateLimitError, RateLimitError | AuthenticationError, AuthenticationError
  | NotFoundError, NotFoundError | RequestError, RequestError
  | TimeoutError, TimeoutError | NetworkError, NetworkError
  | OwnershipFormParseError, OwnershipFormParseError => true
  | _, _ => false
  end.

Record JsError := mkError {
  class : ErrorClass;
  name : string;
  message : string;
  statusCode : option Z;
}.

(** [error instanceof C]: the class chain has depth at most three. *)
Definition instanceof (e : JsError) (C : ErrorClass) : bool :=
  let c0 := class e in
  class_eqb c0 C
  || match extends c0 with
     | None => false
     | Some c1 =>
         class_eqb c1 C
         || match extends c1 with
            | None => false
            | Some c2 =>
                class_eqb c2 C
                || match extends c2 with
                   | None => false
                   | Some c3 => class_eqb c3 C
                   end
            end
     end.

Definition new_RateLimitError (message : string) : JsError :=
  mkError RateLimitError "RateLimitError" message (Some 429).

Definition new_AuthenticationError (message : string) : JsError :=
  mkError AuthenticationError "AuthenticationError" message (Some 401).

Definition new_NotFoundError (message : string) : JsError :=
  mkError NotFoundError "NotFoundError" message (Some 404).

Definition new_RequestError (message : string) (statusCode : option Z) : JsError :=
  mkError RequestError "RequestError" message statusCode.

Definition new_TimeoutError (timeout : Z) : JsError :=
  mkError TimeoutError "TimeoutError"
    ("Request timed out after " +:+ pretty timeout +:+ "ms") None.

Definition new_NetworkError (message : string) : JsError :=
  mkError NetworkError "NetworkError" message None.

Definition new_SecEdgarApiError (message : string) : JsError :=
  mkError SecEdgarApiError "SecEdgarApiError" message None.

(** [new OwnershipFormParseError(message)], of types/ownership-forms.ts. *)
Definition new_OwnershipFormParseError (message : string) : JsError :=
  mkError OwnershipFormParseError "OwnershipFormParseError" message None.

(** [x && ...] on an optional status code: [undefined] and [0] are falsy. *)
Definition status_is (p : Z → bool) (s : option Z) : bool :=
  match s with
  | Some v => negb (v =? 0) && p v
  | None => false
  end.

(** [ErrorHandler.isRetryable]. *)
Definition isRetryable (error : JsError) : bool :=
  if instanceof error RateLimitError then true
  else if instanceof error TimeoutError then true
  else if instanceof error NetworkError then true
  else if instanceof error RequestError
          && (status_is (λ v, v >=? 500) (statusCode error)
              || match statusCode error with
                 | Some v => v =? 408
                 | None => false
                 end)
       then true
  else false.

(** [ErrorHandler.getRetryDelay]. *)
Definition getRetryDelay (error : JsError) (attempt : Z) : Z :=
  if instanceof error RateLimitError
  then Z.min 60000 (2 ^ attempt * 5000)
  else Z.min 30000 (2 ^ attempt * 1000).

End Exceptions.


(** ** utils/cache.ts: [MultiLevelCache] and [RequestCache] *)

Module RequestCache.

(** [MultiLevelCache] never initialises its persistent level, so a
    [RequestCache] is its memory cache. *)
Abbreviation t := (Cache.t Json.t).

Definition new (o : Cache.CacheOptions) : t := Cache.new o.

(** [data !== null]: a stored [null] reads as a miss. *)
Definition not_null (r : option Json.t) : option Json.t :=
  match r with
  | Some Json.JNull => None
  | other => other
  end.

(** [get(url)], with the options argument left [undefined]. *)
Definition get (c : t) (url : string) (now : Z) : t * option Json.t :=
  let key := CacheKey.generateRequestKey url Json.JUndefined in
  let '(c', data) := Cache.get c key now in
  (c', not_null data).

(** [set(url, response)], options and TTL left [undefined]. *)
Definition set (c : t) (url : string) (response : Json.t) (t_stamp now : Z) : t :=
  let key := CacheKey.generateRequestKey url Json.JUndefined in
  Cache.set c key response None t_stamp now.

(** [invalidateUrl(_baseUrl)]: the argument is not read. *)
Definition invalidateUrl (c : t) (_baseUrl : string) : t := Cache.clear c.

End RequestCache.

(** ** utils/http-client.ts *)

Module HttpClient.
Import Exceptions.

(** [options.cache]: [false], left out, or cache options. *)
Inductive CacheSetting :=
| CacheOff
| CacheDefault
| CacheWith (o : Cache.CacheOptions).

(** [HttpClientOptions]; [rateLimitDelay], given in seconds by the caller,
    is held here by its number of milliseconds. *)
Record HttpClientOptions := mkOptions {
  o_rateLimitDelay : option Z;
  o_maxRetries : option Z;
  o_timeout : option Z;
  o_cache : CacheSetting;
}.

Record t := mkClient {
  userAgent : string;
  rateLimitDelay : Z;
  maxRetries : Z;
  timeout : Z;
  lastRequestTime : Z;
  cache : option RequestCache.t;
}.

Definition new (userAgent : string) (options : HttpClientOptions) : t :=
  mkClient userAgent
    (Js.or_num (o_rateLimitDelay options) 100)
    (Js.or_num (o_maxRetries options) 3)
    (Js.or_num (o_timeout options) 30000)
    0
    (match o_cache options with
     | CacheOff => None
     | CacheDefault =>
         Some (RequestCache.new (Cache.mkOptions (Some 300000) (Some 500) None))
     | CacheWith o =>
         Some (RequestCache.new o)
     end).

(** What one call of [fetch] brings back: a response, with what
    [response.json()] gives or throws as [body]; or a rejected promise,
    after an abort by the timeout timer or a system error. *)
Inductive Outcome :=
| Response (status : Z) (statusText : string) (body : JsError + Json.t)
| Rejected (e : JsError).

Inductive Event :=
| Requested (url : string)
| Slept (ms : Z).

(** The world around the client: the clock, the remote service (the
    outcome of the n-th request, and the time it takes), and what has
    happened so far. *)
Record World := mkWorld {
  clock : Z;
  sent : nat;
  log : list Event;
}.

Record Network := mkNetwork {
  outcome : nat → string → Outcome;
  latency : nat → Z;
}.

Definition sleep (w : World) (ms : Z) : World :=
  mkWorld (clock w + ms) (sent w) (log w ++ [Slept ms]).

(** [enforceRateLimit()] as one call runs it when no other call of the
    same client runs during its pause. *)
Definition enforceRateLimit (c : t) (w : World) : t * World :=
  let now := clock w in
  let timeSinceLastRequest := now - lastRequestTime c in
  let w1 :=
    if timeSinceLastRequest <? rateLimitDelay c
    then sleep w (rateLimitDelay c - timeSinceLastRequest)
    else w in
  (mkClient (userAgent c) (rateLimitDelay c) (maxRetries c) (timeout c)
            (clock w1) (cache c),
   w1).

(** [enforceRateLimit()] up to its [await]: the pause it asks for at
    clock reading [now], [None] when it goes on without pausing. *)
Definition rateLimit_pause (c : t) (now : Z) : option Z :=
  let timeSinceLastRequest := now - lastRequestTime c in
  if timeSinceLastRequest <? rateLimitDelay c
  then Some (rateLimitDelay c - timeSinceLastRequest)
  else None.

(** [this.lastRequestTime = Date.now()], the statement after the
    [await]. *)
Definition rateLimit_stamp (c : t) (now : Z) : t :=
  mkClient (userAgent c) (rateLimitDelay c) (maxRetries c) (timeout c)
           now (cache c).

(** Two calls on one client that overlap (as under [Promise.all]): the
    second reaches [enforceRateLimit] at [tB] while the first, which got
    there at [tA], is pausing, so both read [lastRequestTime] before
    either writes it.  The instants at which the first and the second
    resume and send their requests, and the client once both have
    written. *)
Definition overlapped (c : t) (tA tB : Z) : Z * Z * t :=
  let resume now := now + default 0 (rateLimit_pause c now) in
  (resume tA, resume tB,
   rateLimit_stamp (rateLimit_stamp c (Z.min (resume tA) (resume tB)))
     (Z.max (resume tA) (resume tB))).

Definition fetch (net : Network) (w : World) (url : string) : Outcome * World :=
  (outcome net (sent w) url,
   mkWorld (clock w + latency net (sent w)) (S (sent w))
           (log w ++ [Requested url])).

(** [response.ok]. *)
Definition ok (status : Z) : bool := (200 <=? status) && (status <=? 299).

(** [handleHttpError]: the error it throws. *)
Definition handleHttpError (status : Z) (statusText : string) : JsError :=
  if status =? 401 then
    new_AuthenticationError ("Authentication failed: " +:+ statusText)
  else if status =? 404 then
    new_NotFoundError ("Resource not found: " +:+ statusText)
  else if status =? 429 then
    new_RateLimitError ("Rate limit exceeded: " +:+ statusText)
  else
    new_RequestError ("HTTP " +:+ pretty status +:+ ": " +:+ statusText)
                     (Some status).

(** The [try] block of one attempt: the parsed body, or what is thrown. *)
Definition try_attempt (net : Network) (c : t) (w : World) (url : string)
    : (JsError + Json.t) * t * World :=
  let '(c1, w1) := enforceRateLimit c w in
  let '(o, w2) := fetch net w1 url in
  match o with
  | Rejected e => (inl e, c1, w2)
  | Response status statusText body =>
      if negb (ok status) then (inl (handleHttpError status statusText), c1, w2)
      else
        match body with
        | inl e => (inl e, c1, w2)
        | inr data =>
            let c2 :=
              match cache c1 with
              | Some rc =>
                  mkClient (userAgent c1) (rateLimitDelay c1) (maxRetries c1)
                    (timeout c1) (lastRequestTime c1)
                    (Some (RequestCache.set rc url data (clock w2) (clock w2)))
              | None => c1
              end in
            (inr data, c2, w2)
        end
  end.

Definition is_network_message (m : string) : bool :=
  Js.includes m "ENOTFOUND" || Js.includes m "ECONNREFUSED"
  || Js.includes m "ETIMEDOUT" || Js.includes m "NetworkError".

(** The [catch] block up to the last-attempt test: the new [lastError],
    and whether the error is thrown again at once. *)
Definition classify (c : t) (error : JsError) : JsError * bool :=
  if String.eqb (name error) "AbortError" then
    (new_TimeoutError (timeout c), false)
  else if is_network_message (message error) then
    (new_NetworkError (message error), false)
  else if instanceof error SecEdgarApiError then
    (error,
     match statusCode error with
     | Some s => negb (s =? 0) && (s >=? 400) && (s <? 500) && negb (s =? 429)
     | None => false
     end)
  else (error, false).

(** [Math.pow(2, attempt) * 1000]. *)
Definition backoffTime (attempt : Z) : Z := 2 ^ attempt * 1000.

(** The [for] loop of [get], [budget] bounding the iterations left. *)
Fixpoint attempts (net : Network) (url : string) (budget : nat) (attempt : Z)
    (lastError : option JsError) (c : t) (w : World)
    : (JsError + Json.t) * t * World :=
  let exhausted :=
    (inl (match lastError with
          | Some e => e
          | None => new_SecEdgarApiError "Max retries exceeded"
          end), c, w) in
  match budget with
  | O => exhausted
  | S budget' =>
      if negb (attempt <=? maxRetries c) then exhausted
      else
        match try_attempt net c w url with
        | (inr data, c1, w1) => (inr data, c1, w1)
        | (inl error, c1, w1) =>
            let '(lastError1, rethrow) := classify c1 error in
            if rethrow then (inl error, c1, w1)
            else if attempt =? maxRetries c1 then (inl lastError1, c1, w1)
            else
              attempts net url budget' (attempt + 1) (Some lastError1) c1
                (sleep w1 (backoffTime attempt))
        end
  end.

(** The cache consultation that opens [get]: the client with its cache
    updated by the lookup, and the cached value if there is one. *)
Definition cache_lookup (c : t) (w : World) (url : string) (skipCache : bool)
    : t * option Json.t :=
  match cache c with
  | Some rc =>
      if negb skipCache then
        let '(rc', cached) := RequestCache.get rc url (clock w) in
        (mkClient (userAgent c) (rateLimitDelay c) (maxRetries c) (timeout c)
                  (lastRequestTime c) (Some rc'),
         cached)
      else (c, None)
  | None => (c, None)
  end.

(** [get(url, { skipCache })]. *)
Definition get (net : Network) (c : t) (w : World) (url : string)
    (skipCache : bool) : (JsError + Json.t) * t * World :=
  match cache_lookup c w url skipCache with
  | (c1, Some cached) => (inr cached, c1, w)
  | (c1, None) =>
      attempts net url (Z.to_nat (maxRetries c1 + 1)) 0 None c1 w
  end.

(** What the [try] block throws on an outcome that is not a success. *)
Definition thrown (o : Outcome) : option JsError :=
  match o with
  | Rejected e => Some e
  | Response status statusText body =>
      if negb (ok status) then Some (handleHttpError status statusText)
      else match body with
           | inl e => Some e
           | inr _ => None
           end
  end.

(** Outcomes that the loop answers with another attempt: a 429 response,
    an abort by the timeout timer, a system error whose message carries a
    transport marker, and a response with a status of 500 or more. *)
Definition transient (o : Outcome) : bool :=
  match o with
  | Rejected e =>
      String.eqb (name e) "AbortError" || is_network_message (message e)
  | Response status _ _ => (status =? 429) || (500 <=? status)
  end.

(** A 4xx response other than 429 whose error message carries no
    transport marker. *)
Definition client_error (o : Outcome) : bool :=
  match o with
  | Rejected _ => false
  | Response status statusText _ =>
      (400 <=? status) && (status <? 500) && negb (status =? 429)
      && negb (is_network_message (message (handleHttpError status statusText)))
  end.

(** The requests a run has sent. *)
Definition requests (w : World) : nat := sent w.

(** The pauses a run has taken, in order. *)
Definition sleeps (w : World) : list Z :=
  flat_map (λ e, match e with Slept ms => [ms] | Requested _ => [] end) (log w).

Definition with_cache (c : t) (rc : option RequestCache.t) : t :=
  mkClient (userAgent c) (rateLimitDelay c) (maxRetries c) (timeout c)
           (lastRequestTime c) rc.

(** [invalidateCache(urlPattern)]. *)
Definition invalidateCache (c : t) (urlPattern : string) : t :=
  match cache c with
  | Some rc => with_cache c (Some (RequestCache.invalidateUrl rc urlPattern))
  | None => c
  end.

(** [clearCache()]. *)
Definition clearCache (c : t) : t :=
  match cache c with
  | Some rc => with_cache c (Some (RequestCache.invalidateUrl rc EmptyString))
  | None => c
  end.

End HttpClient.


(** ** Scenarios for the HTTP client *)

Module HttpScenario.
Import Exceptions HttpClient.

(** A service that answers every request with the same status. *)
Definition always (status : Z) (statusText : string) : Network :=
  mkNetwork (λ _ _, Response status statusText (inr Json.JNull)) (λ _, 20).

(** A client with the default retry budget and no cache. *)
Definition client : HttpClient.t :=
  HttpClient.new "Test/1.0 (test@example.com)"
    (mkOptions None None None CacheOff).

Definition start : World := mkWorld 1700000000000 0 [].

Definition data_url : string := "https://data.sec.gov/files/company_tickers.json".

End HttpScenario.


(** ** Plain JavaScript objects used as records of strings *)

Module JsObject.

(** The value of a property: a string that was stored, or, for a name found
    on the prototype chain only, the member of [Object.prototype] of that
    name (a function, or for [__proto__] the prototype itself). *)
Inductive Value :=
| VString (s : string)
| VInherited (member : string)
| VUndefined.

(** An object literal [{}]: its own properties; its prototype is
    [Object.prototype]. *)
Record t := mkObject { own : gmap string Value }.

Definition empty : t := mkObject ∅.

(** The property names of [Object.prototype]. *)
Definition prototype_names : list string :=
  ["constructor"; "__defineGetter__"; "__defineSetter__"; "hasOwnProperty";
   "__lookupGetter__"; "__lookupSetter__"; "isPrototypeOf";
   "propertyIsEnumerable"; "toString"; "valueOf"; "__proto__";
   "toLocaleString"].

Definition inherited (key : string) : bool :=
  existsb (String.eqb key) prototype_names.

(** [key in o]: own properties and the prototype chain. *)
Definition has (o : t) (key : string) : bool :=
  bool_decide (is_Some (own o !! key)) || inherited key.

(** [o[key]]. *)
Definition get (o : t) (key : string) : Value :=
  match own o !! key with
  | Some v => v
  | None => if inherited key then VInherited key else VUndefined
  end.

(** [o[key] = v].  The name [__proto__] reaches the accessor of
    [Object.prototype], which creates no own property (a string is ignored,
    and the prototype object is what the prototype already is). *)
Definition set (o : t) (key : string) (v : Value) : t :=
  if String.eqb key "__proto__" then o
  else mkObject (<[key := v]> (own o)).

(** [Object.keys(o)], as a set. *)
Definition keys (o : t) : gset string := dom (own o).

End JsObject.

(** ** The regular-expression engine *)

Module RegExp.

(** One match: where it starts, the text matched and the capture groups
    ([None] is a group that did not take part). *)
Record Match := mkMatch {
  index : nat;
  matched : string;
  groups : list (option string);
}.

(** The engine of the JavaScript runtime, which the sources use through
    regular-expression literals and [new RegExp(source, flags)].
    [matchAll source flags s] lists the successive matches in [s];
    [split source flags s] is [s.split(regex)]. *)
Record Engine := mkEngine {
  matchAll : string → string → string → list Match;
  split : string → string → string → list string;
}.

(** [s.match(regex)] for a regex without the [g] flag, and [regex.exec]
    on a fresh regex: the first match. *)
Definition first_match (e : Engine) (source flags s : string) : option Match :=
  head (matchAll e source flags s).

(** [match[n]]: the whole match for [0], a capture group otherwise. *)
Definition group (m : Match) (n : nat) : option string :=
  match n with
  | O => Some (matched m)
  | S k => match nth_error (groups m) k with
           | Some g => g
           | None => None
           end
  end.

(** [s.replace(regex, replacement)] for a global regex: the text between
    the matches is kept and every match becomes [replacement m]. *)
Definition replace (e : Engine) (source flags : string)
    (replacement : Match → string) (s : string) : string :=
  let '(out, pos) :=
    fold_left
      (λ (acc : string * nat) (m : Match),
         let '(out, pos) := acc in
         (out +:+ Js.substring s pos (index m) +:+ replacement m,
          (index m + String.length (matched m))%nat))
      (matchAll e source flags s) (EmptyString, 0%nat) in
  out +:+ Js.substring_from s pos.

(** A partial engine, exact on the sources that hold no metacharacter:
    such a source matches its literal occurrences, compared here without
    regard to case; any other source is given no match. *)
Definition is_meta (c : ascii) : bool :=
  existsb (Ascii.eqb c)
    ["."; "*"; "+"; "?"; "^"; "$"; "{"; "}"; "("; ")"; "|"; "["; "]"; "092"]%char.

Fixpoint has_meta (s : string) : bool :=
  match s with
  | EmptyString => false
  | String c r => is_meta c || has_meta r
  end.

(** Occurrences of [needle] from position [pos] on, none overlapping the
    one before: [skip] characters are still covered by the last match. *)
Fixpoint occurrences (skip pos : nat) (needle s : string) : list Match :=
  match s with
  | EmptyString => []
  | String _ r =>
      match skip with
      | S k => occurrences k (S pos) needle r
      | O =>
          if String.prefix (Js.toLowerCase needle) (Js.toLowerCase s)
          then mkMatch pos (Js.substring s 0 (String.length needle)) []
                 :: occurrences (String.length needle - 1) (S pos) needle r
          else occurrences 0 (S pos) needle r
      end
  end.

Definition literal_matchAll (source flags s : string) : list Match :=
  if has_meta source || (String.length source =? 0)%nat then []
  else occurrences 0 0 source s.

(** The pieces of [s] around the given matches. *)
Fixpoint pieces (s : string) (pos : nat) (ms : list Match) : list string :=
  match ms with
  | [] => [Js.substring_from s pos]
  | m :: r =>
      Js.substring s pos (index m)
        :: pieces s (index m + String.length (matched m)) r
  end.

Definition literal_engine : Engine :=
  mkEngine literal_matchAll
    (λ source flags s, pieces s 0 (literal_matchAll source flags s)).

End RegExp.


(** ** parsers/item-extractor.ts *)

Module ItemExtractor.

Inductive FormType :=
| FORM_10K
| FORM_10Q
| FORM_8K
| FORM_20F
| FORM_40F.

Record ItemDefinition := mkItem {
  number : string;
  title : string;
  aliases : option (list string);
  required : option bool;
}.

Record ExtractedItem := mkExtracted {
  itemNumber : string;
  e_title : string;
  content : string;
  startPosition : nat;
  endPosition : nat;
}.

(** [new InvalidFormTypeError(formType, validTypes)]. *)
Inductive Error :=
| InvalidFormTypeError (formType : string) (validTypes : list string).

Definition item (n t : string) : ItemDefinition := mkItem n t None None.
Definition optional (n t : string) : ItemDefinition :=
  mkItem n t None (Some false).
Definition aliased (n t : string) (a : list string) : ItemDefinition :=
  mkItem n t (Some a) None.

Definition FORM_10K_ITEMS : list ItemDefinition :=
  [ item "1" "Business";
    item "1A" "Risk Factors";
    item "1B" "Unresolved Staff Comments";
    optional "1C" "Cybersecurity";
    item "2" "Properties";
    item "3" "Legal Proceedings";
    optional "4" "Mine Safety Disclosures";
    item "5" "Market for Registrant's Common Equity";
    optional "6" "Reserved";
    aliased "7" "Management's Discussion and Analysis" ["MD&A"];
    item "7A" "Quantitative and Qualitative Disclosures About Market Risk";
    item "8" "Financial Statements and Supplementary Data";
    item "9" "Changes in and Disagreements with Accountants";
    item "9A" "Controls and Procedures";
    item "9B" "Other Information";
    optional "9C" "Disclosure Regarding Foreign Jurisdictions";
    item "10" "Directors, Executive Officers and Corporate Governance";
    item "11" "Executive Compensation";
    item "12" "Security Ownership";
    item "13" "Certain Relationships and Related Transactions";
    item "14" "Principal Accountant Fees and Services";
    item "15" "Exhibits and Financial Statement Schedules" ].

Definition FORM_10Q_ITEMS : list ItemDefinition :=
  [ item "1" "Financial Statements";
    aliased "2" "Management's Discussion and Analysis" ["MD&A"];
    item "3" "Quantitative and Qualitative Disclosures About Market Risk";
    item "4" "Controls and Procedures";
    aliased "1" "Legal Proceedings" ["Part II, Item 1"];
    aliased "1A" "Risk Factors" ["Part II, Item 1A"];
    aliased "2" "Unregistered Sales of Equity Securities" ["Part II, Item 2"];
    aliased "3" "Defaults Upon Senior Securities" ["Part II, Item 3"];
    mkItem "4" "Mine Safety Disclosures" (Some ["Part II, Item 4"]) (Some false);
    aliased "5" "Other Information" ["Part II, Item 5"];
    aliased "6" "Exhibits" ["Part II, Item 6"] ].

Definition FORM_8K_ITEMS : list ItemDefinition :=
  [ item "1.01" "Entry into a Material Definitive Agreement";
    item "1.02" "Termination of a Material Definitive Agreement";
    item "2.01" "Completion of Acquisition or Disposition of Assets";
    item "2.02" "Results of Operations and Financial Condition";
    item "2.03" "Creation of a Direct Financial Obligation";
    item "3.01" "Notice of Delisting or Failure to Satisfy";
    item "3.02" "Unregistered Sales of Equity Securities";
    item "4.01" "Changes in Registrant's Certifying Accountant";
    item "4.02" "Non-Reliance on Previously Issued Financial Statements";
    item "5.01" "Changes in Control of Registrant";
    item "5.02" "Departure of Directors or Certain Officers";
    item "5.03" "Amendments to Articles of Incorporation or Bylaws";
    item "7.01" "Regulation FD Disclosure";
    item "8.01" "Other Events";
    item "9.01" "Financial Statements and Exhibits" ].

(** [this.formItems], the map built by the constructor. *)
Definition formItems (f : FormType) : option (list ItemDefinition) :=
  match f with
  | FORM_10K => Some FORM_10K_ITEMS
  | FORM_10Q => Some FORM_10Q_ITEMS
  | FORM_8K => Some FORM_8K_ITEMS
  | FORM_20F | FORM_40F => None
  end.

Definition validTypes : list string := ["10-K"; "10-Q"; "8-K"; "20-F"; "40-F"].

Definition parseFormType (formTypeStr : string) : Error + FormType :=
  let upperType := Js.toUpperCase formTypeStr in
  if Js.includes upperType "10-K" || Js.includes upperType "10K" then
    inr FORM_10K
  else if Js.includes upperType "10-Q" || Js.includes upperType "10Q" then
    inr FORM_10Q
  else if Js.includes upperType "8-K" || Js.includes upperType "8K" then
    inr FORM_8K
  else if Js.includes upperType "20-F" || Js.includes upperType "20F" then
    inr FORM_20F
  else if Js.includes upperType "40-F" || Js.includes upperType "40F" then
    inr FORM_40F
  else inl (InvalidFormTypeError formTypeStr validTypes).

(** The markers of the three forms that have a registry. *)
Definition names_supported_form (upperType : string) : bool :=
  Js.includes upperType "10-K" || Js.includes upperType "10K"
  || Js.includes upperType "10-Q" || Js.includes upperType "10Q"
  || Js.includes upperType "8-K" || Js.includes upperType "8K".

Definition nl : string := String "010" EmptyString.

(** [str.replace(/[.*+?^${}()|[\]\\]/g, '\\$&')]. *)
Fixpoint escapeRegex (str : string) : string :=
  match str with
  | EmptyString => EmptyString
  | String c r =>
      if RegExp.is_meta c then String "092" (String c (escapeRegex r))
      else String c (escapeRegex r)
  end.

(** A [Map<string, ExtractedItem>]: insertion order, one entry per key. *)
Fixpoint map_set (m : list (string * ExtractedItem)) (k : string)
    (v : ExtractedItem) : list (string * ExtractedItem) :=
  match m with
  | [] => [(k, v)]
  | (k', v') :: r =>
      if String.eqb k' k then (k, v) :: r else (k', v') :: map_set r k v
  end.

Section WithEngine.
Variable re : RegExp.Engine.

Definition cleanContent (content : string) : string :=
  let cleaned := RegExp.replace re "<[^>]+>" "g" (λ _, " ") content in
  let cleaned := RegExp.replace re "\s+" "g" (λ _, " ") cleaned in
  let cleaned :=
    RegExp.replace re "(Item\s+\d+[A-Z]?\.)" "gi"
      (λ m, nl +:+ nl +:+ default EmptyString (RegExp.group m 1)) cleaned in
  Js.trim cleaned.

Definition extractTableOfContents (content : string) : list (string * nat) :=
  match RegExp.first_match re
          "TABLE\s+OF\s+CONTENTS(.*?)(?:Item\s+1\.|PART\s+I\s)" "is" content with
  | Some tocMatch =>
      let tocContent := default EmptyString (RegExp.group tocMatch 1) in
      map (λ m, (Js.toUpperCase (default EmptyString (RegExp.group m 1)),
                 RegExp.index m))
          (RegExp.matchAll re "Item\s+(\d+[A-Z]?)\.\s*([^\n\r.]+)" "gi" tocContent)
  | None => []
  end.

(** [Math.max(...positions)]; the list is not empty where it is used. *)
Definition max_position (tocItems : list (string * nat)) : nat :=
  fold_right Nat.max 0%nat (map snd tocItems).

Definition isInToc (position : nat) (tocItems : list (string * nat)) : bool :=
  match tocItems with
  | [] => false
  | _ => (position <? max_position tocItems + 500)%nat
  end.

Definition findItemEnd (content : string) (startPos : nat) : nat :=
  let remainingContent := Js.substring_from content (startPos + 10) in
  match RegExp.first_match re "Item\s+\d+[A-Z]?[.:]\s*[A-Z]" "i"
          remainingContent with
  | Some m => (startPos + 10 + RegExp.index m)%nat
  | None => String.length content
  end.

Definition patterns (itemDef : ItemDefinition) : list string :=
  [ "Item\s+" +:+ escapeRegex (number itemDef) +:+ "\.\s*"
      +:+ escapeRegex (title itemDef);
    "Item\s+" +:+ escapeRegex (number itemDef) +:+ "\.\s*(?=[A-Z])";
    "Item\s+" +:+ escapeRegex (number itemDef) +:+ "(?:\.|:|\s)" ]
  ++ match aliases itemDef with
     | Some l => map escapeRegex l
     | None => []
     end.

(** The match kept among [matches], which is not empty: the first one,
    unless a later one lies outside the table of contents. *)
Definition choose (matches : list RegExp.Match) (tocItems : list (string * nat))
    (first : RegExp.Match) : RegExp.Match :=
  if (1 <? length matches)%nat && (0 <? length tocItems)%nat then
    match find (λ m, negb (isInToc (RegExp.index m) tocItems)) (tail matches) with
    | Some m => m
    | None => first
    end
  else first.

(** The loop over the patterns of one item: the item extracted with the
    first pattern that matches. *)
Fixpoint try_patterns (content : string) (tocItems : list (string * nat))
    (itemDef : ItemDefinition) (ps : list string) : option ExtractedItem :=
  match ps with
  | [] => None
  | pattern :: rest =>
      match RegExp.matchAll re pattern "gi" content with
      | [] => try_patterns content tocItems itemDef rest
      | first :: _ as matches =>
          let m := choose matches tocItems first in
          let startPos := RegExp.index m in
          let endPos := findItemEnd content startPos in
          let itemContent := Js.trim (Js.substring content startPos endPos) in
          Some (mkExtracted (number itemDef) (title itemDef) itemContent
                  startPos endPos)
      end
  end.

(** The body of the loop over the item definitions. *)
Definition extract_item (content : string) (tocItems : list (string * nat))
    (items : list (string * ExtractedItem)) (itemDef : ItemDefinition)
    : list (string * ExtractedItem) :=
  match try_patterns content tocItems itemDef (patterns itemDef) with
  | Some extracted => map_set items (number itemDef) extracted
  | None => items
  end.

Definition extractItemsFromContent (content : string) (formType : FormType)
    (tocItems : list (string * nat)) : list (string * ExtractedItem) :=
  let itemDefinitions := default [] (formItems formType) in
  fold_left (extract_item content tocItems) itemDefinitions [].

(** The body of the loop of [postProcessItems]. *)
Definition process_item (processed : JsObject.t)
    (entry : string * ExtractedItem) : JsObject.t :=
  let '(itemNum, extractedItem) := entry in
  let content :=
    RegExp.replace re "\n\s*\n\s*\n" "g" (λ _, nl +:+ nl)
      (content extractedItem) in
  if (50 <? String.length (Js.trim content))%nat then
    JsObject.set processed itemNum (JsObject.VString content)
  else if Js.includes (Js.toLowerCase content) "none"
          || Js.includes (Js.toLowerCase content) "not applicable" then
    JsObject.set processed itemNum (JsObject.VString content)
  else
    JsObject.set processed itemNum (JsObject.VString EmptyString).

Definition postProcessItems (items : list (string * ExtractedItem))
    : JsObject.t :=
  fold_left process_item items JsObject.empty.

(** [extractItems(content, formType)].  A [FormType] is a string at run
    time, so the form type always goes through [parseFormType]. *)
Definition extractItems (content formType : string) : Error + JsObject.t :=
  match parseFormType formType with
  | inl err => inl err
  | inr parsedFormType =>
      match formItems parsedFormType with
      | None => inl (InvalidFormTypeError formType validTypes)
      | Some _ =>
          let cleanContent := cleanContent content in
          let tocItems := extractTableOfContents cleanContent in
          let items := extractItemsFromContent cleanContent parsedFormType tocItems in
          inr (postProcessItems items)
      end
  end.

Definition extractSpecificItems (content formType : string)
    (itemNumbers : list string) : Error + JsObject.t :=
  match extractItems content formType with
  | inl err => inl err
  | inr allItems =>
      inr (fold_left
             (λ result itemNum,
                if JsObject.has allItems itemNum then
                  JsObject.set result itemNum (JsObject.get allItems itemNum)
                else result)
             itemNumbers JsObject.empty)
  end.

End WithEngine.

(** What [postProcessItems] lets through as the text of an item. *)
Definition kept_text (v : string) : Prop :=
  v = EmptyString ∨ (50 < String.length (Js.trim v))%nat
  ∨ Js.includes (Js.toLowerCase v) "none" = true
  ∨ Js.includes (Js.toLowerCase v) "not applicable" = true.

Definition kept_object (o : JsObject.t) : Prop :=
  ∀ k val, JsObject.own o !! k = Some val →
           ∃ v, val = JsObject.VString v ∧ kept_text v.

End ItemExtractor.


(** ** parsers/ownership-forms.ts: the constructor *)

Module OwnershipFormParser.
Import Exceptions.

(** What [XMLParser.parse] builds with [parseTagValue: false]: text, an
    object with one property per child tag or attribute, or an array for a
    repeated tag. *)
Inductive Xml :=
| XText (s : string)
| XObject (props : list (string * Xml))
| XArray (items : list Xml).

(** A [TypeError] of the runtime, which is no [SecEdgarApiError] and no
    [OwnershipFormParseError]. *)
Definition new_TypeError (message : string) : JsError :=
  mkError PlainError "TypeError" message None.

(** [value.toString()], or the [TypeError] it raises.  A child element
    named [toString] is an own property that hides
    [Object.prototype.toString] and is no function.  The [toString] of an
    array joins the strings of its elements, and an element with such a
    child cannot be converted to a primitive value. *)
Fixpoint toString (v : Xml) : JsError + string :=
  match v with
  | XText s => inr s
  | XObject props =>
      if existsb (λ p, String.eqb (fst p) "toString") props
      then inl (new_TypeError "documentType.toString is not a function")
      else inr "[object Object]"
  | XArray items =>
      match (fix strings (l : list Xml) : option (list string) :=
               match l with
               | [] => Some []
               | x :: r =>
                   match toString x, strings r with
                   | inr s, Some rs => Some (s :: rs)
                   | _, _ => None
                   end
               end) items with
      | Some l => inr (Json.join_comma l)
      | None => inl (new_TypeError "Cannot convert object to primitive value")
      end
  end.

(** Truthiness: of these values only the empty string is falsy. *)
Definition truthy (v : Xml) : bool :=
  match v with
  | XText EmptyString => false
  | _ => true
  end.

(** [current[key]] for a tag name; [None] is [undefined]. *)
Definition prop (current : Xml) (key : string) : option Xml :=
  match current with
  | XObject props => snd <$> find (λ p, String.eqb (fst p) key) props
  | _ => None
  end.

(** The [for ... in] search for a property equal to [key] up to case. *)
Definition prop_ci (current : Xml) (key : string) : option Xml :=
  match current with
  | XObject props =>
      snd <$> find (λ p, String.eqb (Js.toLowerCase (fst p))
                           (Js.toLowerCase key)) props
  | _ => None
  end.

(** [findNestedValue(obj, path)]; [None] is [null]. *)
Fixpoint findNestedValue (obj : Xml) (path : list string) : option Xml :=
  match path with
  | [] => Some obj
  | key :: rest =>
      if negb (truthy obj) then None
      else
        match prop obj key with
        | Some v => findNestedValue v rest
        | None =>
            match prop_ci obj key with
            | Some v => findNestedValue v rest
            | None => None
            end
        end
  end.

(** The result of a lookup used as a condition. *)
Definition found (r : option Xml) : bool :=
  match r with
  | Some v => truthy v
  | None => false
  end.

(** [this.root.ownershipDocument || this.root]. *)
Definition document (root : Xml) : Xml :=
  match prop root "ownershipDocument" with
  | Some d => if truthy d then d else root
  | None => root
  end.

(** [extractFormType()] on the parsed root: the form type, or the error
    thrown, which is the [TypeError] of [documentType.toString()] or the
    [OwnershipFormParseError] of the last line. *)
Definition extractFormType (root : Xml) : JsError + string :=
  let doc := document root in
  let documentType := findNestedValue doc ["documentType"] in
  if found documentType then
    match toString (default (XText EmptyString) documentType) with
    | inr s => inr (Js.trim s)
    | inl typeError => inl typeError
    end
  else
    let schemaVersion := findNestedValue doc ["schemaVersion"] in
    if found schemaVersion then inr "4"
    else inl (new_OwnershipFormParseError
                "Could not determine form type from XML").

(** The argument of the constructor: a string, or a buffer with the bytes
    that [toString('utf-8')] decodes. *)
Inductive Content :=
| OfString (s : string)
| OfBuffer (bytes : string).

Definition xmlString (xmlContent : Content) : string :=
  match xmlContent with
  | OfString s => s
  | OfBuffer bytes => bytes
  end.

Record t := mkParser {
  xmlContent : Content;
  root : Xml;
  formType : string;
}.

Section WithXmlParser.
(** [XMLParser.parse] of fast-xml-parser: the tree, or the error thrown. *)
Variable parse : string → JsError + Xml.

(** [new OwnershipFormParser(xmlContent)]: the parser, or the error the
    constructor throws. *)
Definition new (xmlContent : Content) : JsError + t :=
  match parse (xmlString xmlContent) with
  | inl error =>
      inl (new_OwnershipFormParseError
             ("Failed to parse XML: " +:+ message error))
  | inr root =>
      match extractFormType root with
      | inl error => inl error
      | inr formType => inr (mkParser xmlContent root formType)
      end
  end.

End WithXmlParser.

(** A stand-in for the XML parser in examples.  It answers three kinds of
    text, each as fast-xml-parser does: a text whose first comment opens
    and is never closed is rejected with the parser's error; one flat
    element [<tag>text</tag>] gives an object with that one property, the
    text trimmed; a text with no tag at all gives the empty object.  (Any
    other text is given the empty object here.) *)
Definition sample_parse (s : string) : JsError + Xml :=
  let comment := Js.indexOf s "<!--" 0 in
  if (0 <=? comment) && (Js.indexOf s "-->" (Z.to_nat comment + 4) <? 0) then
    inl (mkError PlainError "Error" "Comment is not closed." None)
  else
    match s with
    | String "<" r =>
        match Js.indexOf r ">" 0, Js.indexOf r "</" 0 with
        | Zpos p, Zpos q =>
            let tag := Js.substring r 0 (Pos.to_nat p) in
            let text := Js.substring r (S (Pos.to_nat p)) (Pos.to_nat q) in
            if String.eqb (Js.substring_from r (Pos.to_nat q))
                          ("</" +:+ tag +:+ ">")
            then inr (XObject [(tag, XText (Js.trim text))])
            else inr (XObject [])
        | _, _ => inr (XObject [])
        end
    | _ => inr (XObject [])
    end.

End OwnershipFormParser.

(** ** edgar.ts: [FinancialFormParser] *)

Module FinancialFormParser.

Local Open Scope float_scope.

(** [BalanceSheetItem], [IncomeStatementItem]: the same shape. *)
Record StatementItem := mkItem {
  label : string;
  value : float;
  units : string;
  period : string;
  filed : Z;
}.

Record Assets := mkAssets {
  currentAssets : list StatementItem;
  nonCurrentAssets : list StatementItem;
  totalAssets : option StatementItem;
}.

Record Liabilities := mkLiabilities {
  currentLiabilities : list StatementItem;
  nonCurrentLiabilities : list StatementItem;
  totalLiabilities : option StatementItem;
}.

Record Equity := mkEquity {
  totalEquity : option StatementItem;
  retainedEarnings : option StatementItem;
}.

Record BalanceSheet := mkBalanceSheet {
  assets : Assets;
  liabilities : Liabilities;
  equity : Equity;
}.

Record IncomeStatement := mkIncomeStatement {
  revenue : option StatementItem;
  grossProfit : option StatementItem;
  operatingIncome : option StatementItem;
  netIncome : option StatementItem;
  earningsPerShare : option StatementItem;
  operatingExpenses : list StatementItem;
}.

(** Truthiness of a number: [0], [-0] and [NaN] are falsy. *)
Definition truthy (x : float) : bool :=
  negb (PrimFloat.eqb x 0 || PrimFloat.is_nan x).

(** [x !== 0]. *)
Definition nonzero (x : float) : bool := negb (PrimFloat.eqb x 0).

(** [item?.value] used as a condition: [undefined] is falsy. *)
Definition present (x : option StatementItem) : bool :=
  match x with
  | Some i => truthy (value i)
  | None => false
  end.

(** [items.reduce((sum, item) => sum + item.value, 0)]. *)
Definition total (items : list StatementItem) : float :=
  fold_left (λ sum item, sum + value item) items 0.

Definition calculateDebtToEquity (balanceSheet : BalanceSheet) : option float :=
  match totalLiabilities (liabilities balanceSheet),
        totalEquity (equity balanceSheet) with
  | Some l, Some e =>
      if truthy (value l) && truthy (value e) && nonzero (value e)
      then Some (value l / value e) else None
  | _, _ => None
  end.

Definition calculateROE (incomeStatement : IncomeStatement)
    (balanceSheet : BalanceSheet) : option float :=
  match netIncome incomeStatement, totalEquity (equity balanceSheet) with
  | Some n, Some e =>
      if truthy (value n) && truthy (value e) && nonzero (value e)
      then Some (value n / value e) else None
  | _, _ => None
  end.

Definition calculateCurrentRatio (balanceSheet : BalanceSheet) : option float :=
  let currentAssets := total (currentAssets (assets balanceSheet)) in
  let currentLiabilities :=
    total (currentLiabilities (liabilities balanceSheet)) in
  if truthy currentAssets && truthy currentLiabilities
     && nonzero currentLiabilities
  then Some (currentAssets / currentLiabilities) else None.

(** The labels left out of the quick assets. *)
Definition excluded (item : StatementItem) : bool :=
  let label := Js.toLowerCase (label item) in
  Js.includes label "inventory" || Js.includes label "prepaid"
  || Js.includes label "deferred" || Js.includes label "other current assets".

Definition is_inventory (item : StatementItem) : bool :=
  Js.includes (Js.toLowerCase (label item)) "inventory".

(** The first loop of [calculateQuickRatio]. *)
Definition listed_quick_assets (currentAssets : list StatementItem) : float :=
  fold_left
    (λ quickAssets asset,
       if negb (excluded asset) then quickAssets + value asset
       else quickAssets)
    currentAssets 0.

(** [quickAssets] as it stands before the division. *)
Definition quick_assets (currentAssets : list StatementItem) : float :=
  let quickAssets := listed_quick_assets currentAssets in
  if PrimFloat.eqb quickAssets 0 && (0 <? length currentAssets)%nat then
    let totalCurrentAssets := total currentAssets in
    match find is_inventory currentAssets with
    | Some inventory => totalCurrentAssets - value inventory
    | None => totalCurrentAssets * 0.8
    end
  else quickAssets.

Definition calculateQuickRatio (balanceSheet : BalanceSheet) : option float :=
  let quickAssets := quick_assets (currentAssets (assets balanceSheet)) in
  let currentLiabilities :=
    total (currentLiabilities (liabilities balanceSheet)) in
  if truthy quickAssets && truthy currentLiabilities
     && nonzero currentLiabilities
  then Some (quickAssets / currentLiabilities) else None.

(** *** Risk factors *)

Inductive Severity := low | medium | high.

Record RiskFactor := mkRisk {
  category : string;
  description : string;
  severity : Severity;
}.

Definition assessRiskSeverity (riskText : string) : Severity :=
  let highRiskKeywords :=
    ["material adverse"; "significant risk"; "substantial risk";
     "could result in"] in
  let mediumRiskKeywords :=
    ["may affect"; "potential impact"; "could impact"] in
  let text := Js.toLowerCase riskText in
  if existsb (Js.includes text) highRiskKeywords then high
  else if existsb (Js.includes text) mediumRiskKeywords then medium
  else low.

Definition extractRiskCategory (riskText : string) : string :=
  let categories :=
    [ (["market"; "competition"; "customer"], "Market Risk");
      (["regulation"; "compliance"; "legal"], "Regulatory Risk");
      (["technology"; "cyber"; "security"], "Technology Risk");
      (["financial"; "credit"; "liquidity"], "Financial Risk");
      (["operational"; "supply chain"; "manufacturing"], "Operational Risk") ] in
  let text := Js.toLowerCase riskText in
  match find (λ cat, existsb (Js.includes text) (fst cat)) categories with
  | Some cat => snd cat
  | None => "General Risk"
  end.

Section WithEngine.
Variable re : RegExp.Engine.

(** [extractSection(pattern)] on [this.rawContent]. *)
Definition extractSection (rawContent pattern : string) : string :=
  match RegExp.first_match re pattern "i" rawContent with
  | None => EmptyString
  | Some m =>
      let startIndex := RegExp.index m in
      let endIndex := Js.indexOf rawContent "</DOCUMENT>" startIndex in
      Js.substring rawContent startIndex
        (if (endIndex >? 0)%Z then Z.to_nat endIndex
         else (startIndex + Z.to_nat 50000)%nat)
  end.

Definition getRiskFactors (rawContent : string) : list RiskFactor :=
  let riskSection := extractSection rawContent "RISK FACTORS|ITEM 1A" in
  let factors :=
    filter (λ f, (50 < String.length (Js.trim f))%nat)
      (RegExp.split re "(?=•|·|\d+\.|\n\n)" EmptyString riskSection) in
  let riskFactors :=
    map (λ factor,
           let severity := assessRiskSeverity factor in
           mkRisk (extractRiskCategory factor)
                  (Js.substring (Js.trim factor) 0 500)
                  severity)
        factors in
  take 10 riskFactors.

End WithEngine.

End FinancialFormParser.


(** ** Scenarios for the financial ratios *)

Module RatioScenario.
Import FinancialFormParser.
Local Open Scope float_scope.

Definition line (label : string) (value : float) : StatementItem :=
  mkItem label value "USD" "2024" 0%Z.

(** A balance sheet that lists the given current assets against current
    liabilities of 50. *)
Definition sheet (currentAssets : list StatementItem) : BalanceSheet :=
  mkBalanceSheet
    (mkAssets currentAssets [] None)
    (mkLiabilities [line "Total current liabilities" 50] []
       (Some (line "Total liabilities" 120)))
    (mkEquity (Some (line "Total shareholders' equity" 60)) None).

(** Only the total is known: no line isolates the inventory. *)
Definition only_total : BalanceSheet :=
  sheet [line "Total current assets" 100].

(** Every line is left out of the quick assets, none names inventory. *)
Definition only_prepaid : BalanceSheet :=
  sheet [line "Prepaid expenses and other current assets" 100].

End RatioScenario.


(** ** Scenarios for the cache, after [__tests__/cache.test.ts] *)

Module CacheScenario.

Definition options : Cache.CacheOptions :=
  Cache.mkOptions (Some 1000) (Some 3) None.

Definition call (k v : string) : Cache.SetCall string :=
  Cache.mkSet k v None 0 0.

Definition three : list (Cache.SetCall string) :=
  [call "key1" "value1"; call "key2" "value2"; call "key3" "value3"].

End CacheScenario.


(** ** Scenarios for the HTTP client with its response cache *)

Module HttpCacheScenario.
Import Exceptions HttpClient.

(** A service that answers its first [k] requests with 503 and every later
    one with 200 and the body [data]. *)
Definition flaky (k : nat) (data : Json.t) : Network :=
  mkNetwork
    (λ n _, if (n <? k)%nat
            then Response 503 "Service Unavailable" (inr Json.JNull)
            else Response 200 "OK" (inr data))
    (λ _, 20).

(** A client with the default options, response cache included. *)
Definition client : HttpClient.t :=
  HttpClient.new "Test/1.0 (test@example.com)"
    (mkOptions None None None CacheDefault).

Definition tickers : Json.t :=
  Json.JObject [("ticker", Json.JString "AAPL")].

(** The cache of [client] after [tickers] was stored at time [1000]. *)
Definition warm : HttpClient.t :=
  with_cache client
    (Some (RequestCache.set
             (RequestCache.new (Cache.mkOptions (Some 300000) (Some 500) None))
             HttpScenario.data_url tickers 1000 1000)).

(** The same with a [null] body. *)
Definition warm_null : HttpClient.t :=
  with_cache client
    (Some (RequestCache.set
             (RequestCache.new (Cache.mkOptions (Some 300000) (Some 500) None))
             HttpScenario.data_url Json.JNull 1000 1000)).

Definition at_time (t : Z) : World := mkWorld t 0 [].

End HttpCacheScenario.


(** ** client/edgar-client.ts: the constructor *)

Module EdgarClient.

(** [EdgarClientConfig]; [rateLimitDelay] is held by its number of
    milliseconds, as in [HttpClientOptions]. *)
Record EdgarClientConfig := mkConfig {
  c_userAgent : option string;
  c_rateLimitDelay : option Z;
  c_maxRetries : option Z;
  c_timeout : option Z;
  c_cache : HttpClient.CacheSetting;
}.

(** A [ConfigurationError] of exceptions/errors.ts with its [field]. *)
Record ConfigurationError := mkConfigurationError {
  e_name : string;
  e_message : string;
  e_field : option string;
}.

(** A string that is neither [undefined] nor empty. *)
Definition truthy (s : option string) : bool :=
  match s with
  | Some (String _ _) => true
  | _ => false
  end.

(** [a || b] on optional strings. *)
Definition or_string (a b : option string) : option string :=
  if truthy a then a else b.

(** [new InvalidUserAgentError(userAgent?)]. *)
Definition new_InvalidUserAgentError (userAgent : option string)
    : ConfigurationError :=
  mkConfigurationError "InvalidUserAgentError"
    (if truthy userAgent then
       "Invalid user agent format: "
       +:+ String Json.dquote
             (default EmptyString userAgent
              +:+ String Json.dquote ". Must include contact information.")
     else "User agent is required and must include contact information.")
    (Some "userAgent").

Record t := mkEdgarClient {
  httpClient : HttpClient.t;
  userAgent : string;
}.

(** [new EdgarClient(config)], [env] being the value of the environment
    variable [SEC_EDGAR_TOOLKIT_USER_AGENT]. *)
Definition new (config : EdgarClientConfig) (env : option string)
    : ConfigurationError + t :=
  let ua := or_string (c_userAgent config) env in
  if negb (truthy ua) then inl (new_InvalidUserAgentError None)
  else
    let agent := default EmptyString ua in
    if (String.length agent <? 10)%nat
    then inl (new_InvalidUserAgentError (Some agent))
    else
      inr (mkEdgarClient
             (HttpClient.new agent
                (HttpClient.mkOptions (c_rateLimitDelay config)
                   (c_maxRetries config) (c_timeout config)
                   (match c_cache config with
                    | HttpClient.CacheOff => HttpClient.CacheOff
                    | _ => HttpClient.CacheWith
                             (Cache.mkOptions (Some 300000) (Some 500) None)
                    end)))
             agent).

End EdgarClient.


(** ** endpoints/filings.ts and endpoints/company.ts *)

Module Endpoints.

Definition SEC_BASE_URL : string := "https://data.sec.gov".

(** [cik: string | number]; the numbers are the integers. *)
Inductive Cik :=
| CikNumber (n : Z)
| CikString (s : string).

(** [typeof cik === 'number' ? cik.toString().padStart(10, '0')
    : cik.padStart(10, '0')]. *)
Definition cikStr (cik : Cik) : string :=
  match cik with
  | CikNumber n => Js.padStart (pretty n) 10 "0"
  | CikString s => Js.padStart s 10 "0"
  end.

(** The URL [getFiling] requests. *)
Definition filing_url (cik : Cik) (accessionNumber : string) : string :=
  let accessionFormatted := Js.remove_char "-" accessionNumber in
  SEC_BASE_URL +:+ "/Archives/edgar/data/"
  +:+ Js.number_in_template (Js.parseInt (cikStr cik))
  +:+ "/" +:+ accessionFormatted +:+ "/" +:+ accessionNumber +:+ "-index.json".

(** [company.key] on a parsed JSON value; the keys of an object are
    distinct. *)
Definition prop (company : Json.t) (key : string) : Json.t :=
  match company with
  | Json.JObject props =>
      match List.find (λ p, String.eqb (fst p) key) props with
      | Some p => snd p
      | None => Json.JUndefined
      end
  | _ => Json.JUndefined
  end.

(** [typeof company === 'object' && company !== null && key in company],
    for a key that is neither an array index nor a name of a prototype. *)
Definition object_with (company : Json.t) (key : string) : bool :=
  match company with
  | Json.JObject props => existsb (λ p, String.eqb (fst p) key) props
  | _ => false
  end.

(** [v === s] for a string [s]. *)
Definition is_string (v : Json.t) (s : string) : bool :=
  match v with
  | Json.JString x => String.eqb x s
  | _ => false
  end.

(** [getCompanyByCik], on the entries of the ticker table. *)
Definition getCompanyByCik (tickers : list (string * Json.t)) (cik : Cik)
    : option Json.t :=
  List.find
    (λ company, object_with company "cik_str"
                && is_string (prop company "cik_str") (cikStr cik))
    (snd <$> tickers).

(** Strings of decimal digits. *)
Definition is_digit (c : ascii) : bool :=
  ((48 <=? Js.code c) && (Js.code c <=? 57))%nat.

Fixpoint all_digits (s : string) : bool :=
  match s with
  | EmptyString => true
  | String c r => is_digit c && all_digits r
  end.

(** [filings.recent]: one array per column, read row by row.  The three
    columns the filter reads are strings, as EDGAR serves them; any other
    column is kept with its name. *)
Record Recent := mkRecent {
  accessionNumber : list string;
  form : list string;
  filingDate : list string;
  other_columns : list (string * list string);
}.

(** The filtered table; a cell past the end of its column is [undefined]. *)
Record FilteredRecent := mkFiltered {
  f_accessionNumber : list (option string);
  f_form : list (option string);
  f_filingDate : list (option string);
  f_other_columns : list (string * list (option string));
}.

(** The three fields of [RequestOptions] that [filterSubmissions] reads. *)
Record RequestOptions := mkRequestOptions {
  submissionType : option string;
  fromDate : option string;
  toDate : option string;
}.

(** An option used as a condition: [undefined] and the empty string are
    falsy. *)
Definition given (o : option string) : bool :=
  match o with
  | Some (String _ _) => true
  | _ => false
  end.

(** [recent.form[i] === options.submissionType]. *)
Definition form_is (recent : Recent) (options : RequestOptions) (i : nat) : bool :=
  match form recent !! i, submissionType options with
  | Some f, Some t => String.eqb f t
  | _, _ => false
  end.

(** The callback of the date filter; a comparison with [undefined] is
    false, and strings compare by their character codes. *)
Definition in_range (recent : Recent) (options : RequestOptions) (i : nat) : bool :=
  match filingDate recent !! i with
  | None => true
  | Some d =>
      negb (given (fromDate options)
            && String.ltb d (default EmptyString (fromDate options)))
      && negb (given (toDate options)
               && String.ltb (default EmptyString (toDate options)) d)
  end.

(** [indices] as it stands when the filtered table is built. *)
Definition indices (recent : Recent) (options : RequestOptions) : list nat :=
  let indices := seq 0 (length (accessionNumber recent)) in
  let indices :=
    if given (submissionType options)
    then filter (λ i, form_is recent options i) indices else indices in
  if given (fromDate options) || given (toDate options)
  then filter (λ i, in_range recent options i) indices else indices.

(** [filterSubmissions], on the table [submissions.filings.recent]. *)
Definition filterSubmissions (recent : Recent) (options : RequestOptions)
    : FilteredRecent :=
  let rows := indices recent options in
  let pick (column : list string) := (λ i, column !! i) <$> rows in
  mkFiltered (pick (accessionNumber recent)) (pick (form recent))
    (pick (filingDate recent))
    ((λ c, (fst c, pick (snd c))) <$> other_columns recent).

(** [company.ticker?.toUpperCase()]: [undefined] for a missing or [null]
    ticker, and a [TypeError] (here [None]) for a value that is not a
    string and so has no such method. *)
Definition ticker_upper (company : Json.t) : option (option string) :=
  match prop company "ticker" with
  | Json.JString s => Some (Some (Js.toUpperCase s))
  | Json.JNull | Json.JUndefined => Some None
  | _ => None
  end.

(** The [TypeError] of a call on a value that is no function. *)
Inductive TypeError := NotAFunction (member : string).

(** [getCompanyByTicker], on the entries of the ticker table. *)
Fixpoint getCompanyByTicker (tickers : list (string * Json.t)) (ticker : string)
    : TypeError + option Json.t :=
  match tickers with
  | [] => inr None
  | (_, company) :: rest =>
      if object_with company "ticker" then
        match ticker_upper company with
        | None => inl (NotAFunction "toUpperCase")
        | Some (Some upper) =>
            if String.eqb upper (Js.toUpperCase ticker)
            then inr (Some company)
            else getCompanyByTicker rest ticker
        | Some None => getCompanyByTicker rest ticker
        end
      else getCompanyByTicker rest ticker
  end.

End Endpoints.


(* ===================================================================== *)
(** * Properties *)
(* ===================================================================== *)

Local Open Scope string_scope.
Local Open Scope list_scope.
Local Open Scope Z_scope.

(** ** Access-order list *)

Lemma remove_first_notin (k : string) (l : list string) :
  k ∉ l → Js.remove_first k l = l.
Proof.
  induction l as [|x r IH]; simpl; intros Hk; [reflexivity|].
  apply not_elem_of_cons in Hk as [Hne Hr].
  destruct (String.eqb_spec x k) as [->|_]; [congruence|].
  now rewrite IH.
Qed.

Lemma elem_of_remove_first (k x : string) (l : list string) :
  NoDup l → x ∈ Js.remove_first k l ↔ x ∈ l ∧ x ≠ k.
Proof.
  induction l as [|y r IH]; simpl; intros Hnd.
  - split; [intros H; inversion H | intros [H _]; inversion H].
  - apply NoDup_cons in Hnd as [Hy Hr].
    destruct (String.eqb_spec y k) as [->|Hne].
    + rewrite elem_of_cons. split.
      * intros Hx. split; [now right|]. intros ->. contradiction.
      * intros [[->|Hx] Hxk]; [congruence | assumption].
    + rewrite !elem_of_cons, IH by assumption. split.
      * intros [->|[Hx Hxk]]; split; auto.
      * intros [[->|Hx] Hxk]; auto.
Qed.

Lemma NoDup_remove_first (k : string) (l : list string) :
  NoDup l → NoDup (Js.remove_first k l).
Proof.
  induction l as [|y r IH]; simpl; intros Hnd; [constructor|].
  apply NoDup_cons in Hnd as [Hy Hr].
  destruct (String.eqb_spec y k) as [_|_]; [assumption|].
  apply NoDup_cons. split; [|auto].
  rewrite elem_of_remove_first by assumption. tauto.
Qed.

Lemma remove_first_length_in (k : string) (l : list string) :
  k ∈ l → S (length (Js.remove_first k l)) = length l.
Proof.
  induction l as [|y r IH]; simpl; intros Hk; [inversion Hk|].
  destruct (String.eqb_spec y k) as [_|Hne]; [reflexivity|].
  apply elem_of_cons in Hk as [->|Hk]; [congruence|].
  simpl. now rewrite IH.
Qed.

(** ** Cache: representation invariant *)

Section CacheInvariant.
Context {T : Type}.
Implicit Types (c : Cache.t T) (k key : string).

Lemma cache_wf_new (o : Cache.CacheOptions) : Cache.wf (Cache.new (T:=T) o).
Proof.
  split; simpl; [constructor|].
  intros k. rewrite lookup_empty. split; [intros H; inversion H|].
  intros [x Hx]. discriminate.
Qed.

Lemma cache_wf_size c :
  Cache.wf c → size (Cache.cache c) = length (Cache.accessOrder c).
Proof.
  intros [Hnd Hdom].
  rewrite <- size_dom.
  rewrite <- (size_list_to_set (C:=gset string) (Cache.accessOrder c)) by assumption.
  f_equal. apply set_eq. intros k.
  rewrite elem_of_dom, elem_of_list_to_set. symmetry. apply Hdom.
Qed.

Lemma cache_wf_delete c key : Cache.wf c → Cache.wf (fst (Cache.delete c key)).
Proof.
  intros [Hnd Hdom]. split; simpl.
  - now apply NoDup_remove_first.
  - intros k. rewrite elem_of_remove_first by assumption.
    rewrite Hdom. destruct (decide (key = k)) as [->|Hne].
    + rewrite lookup_delete_eq. split; [tauto|]. intros [x Hx]. discriminate.
    + rewrite lookup_delete_ne by assumption. split; [tauto|]. intros H. split; [assumption|congruence].
Qed.

Lemma cache_wf_evictLRU c : Cache.wf c → Cache.wf (Cache.evictLRU c).
Proof.
  intros Hwf. unfold Cache.evictLRU.
  destruct (Cache.accessOrder c); [assumption|].
  now apply cache_wf_delete.
Qed.

Lemma cache_wf_touch c key (e : Cache.CacheEntry T) :
  Cache.wf c →
  Cache.wf (Cache.updateAccessOrder
              (Cache.mkCache (<[key := e]> (Cache.cache c)) (Cache.options c)
                 (Cache.accessOrder c) (Cache.hits c) (Cache.misses c)) key).
Proof.
  intros [Hnd Hdom]. split; simpl.
  - apply NoDup_app. split; [now apply NoDup_remove_first|]. split.
    + intros x Hx Hx'. apply elem_of_remove_first in Hx; [|assumption].
      apply list_elem_of_singleton in Hx'. tauto.
    + apply NoDup_singleton.
  - intros k. rewrite elem_of_app, elem_of_remove_first by assumption.
    rewrite list_elem_of_singleton, Hdom.
    destruct (decide (key = k)) as [->|Hne].
    + rewrite lookup_insert_eq. split; [eauto|auto].
    + rewrite lookup_insert_ne by assumption. split.
      * intros [[H _]|H]; [assumption|congruence].
      * intros H. left. split; [assumption|congruence].
Qed.

Lemma cache_wf_set c key d ttl t0 now :
  Cache.wf c → Cache.wf (Cache.set c key d ttl t0 now).
Proof.
  intros Hwf. unfold Cache.set.
  destruct (_ && _).
  - apply (cache_wf_touch (Cache.evictLRU c)). now apply cache_wf_evictLRU.
  - now apply (cache_wf_touch c).
Qed.

Lemma cache_wf_get c key now : Cache.wf c → Cache.wf (fst (Cache.get c key now)).
Proof.
  intros Hwf. unfold Cache.get.
  destruct (Cache.cache c !! key) as [e|] eqn:He; [|exact Hwf].
  destruct (Cache.expired e now).
  - exact (cache_wf_delete c key Hwf).
  - destruct Hwf as [Hnd Hdom]. split; simpl.
    + apply NoDup_app. split; [now apply NoDup_remove_first|]. split.
      * intros x Hx Hx'. apply elem_of_remove_first in Hx; [|assumption].
        apply list_elem_of_singleton in Hx'. tauto.
      * apply NoDup_singleton.
    + intros k. rewrite elem_of_app, elem_of_remove_first by assumption.
      rewrite list_elem_of_singleton, Hdom.
      destruct (decide (key = k)) as [->|Hne].
      * rewrite He. split; [eauto|auto].
      * split; [intros [[H _]|H]; [assumption|congruence]|].
        intros H. left. split; [assumption|congruence].
Qed.

End CacheInvariant.

(** ** Cache: capacity and least-recently-used eviction *)

Section CacheLRU.
Context {T : Type}.
Implicit Types (c : Cache.t T) (k key : string).

Lemma cache_set_options c key d ttl t0 now :
  Cache.options (Cache.set c key d ttl t0 now) = Cache.options c.
Proof.
  unfold Cache.set. destruct (_ && _); simpl; [|reflexivity].
  unfold Cache.evictLRU. now destruct (Cache.accessOrder c).
Qed.

Lemma cache_set_fresh_room c key d ttl t0 now :
  Cache.wf c → Cache.cache c !! key = None →
  Z.of_nat (size (Cache.cache c)) < Cache.r_maxSize (Cache.options c) →
  Cache.accessOrder (Cache.set c key d ttl t0 now) = Cache.accessOrder c ++ [key] ∧
  dom (Cache.cache (Cache.set c key d ttl t0 now)) = {[key]} ∪ dom (Cache.cache c).
Proof.
  intros [Hnd Hdom] Hk Hlt. unfold Cache.set.
  replace (Z.of_nat (size (Cache.cache c)) >=? Cache.r_maxSize (Cache.options c))
    with false by (symmetry; rewrite Z.geb_leb; apply Z.leb_gt; lia).
  simpl. split.
  - rewrite remove_first_notin; [reflexivity|].
    rewrite Hdom, Hk. intros [x Hx]. discriminate.
  - apply dom_insert_L.
Qed.

Lemma cache_set_fresh_full c key d ttl t0 now lru rest :
  Cache.wf c → Cache.cache c !! key = None →
  Cache.r_maxSize (Cache.options c) ≤ Z.of_nat (size (Cache.cache c)) →
  Cache.accessOrder c = lru :: rest →
  Cache.accessOrder (Cache.set c key d ttl t0 now) = rest ++ [key] ∧
  dom (Cache.cache (Cache.set c key d ttl t0 now))
    = {[key]} ∪ (dom (Cache.cache c) ∖ {[lru]}).
Proof.
  intros [Hnd Hdom] Hk Hge Hord. unfold Cache.set.
  replace (Z.of_nat (size (Cache.cache c)) >=? Cache.r_maxSize (Cache.options c))
    with true by (symmetry; rewrite Z.geb_leb; apply Z.leb_le; lia).
  rewrite Hk. rewrite bool_decide_eq_false_2 by (intros [x Hx]; discriminate).
  simpl. unfold Cache.evictLRU. rewrite Hord. simpl.
  rewrite Hord. simpl. rewrite String.eqb_refl.
  assert (Hkr : key ∉ rest).
  { intros Hin. assert (Hin' : key ∈ Cache.accessOrder c)
      by (rewrite Hord; now apply elem_of_cons; right).
    apply Hdom in Hin'. rewrite Hk in Hin'. destruct Hin' as [x Hx]. discriminate. }
  split.
  - now rewrite remove_first_notin.
  - rewrite dom_insert_L, dom_delete_L. reflexivity.
Qed.

(** Below capacity, distinct new keys are appended in insertion order. *)
Lemma cache_set_all_fill (l : list (Cache.SetCall T)) : ∀ c,
  Cache.wf c →
  NoDup (Cache.accessOrder c ++ map Cache.s_key l) →
  Z.of_nat (length (Cache.accessOrder c) + length l)
    ≤ Cache.r_maxSize (Cache.options c) →
  Cache.wf (Cache.set_all c l) ∧
  Cache.options (Cache.set_all c l) = Cache.options c ∧
  Cache.accessOrder (Cache.set_all c l) = Cache.accessOrder c ++ map Cache.s_key l.
Proof.
  induction l as [|s l IH]; intros c Hwf Hnd Hle; simpl.
  - now rewrite app_nil_r.
  - assert (Hfresh : Cache.cache c !! Cache.s_key s = None).
    { destruct (Cache.cache c !! Cache.s_key s) eqn:E; [|reflexivity].
      exfalso. apply NoDup_app in Hnd as (_ & Hdisj & _).
      apply (Hdisj (Cache.s_key s)).
      - apply Hwf. eauto.
      - simpl. apply elem_of_cons. now left. }
    destruct (cache_set_fresh_room c (Cache.s_key s) (Cache.s_data s)
                (Cache.s_ttl s) (Cache.s_stamp s) (Cache.s_now s) Hwf Hfresh)
      as [Hord _].
    { rewrite cache_wf_size by assumption. simpl in Hle. lia. }
    fold (Cache.set_call c s) in Hord.
    destruct (IH (Cache.set_call c s)) as (Hwf' & Hopt & Hord').
    + now apply cache_wf_set.
    + rewrite Hord, <- app_assoc. exact Hnd.
    + unfold Cache.set_call at 2. rewrite cache_set_options, Hord, length_app.
      simpl in *. lia.
    + split; [assumption|]. split.
      * rewrite Hopt. apply cache_set_options.
      * rewrite Hord', Hord, <- app_assoc. reflexivity.
Qed.

(** The size bound is an invariant of [set] for a positive capacity. *)
Lemma cache_set_bounded c key d ttl t0 now :
  Cache.wf c → 1 ≤ Cache.r_maxSize (Cache.options c) →
  Z.of_nat (size (Cache.cache c)) ≤ Cache.r_maxSize (Cache.options c) →
  Z.of_nat (size (Cache.cache (Cache.set c key d ttl t0 now)))
    ≤ Cache.r_maxSize (Cache.options c).
Proof.
  intros Hwf Hpos Hle.
  destruct (Cache.cache c !! key) as [e|] eqn:Hk.
  - unfold Cache.set. rewrite Hk.
    rewrite bool_decide_eq_true_2 by eauto. rewrite andb_false_r. simpl.
    rewrite map_size_insert_Some by eauto. exact Hle.
  - destruct (Z_lt_le_dec (Z.of_nat (size (Cache.cache c)))
                (Cache.r_maxSize (Cache.options c))) as [Hlt|Hge].
    + destruct (cache_set_fresh_room c key d ttl t0 now Hwf Hk Hlt) as [_ Hdom].
      rewrite <- size_dom, Hdom, size_union, size_singleton, size_dom.
      * lia.
      * apply disjoint_singleton_l. rewrite elem_of_dom, Hk.
        intros [x Hx]. discriminate.
    + destruct (Cache.accessOrder c) as [|lru rest] eqn:Hord.
      { rewrite cache_wf_size, Hord in Hge by assumption. simpl in Hge. lia. }
      destruct (cache_set_fresh_full c key d ttl t0 now lru rest Hwf Hk Hge Hord)
        as [_ Hdom].
      rewrite <- size_dom, Hdom, size_union, size_singleton.
      * assert (Hin : lru ∈ dom (Cache.cache c)).
        { apply elem_of_dom, Hwf. rewrite Hord. apply elem_of_cons. now left. }
        pose proof (size_difference (dom (Cache.cache c)) {[lru]}) as Hd.
        rewrite size_singleton, size_dom in Hd.
        rewrite Hd by (now apply singleton_subseteq_l).
        assert (0 < size (Cache.cache c))%nat.
        { rewrite cache_wf_size, Hord by assumption. simpl. lia. }
        lia.
      * apply disjoint_singleton_l. rewrite elem_of_difference, elem_of_dom, Hk.
        intros [[x Hx] _]. discriminate.
Qed.

Lemma cache_set_all_bounded (l : list (Cache.SetCall T)) : ∀ c,
  Cache.wf c → 1 ≤ Cache.r_maxSize (Cache.options c) →
  Z.of_nat (size (Cache.cache c)) ≤ Cache.r_maxSize (Cache.options c) →
  Z.of_nat (size (Cache.cache (Cache.set_all c l)))
    ≤ Cache.r_maxSize (Cache.options c).
Proof.
  induction l as [|s l IH]; intros c Hwf Hpos Hle; simpl; [exact Hle|].
  rewrite <- (cache_set_options c (Cache.s_key s) (Cache.s_data s)
                (Cache.s_ttl s) (Cache.s_stamp s) (Cache.s_now s)).
  apply IH.
  - now apply cache_wf_set.
  - now rewrite cache_set_options.
  - rewrite cache_set_options. now apply cache_set_bounded.
Qed.

End CacheLRU.

(** The representation invariant and the size bound hold after every
    sequence of calls on a cache of positive capacity. *)
Section CacheCalls.
Context {T : Type}.
Implicit Types (c : Cache.t T) (k key : string).

Lemma cache_delete_size c key :
  (size (Cache.cache (fst (Cache.delete c key))) ≤ size (Cache.cache c))%nat.
Proof. simpl. rewrite map_size_delete. destruct (_ !! _); simpl; lia. Qed.

Lemma cache_wf_call c (op : Cache.Call T) : Cache.wf c → Cache.wf (Cache.call c op).
Proof.
  intros Hwf. destruct op as [key now|s|key|key now|]; cbn [Cache.call].
  - now apply cache_wf_get.
  - unfold Cache.set_call. now apply cache_wf_set.
  - now apply cache_wf_delete.
  - unfold Cache.has. destruct (Cache.cache c !! key) as [e|]; [|assumption].
    destruct (Cache.expired e now); [now apply cache_wf_delete|assumption].
  - split; simpl; [constructor|]. intros k. rewrite lookup_empty.
    split; [intros H; inversion H | intros [x Hx]; discriminate].
Qed.

Lemma cache_call_options c (op : Cache.Call T) :
  Cache.options (Cache.call c op) = Cache.options c.
Proof.
  destruct op as [key now|s|key|key now|]; cbn [Cache.call]; try reflexivity.
  - unfold Cache.get. destruct (Cache.cache c !! key) as [e|]; [|reflexivity].
    now destruct (Cache.expired e now).
  - unfold Cache.set_call. apply cache_set_options.
  - unfold Cache.has. destruct (Cache.cache c !! key) as [e|]; [|reflexivity].
    now destruct (Cache.expired e now).
Qed.

Lemma cache_call_bounded c (op : Cache.Call T) :
  Cache.wf c → 1 ≤ Cache.r_maxSize (Cache.options c) →
  Z.of_nat (size (Cache.cache c)) ≤ Cache.r_maxSize (Cache.options c) →
  Z.of_nat (size (Cache.cache (Cache.call c op)))
    ≤ Cache.r_maxSize (Cache.options c).
Proof.
  intros Hwf Hpos Hle. destruct op as [key now|s|key|key now|]; cbn [Cache.call].
  - unfold Cache.get. destruct (Cache.cache c !! key) as [e|]; [|exact Hle].
    destruct (Cache.expired e now); [|exact Hle].
    simpl. rewrite map_size_delete. destruct (_ !! _); simpl; lia.
  - unfold Cache.set_call. now apply cache_set_bounded.
  - pose proof (cache_delete_size c key). simpl in *. lia.
  - unfold Cache.has. destruct (Cache.cache c !! key) as [e|]; [|exact Hle].
    destruct (Cache.expired e now); [|exact Hle].
    pose proof (cache_delete_size c key). simpl in *. lia.
  - simpl. rewrite map_size_empty. lia.
Qed.

Lemma cache_run_bounded (ops : list (Cache.Call T)) : ∀ c,
  Cache.wf c → 1 ≤ Cache.r_maxSize (Cache.options c) →
  Z.of_nat (size (Cache.cache c)) ≤ Cache.r_maxSize (Cache.options c) →
  Cache.wf (Cache.run c ops) ∧
  Z.of_nat (size (Cache.cache (Cache.run c ops)))
    ≤ Cache.r_maxSize (Cache.options c).
Proof.
  induction ops as [|op ops IH]; intros c Hwf Hpos Hle; [now split|].
  change (Cache.run c (op :: ops)) with (Cache.run (Cache.call c op) ops).
  rewrite <- (cache_call_options c op).
  apply IH.
  - now apply cache_wf_call.
  - now rewrite cache_call_options.
  - rewrite cache_call_options. now apply cache_call_bounded.
Qed.

(** From construction on: the size never exceeds a positive maximum. *)
Lemma cache_size_invariant (o : Cache.CacheOptions) (K : nat)
    (ops : list (Cache.Call T)) :
  (1 ≤ K)%nat → Cache.maxSize o = Some (Z.of_nat K) →
  (size (Cache.cache (Cache.run (Cache.new o) ops)) ≤ K)%nat.
Proof.
  intros HK Ho.
  destruct (cache_run_bounded ops (Cache.new o) (cache_wf_new o)) as [_ H];
    simpl; rewrite ?Ho; simpl.
  - destruct (Z.of_nat K =? 0) eqn:E; lia.
  - rewrite map_size_empty. destruct (Z.of_nat K =? 0) eqn:E; lia.
  - simpl in H. rewrite Ho in H. simpl in H.
    destruct (Z.of_nat K =? 0) eqn:E; lia.
Qed.

End CacheCalls.

Section CacheLRUMain.
Context {T : Type}.
Implicit Types (c : Cache.t T) (k key : string).

Lemma cache_get_hit c key now v :
  snd (Cache.get c key now) = Some v →
  ∃ e, Cache.cache c !! key = Some e ∧ Cache.expired e now = false ∧
       v = Cache.data e ∧
       Cache.cache (fst (Cache.get c key now)) = Cache.cache c ∧
       Cache.options (fst (Cache.get c key now)) = Cache.options c ∧
       Cache.accessOrder (fst (Cache.get c key now))
         = Js.remove_first key (Cache.accessOrder c) ++ [key].
Proof.
  unfold Cache.get.
  destruct (Cache.cache c !! key) as [e|]; [|discriminate].
  destruct (Cache.expired e now) eqn:He; [discriminate|].
  simpl. intros [= <-]. exists e. repeat split; reflexivity || assumption.
Qed.

Lemma cache_set_all_snoc c (l : list (Cache.SetCall T)) (s : Cache.SetCall T) :
  Cache.set_all c (l ++ [s]) = Cache.set_call (Cache.set_all c l) s.
Proof. unfold Cache.set_all. now rewrite fold_left_app. Qed.

(** After [K] insertions of distinct keys the (K+1)-th evicts the first
    one; a hit moves its key to the most-recently-used end. *)
Lemma cache_overflow_order (K : nat) (o : Cache.CacheOptions)
    (first : Cache.SetCall T) (rest : list (Cache.SetCall T)) :
  (1 ≤ K)%nat →
  Cache.maxSize o = Some (Z.of_nat K) →
  length rest = K →
  NoDup (map Cache.s_key (first :: rest)) →
  Cache.wf (Cache.set_all (Cache.new o) (first :: rest)) ∧
  Cache.accessOrder (Cache.set_all (Cache.new o) (first :: rest))
    = map Cache.s_key rest.
Proof.
  intros HK Ho Hlen Hnd.
  destruct (exists_last (l:=rest)) as (init & lastc & ->).
  { intros ->. simpl in Hlen. lia. }
  rewrite length_app in Hlen. simpl in Hlen.
  assert (Hmax : Cache.r_maxSize (Cache.options (Cache.new (T:=T) o)) = Z.of_nat K).
  { simpl. rewrite Ho. simpl. destruct (Z.of_nat K =? 0) eqn:E; [lia|reflexivity]. }
  change (first :: init ++ [lastc]) with ((first :: init) ++ [lastc]) in *.
  rewrite cache_set_all_snoc.
  rewrite map_app in Hnd. simpl in Hnd.
  destruct (cache_set_all_fill (first :: init) (Cache.new o)) as (Hwf & Hopt & Hord).
  - apply cache_wf_new.
  - simpl. apply (NoDup_app (_ :: _)) in Hnd. tauto.
  - rewrite Hmax. simpl. lia.
  - set (c := Cache.set_all (Cache.new o) (first :: init)) in *.
    simpl in Hord.
    assert (Hfresh : Cache.cache c !! Cache.s_key lastc = None).
    { destruct (Cache.cache c !! Cache.s_key lastc) eqn:E; [|reflexivity].
      exfalso. apply (NoDup_app (_ :: _)) in Hnd as (_ & Hdisj & _).
      apply (Hdisj (Cache.s_key lastc)).
      - rewrite <- Hord. apply Hwf. eauto.
      - apply elem_of_cons. now left. }
    destruct (cache_set_fresh_full c (Cache.s_key lastc) (Cache.s_data lastc)
                (Cache.s_ttl lastc) (Cache.s_stamp lastc) (Cache.s_now lastc)
                (Cache.s_key first) (map Cache.s_key init) Hwf Hfresh)
      as [Hord' _]; [|exact Hord|].
    + rewrite Hopt, Hmax, cache_wf_size, Hord by assumption.
      simpl. rewrite length_map. lia.
    + split; [now apply cache_wf_set|].
      unfold Cache.set_call. rewrite Hord', map_app. reflexivity.
Qed.

(** C3. For a cache built with a positive maximum size [K], [K+1]
    consecutive [set] calls on distinct keys leave exactly the first-inserted
    key evicted, every other key stored, the size at [K], and never more
    than [K] entries on the way.  Moreover a [get] that hits a key makes it
    the most recently used one: when the next [set] of a new key triggers an
    eviction and another key is stored, the victim is that other, less
    recently used key (the head of the access order) and the key that was
    read stays in the cache. *)
Theorem cache_lru_eviction_and_promotion :
  (∀ (K : nat) (o : Cache.CacheOptions)
     (first : Cache.SetCall T) (rest : list (Cache.SetCall T)),
     (1 ≤ K)%nat →
     Cache.maxSize o = Some (Z.of_nat K) →
     length rest = K →
     NoDup (map Cache.s_key (first :: rest)) →
     let c := Cache.set_all (Cache.new o) (first :: rest) in
     Cache.cache c !! Cache.s_key first = None ∧
     (∀ s, s ∈ rest → is_Some (Cache.cache c !! Cache.s_key s)) ∧
     size (Cache.cache c) = K ∧
     (∀ n, (size (Cache.cache
                    (Cache.set_all (Cache.new o) (take n (first :: rest)))) ≤ K)%nat))
  ∧
  (∀ c key now v,
     Cache.wf c →
     snd (Cache.get c key now) = Some v →
     let c1 := fst (Cache.get c key now) in
     last (Cache.accessOrder c1) = Some key ∧
     ∀ key' d ttl t0 t1,
       Cache.cache c1 !! key' = None →
       Cache.r_maxSize (Cache.options c1) ≤ Z.of_nat (size (Cache.cache c1)) →
       (2 ≤ size (Cache.cache c1))%nat →
       let c2 := Cache.set c1 key' d ttl t0 t1 in
       is_Some (Cache.cache c2 !! key) ∧
       ∃ victim, head (Cache.accessOrder c1) = Some victim ∧
                 victim ≠ key ∧
                 is_Some (Cache.cache c1 !! victim) ∧
                 Cache.cache c2 !! victim = None).
Proof.
  split.
  - intros K o first rest HK Ho Hlen Hnd c.
    destruct (cache_overflow_order K o first rest HK Ho Hlen Hnd) as [Hwf Hord].
    fold c in Hwf, Hord.
    assert (Hmem : ∀ k, is_Some (Cache.cache c !! k) ↔ k ∈ map Cache.s_key rest).
    { intros k. rewrite <- Hord. symmetry. apply Hwf. }
    split; [|split; [|split]].
    + destruct (Cache.cache c !! Cache.s_key first) eqn:E; [|reflexivity].
      exfalso. simpl in Hnd. apply NoDup_cons in Hnd as [Hnotin _].
      apply Hnotin, Hmem. eauto.
    + intros s Hs. apply Hmem. apply list_elem_of_fmap. eauto.
    + rewrite cache_wf_size, Hord, length_map by assumption. exact Hlen.
    + intros n.
      pose proof (cache_set_all_bounded (take n (first :: rest)) (Cache.new o)
                    (cache_wf_new o)) as Hb.
      simpl in Hb. rewrite Ho in Hb. simpl in Hb.
      destruct (Z.of_nat K =? 0) eqn:E; [lia|].
      rewrite map_size_empty in Hb. simpl in Hb. lia.
  - intros c key now v Hwf Hhit c1.
    destruct (cache_get_hit c key now v Hhit) as (e & He & _ & _ & Hc & Ho & Hord).
    fold c1 in Hc, Ho, Hord.
    assert (Hwf1 : Cache.wf c1) by now apply cache_wf_get.
    split; [rewrite Hord; apply last_snoc|].
    intros key' d ttl t0 t1 Hfresh Hfull Htwo c2.
    destruct (Js.remove_first key (Cache.accessOrder c)) as [|victim more] eqn:Hrm.
    { rewrite cache_wf_size, Hord in Htwo by assumption. simpl in Htwo. lia. }
    assert (Hv : victim ∈ Cache.accessOrder c ∧ victim ≠ key).
    { apply elem_of_remove_first; [apply Hwf|]. rewrite Hrm.
      apply elem_of_cons. now left. }
    destruct Hv as [Hvin Hvne].
    destruct (cache_set_fresh_full c1 key' d ttl t0 t1 victim (more ++ [key])
                Hwf1 Hfresh Hfull Hord) as [_ Hdom].
    fold c2 in Hdom.
    assert (Hneq : key' ≠ key).
    { intros ->. rewrite Hc, He in Hfresh. discriminate. }
    split.
    + apply elem_of_dom. rewrite Hdom, Hc.
      apply elem_of_union_r, elem_of_difference. split.
      * apply elem_of_dom. eauto.
      * rewrite elem_of_singleton. congruence.
    + exists victim. split; [rewrite Hord; reflexivity|].
      split; [assumption|]. split.
      * rewrite Hc. now apply Hwf.
      * apply eq_None_not_Some. intros Hs.
        apply (elem_of_dom (D:=gset string)) in Hs. rewrite Hdom in Hs. revert Hs.
        rewrite elem_of_union, elem_of_singleton, elem_of_difference, elem_of_singleton.
        intros [->|[_ Hn]]; [|now apply Hn].
        assert (Hin1 : key' ∈ Cache.accessOrder c1).
        { rewrite Hord. apply elem_of_cons. now left. }
        apply Hwf1 in Hin1. rewrite Hfresh in Hin1.
        destruct Hin1 as [x Hx]. discriminate.
Qed.

End CacheLRUMain.

(** ** Cache: time to live *)

Section CacheTTL.
Context {T : Type}.
Implicit Types (c : Cache.t T) (k key : string).

(** The entry that [set] stores, whatever the cache held before. *)
Lemma cache_set_lookup c key d ttl t0 now :
  Cache.cache (Cache.set c key d ttl t0 now) !! key
  = Some (Cache.mkEntry d t0
            (if Js.or_num ttl (Cache.r_ttl (Cache.options c)) >? 0
             then Some (now + Js.or_num ttl (Cache.r_ttl (Cache.options c)))
             else None)).
Proof.
  unfold Cache.set. simpl. now rewrite lookup_insert_eq.
Qed.

Lemma cache_get_live c key now e :
  Cache.cache c !! key = Some e → Cache.expired e now = false →
  snd (Cache.get c key now) = Some (Cache.data e).
Proof. intros He Hx. unfold Cache.get. now rewrite He, Hx. Qed.

Lemma cache_get_expired c key now e :
  Cache.cache c !! key = Some e → Cache.expired e now = true →
  snd (Cache.get c key now) = None ∧
  Cache.cache (fst (Cache.get c key now)) !! key = None.
Proof.
  intros He Hx. unfold Cache.get. rewrite He, Hx. simpl.
  split; [reflexivity | apply lookup_delete_eq].
Qed.

(** C4 (as the code has it). [set] with a negative [ttl] stores an entry
    that never expires; a [ttl] of [0], like an omitted one, is replaced by
    the cache's configured default TTL, so the entry expires after that
    default when it is positive.  With a positive [ttl] [T] set at clock
    reading [now >= 0], [get] returns the stored value at every time up to
    [now + T] and a miss (removing the entry) at every time after it; and a
    second [set] of the same key restarts the clock from its own reading. *)
Theorem cache_ttl_semantics c key d t0 now :
  0 ≤ now →
  (∀ ttl t, ttl < 0 →
     snd (Cache.get (Cache.set c key d (Some ttl) t0 now) key t) = Some d)
  ∧
  (∀ ttl, ttl = None ∨ ttl = Some 0 →
     Cache.expiry <$> (Cache.cache (Cache.set c key d ttl t0 now) !! key)
     = Some (if Cache.r_ttl (Cache.options c) >? 0
             then Some (now + Cache.r_ttl (Cache.options c)) else None))
  ∧
  (∀ ttl t, 0 < ttl →
     (t ≤ now + ttl →
      snd (Cache.get (Cache.set c key d (Some ttl) t0 now) key t) = Some d) ∧
     (now + ttl < t →
      snd (Cache.get (Cache.set c key d (Some ttl) t0 now) key t) = None))
  ∧
  (∀ ttl d' t0' now' t, 0 < ttl → 0 ≤ now' →
     t ≤ now' + ttl →
     snd (Cache.get
            (Cache.set (Cache.set c key d (Some ttl) t0 now)
               key d' (Some ttl) t0' now') key t) = Some d').
Proof.
  intros Hnow.
  assert (Hpos : ∀ c0 (d0 : T) ttl s n t, 0 < ttl → 0 ≤ n → t ≤ n + ttl →
            snd (Cache.get (Cache.set c0 key d0 (Some ttl) s n) key t) = Some d0).
  { intros c0 d0 ttl s n t Httl Hn Ht.
    erewrite cache_get_live; [|apply cache_set_lookup|]; [reflexivity|].
    unfold Cache.expired, Js.or_num. simpl.
    destruct (ttl =? 0) eqn:E0; [lia|].
    destruct (ttl >? 0) eqn:E1; [|lia]. simpl.
    apply andb_false_iff. right. lia. }
  split; [|split; [|split]].
  - intros ttl t Hneg.
    erewrite cache_get_live; [|apply cache_set_lookup|]; [reflexivity|].
    unfold Cache.expired, Js.or_num. simpl.
    destruct (ttl =? 0) eqn:E0; [lia|].
    destruct (ttl >? 0) eqn:E1; [lia|]. reflexivity.
  - intros ttl Httl. rewrite cache_set_lookup. simpl.
    destruct Httl as [->| ->]; reflexivity.
  - intros ttl t Httl. split; intros Ht.
    + now apply Hpos.
    + edestruct cache_get_expired as [Hmiss _]; [apply cache_set_lookup| |exact Hmiss].
      unfold Cache.expired, Js.or_num. simpl.
      destruct (ttl =? 0) eqn:E0; [lia|].
      destruct (ttl >? 0) eqn:E1; [|lia]. simpl.
      apply andb_true_iff. split; [apply negb_true_iff|]; lia.
  - intros ttl d' t0' now' t Httl Hn' Ht. now apply Hpos.
Qed.

End CacheTTL.

(** ** Cache: the scenarios of [__tests__/cache.test.ts] *)

Lemma cache_lru_witness :
  (let c := Cache.set_all (Cache.new CacheScenario.options)
              (CacheScenario.three ++ [CacheScenario.call "key4" "value4"]) in
   Cache.cache c !! "key1" = None ∧ size (Cache.cache c) = 3%nat)
  ∧
  (let c0 := Cache.set_all (Cache.new CacheScenario.options) CacheScenario.three in
   let c1 := fst (Cache.get c0 "key1" 10) in
   let c2 := Cache.set c1 "key4" "value4" None 20 20 in
   is_Some (Cache.cache c2 !! "key1") ∧ Cache.cache c2 !! "key2" = None).
Proof.
  split.
  - destruct (proj1 cache_lru_eviction_and_promotion 3%nat CacheScenario.options
                (CacheScenario.call "key1" "value1")
                [CacheScenario.call "key2" "value2"; CacheScenario.call "key3" "value3";
                 CacheScenario.call "key4" "value4"])
      as (H1 & _ & H3 & _).
    + lia.
    + reflexivity.
    + reflexivity.
    + apply (bool_decide_unpack _). vm_compute. exact I.
    + split; [exact H1 | exact H3].
  - destruct (proj2 (cache_lru_eviction_and_promotion (T:=string))
                (Cache.set_all (Cache.new CacheScenario.options) CacheScenario.three)
                "key1" 10 "value1") as [_ H].
    + repeat apply cache_wf_set. apply cache_wf_new.
    + vm_compute. reflexivity.
    + destruct (H "key4" "value4" None 20 20) as [Hs (victim & Hhd & _ & _ & Hnone)].
      * vm_compute. reflexivity.
      * vm_compute. discriminate.
      * vm_compute. lia.
      * split; [exact Hs|].
        assert (Hv : victim = "key2") by (vm_compute in Hhd; congruence).
        rewrite <- Hv. exact Hnone.
Defined.

(** C4, claim as stated, refuted: on a cache built with the default options
    a [set] with [ttl = 0] uses the one-hour default TTL, and a [get] one
    millisecond after that hour is a miss. *)
Lemma cache_ttl_zero_expires :
  let c := Cache.set (Cache.new (Cache.mkOptions None None None))
             "k" "v" (Some 0) 1000 1000 in
  Cache.expiry <$> (Cache.cache c !! "k") = Some (Some 3601000)
  ∧ snd (Cache.get c "k" 3601001) = None.
Proof. vm_compute. split; reflexivity. Qed.

Lemma cache_ttl_witness :
  snd (Cache.get (Cache.set (Cache.new CacheScenario.options) "key1" "value1" (Some 1000) 0 0)
         "key1" 1000) = Some "value1"
  ∧ snd (Cache.get (Cache.set (Cache.new CacheScenario.options) "key1" "value1" (Some 1000) 0 0)
         "key1" 1001) = None.
Proof.
  destruct (cache_ttl_semantics (Cache.new CacheScenario.options) "key1" "value1" 0 0)
    as (_ & _ & H & _); [lia|].
  destruct (H 1000 1000) as [Hhit _]; [lia|].
  destruct (H 1000 1001) as [_ Hmiss]; [lia|].
  split; [apply Hhit | apply Hmiss]; lia.
Defined.

(** ** Cache keys *)

Lemma md5_hex_word_length (w : Z) (rest : string) :
  String.length (MD5.hex_word w rest) = (8 + String.length rest)%nat.
Proof. reflexivity. Qed.

Lemma md5_hexdigest_length (s : string) :
  String.length (MD5.hexdigest s) = 32%nat.
Proof.
  unfold MD5.hexdigest. destruct (MD5.digest s) as [[[a b] c] d].
  now rewrite !md5_hex_word_length.
Qed.

(** RFC 1321, appendix A.5: the test suite. *)
Example md5_test_suite :
  MD5.hexdigest EmptyString = "d41d8cd98f00b204e9800998ecf8427e" ∧
  MD5.hexdigest "abc" = "900150983cd24fb0d6963f7d28e17f72" ∧
  MD5.hexdigest "message digest" = "f96b697d7cb7938d525a2f31aaf161d0" ∧
  MD5.hexdigest
    "12345678901234567890123456789012345678901234567890123456789012345678901234567890"
  = "57edf4a22be3c955ac49da2e2107b67a".
Proof. vm_compute. repeat split. Qed.

(** C6, claim as stated, refuted: two objects with the same key-value
    pairs, listed in different orders, get different keys. *)
Lemma generateKey_depends_on_property_order :
  let o1 := Json.JObject [("a", Json.JNumber 1); ("b", Json.JNumber 2)] in
  let o2 := Json.JObject [("b", Json.JNumber 2); ("a", Json.JNumber 1)] in
  Json.same_properties o1 o2 ∧
  CacheKey.generateKey [o1] ≠ CacheKey.generateKey [o2] ∧
  CacheKey.generateRequestKey "url" o1 ≠ CacheKey.generateRequestKey "url" o2.
Proof.
  split; [apply perm_swap|].
  split; vm_compute; discriminate.
Qed.

(** C6 (as the code has it). [Cache.generateKey] is a function of
    [JSON.stringify] of its argument list: the key always has 32
    characters, and two argument lists with the same serialization (the
    same properties enumerated in the same order) get the same key. *)
Theorem generateKey_fixed_length_stable (values values' : list Json.t) :
  String.length (CacheKey.generateKey values) = 32%nat ∧
  (Json.stringify (Json.JArray values) = Json.stringify (Json.JArray values') →
   CacheKey.generateKey values = CacheKey.generateKey values').
Proof.
  split; [apply md5_hexdigest_length|].
  unfold CacheKey.generateKey. now intros ->.
Qed.

Lemma generateKey_witness :
  CacheKey.generateKey [Json.JString "url"; Json.JUndefined]
  = CacheKey.generateKey [Json.JString "url"; Json.JNull].
Proof.
  apply (generateKey_fixed_length_stable
           [Json.JString "url"; Json.JUndefined] [Json.JString "url"; Json.JNull]).
  reflexivity.
Defined.

(** ** HTTP client: which failures are retried *)

Section HttpRetry.
Import Exceptions HttpClient.
Variable net : Network.
Variable url : string.

Lemma enforceRateLimit_frame (c : HttpClient.t) (w : World) :
  maxRetries (fst (enforceRateLimit c w)) = maxRetries c ∧
  timeout (fst (enforceRateLimit c w)) = timeout c ∧
  cache (fst (enforceRateLimit c w)) = cache c ∧
  sent (snd (enforceRateLimit c w)) = sent w.
Proof.
  unfold enforceRateLimit. simpl.
  destruct (_ <? _); repeat split; reflexivity.
Qed.

Lemma try_attempt_thrown (c : HttpClient.t) (w : World) (e : JsError) :
  thrown (outcome net (sent w) url) = Some e →
  ∃ c1 w1, try_attempt net c w url = (inl e, c1, w1) ∧
           maxRetries c1 = maxRetries c ∧ timeout c1 = timeout c ∧
           sent w1 = S (sent w).
Proof.
  intros Hthrown. unfold try_attempt.
  destruct (enforceRateLimit_frame c w) as (Hm & Ht & _ & Hs).
  destruct (enforceRateLimit c w) as [c1 w1]. simpl in Hm, Ht, Hs.
  unfold fetch. rewrite Hs.
  destruct (outcome net (sent w) url) as [status statusText body|e'];
    simpl in Hthrown.
  - destruct (negb (ok status)).
    + injection Hthrown as <-. eauto 10.
    + destruct body as [e'|data]; [|discriminate].
      injection Hthrown as <-. eauto 10.
  - injection Hthrown as <-. eauto 10.
Qed.

Lemma classify_timeout (c c' : HttpClient.t) (e : JsError) :
  timeout c' = timeout c → classify c' e = classify c e.
Proof. intros H. unfold classify. now rewrite H. Qed.

(** The error of a response that is not [ok]. *)
Lemma handleHttpError_shape (status : Z) (statusText : string) :
  statusCode (handleHttpError status statusText) = Some status ∧
  String.eqb (name (handleHttpError status statusText)) "AbortError" = false ∧
  instanceof (handleHttpError status statusText) SecEdgarApiError = true.
Proof.
  unfold handleHttpError.
  destruct (Z.eqb_spec status 401) as [->|_]; [repeat split|].
  destruct (Z.eqb_spec status 404) as [->|_]; [repeat split|].
  destruct (Z.eqb_spec status 429) as [->|_]; repeat split.
Qed.

Lemma classify_http_error (c : HttpClient.t) (status : Z) (statusText : string) :
  let e := handleHttpError status statusText in
  classify c e =
    if is_network_message (message e) then (new_NetworkError (message e), false)
    else (e, negb (status =? 0) && (status >=? 400) && (status <? 500)
             && negb (status =? 429)).
Proof.
  intros e. destruct (handleHttpError_shape status statusText) as (Hs & Hn & Hi).
  fold e in Hs, Hn, Hi. unfold classify. now rewrite Hn, Hi, Hs.
Qed.

Lemma transient_thrown (c : HttpClient.t) (o : Outcome) :
  transient o = true →
  ∃ e, thrown o = Some e ∧ snd (classify c e) = false.
Proof.
  destruct o as [status statusText body|e]; simpl; intros Ht.
  - assert (Hok : ok status = false).
    { unfold ok. apply andb_false_iff. right.
      apply orb_true_iff in Ht as [H|H]; lia. }
    rewrite Hok. simpl. eexists. split; [reflexivity|].
    rewrite classify_http_error.
    destruct (is_network_message _); [reflexivity|]. simpl.
    apply orb_true_iff in Ht as [H|H].
    + apply Z.eqb_eq in H. subst status. reflexivity.
    + rewrite !andb_false_iff. left. right. lia.
  - exists e. split; [reflexivity|]. unfold classify.
    apply orb_true_iff in Ht as [H|H].
    + now rewrite H.
    + destruct (String.eqb _ _); [reflexivity|]. now rewrite H.
Qed.

Lemma client_error_thrown (c : HttpClient.t) (o : Outcome) :
  client_error o = true →
  ∃ status statusText body,
    o = Response status statusText body ∧
    thrown o = Some (handleHttpError status statusText) ∧
    classify c (handleHttpError status statusText)
      = (handleHttpError status statusText, true).
Proof.
  destruct o as [status statusText body|e]; simpl; [|discriminate].
  rewrite !andb_true_iff, !negb_true_iff. intros [[[Hlo Hhi] Hne] Hmsg].
  exists status, statusText, body. split; [reflexivity|].
  assert (Hok : ok status = false).
  { unfold ok. apply andb_false_iff. right. lia. }
  rewrite Hok. simpl. split; [reflexivity|].
  rewrite classify_http_error, Hmsg. f_equal.
  rewrite !andb_true_iff, !negb_true_iff. repeat split; lia.
Qed.

(** One failed attempt that is neither the last nor thrown again: the loop
    pauses [backoffTime attempt] and goes on, whatever the error was. *)
Lemma attempts_retry (budget : nat) (attempt : Z) (lastError : option JsError)
    (c c1 : HttpClient.t) (w w1 : World) (e : JsError) :
  attempt ≤ maxRetries c →
  try_attempt net c w url = (inl e, c1, w1) →
  snd (classify c1 e) = false →
  attempt ≠ maxRetries c1 →
  attempts net url (S budget) attempt lastError c w
  = attempts net url budget (attempt + 1) (Some (fst (classify c1 e))) c1
      (sleep w1 (backoffTime attempt)).
Proof.
  intros Hle Htry Hcl Hne. simpl.
  replace (attempt <=? maxRetries c) with true by (symmetry; lia).
  simpl. rewrite Htry.
  destruct (classify c1 e) as [le1 rethrow]. simpl in Hcl. subst rethrow.
  replace (attempt =? maxRetries c1) with false by (symmetry; lia).
  reflexivity.
Qed.

(** When every attempt meets a transient failure, the loop uses its whole
    budget and fails with the last classified error. *)
Lemma attempts_all_transient (budget : nat) : ∀ attempt lastError c w,
  Z.of_nat (S budget) = maxRetries c - attempt + 1 →
  (∀ i, (i ≤ budget)%nat → transient (outcome net (sent w + i) url) = true) →
  ∃ e0 c' w',
    attempts net url (S budget) attempt lastError c w
      = (inl (fst (classify c e0)), c', w') ∧
    thrown (outcome net (sent w + budget) url) = Some e0 ∧
    sent w' = (sent w + S budget)%nat.
Proof.
  induction budget as [|b IH]; intros attempt lastError c w Hb Htr.
  - destruct (transient_thrown c _ (Htr 0%nat (le_n _))) as (e & He & Hcl).
    rewrite Nat.add_0_r in He.
    destruct (try_attempt_thrown c w e He) as (c1 & w1 & Htry & Hm & Ht & Hs).
    exists e, c1, w1. rewrite Nat.add_0_r. split; [|split; [assumption|lia]].
    cbn [attempts].
    replace (attempt <=? maxRetries c) with true by (symmetry; lia).
    simpl. rewrite Htry. rewrite (classify_timeout c c1 e Ht).
    destruct (classify c e) as [le1 rethrow]. simpl in Hcl. subst rethrow.
    replace (attempt =? maxRetries c1) with true by (symmetry; lia).
    reflexivity.
  - destruct (transient_thrown c _ (Htr 0%nat (Nat.le_0_l _))) as (e & He & Hcl).
    rewrite Nat.add_0_r in He.
    destruct (try_attempt_thrown c w e He) as (c1 & w1 & Htry & Hm & Ht & Hs).
    rewrite (attempts_retry (S b) attempt lastError c c1 w w1 e);
      [|lia|assumption|now rewrite (classify_timeout c c1 e Ht)|lia].
    destruct (IH (attempt + 1) (Some (fst (classify c1 e))) c1
                (sleep w1 (backoffTime attempt))) as (e0 & c' & w' & Hrun & Hth & Hsent).
    + lia.
    + intros i Hi. simpl. rewrite Hs.
      replace (S (sent w) + i)%nat with (sent w + S i)%nat by lia.
      apply Htr. lia.
    + exists e0, c', w'. simpl in Hth, Hsent. rewrite Hs in Hth, Hsent.
      split; [|split].
      * rewrite Hrun. now rewrite (classify_timeout c c1 e0 Ht).
      * replace (sent w + S b)%nat with (S (sent w) + b)%nat by lia. exact Hth.
      * lia.
Qed.

(** A client error met after [k] transient failures ends the loop at
    once. *)
Lemma attempts_client_error (k : nat) : ∀ budget attempt lastError c w,
  (k < budget)%nat →
  attempt + Z.of_nat k ≤ maxRetries c →
  (∀ i, (i < k)%nat → transient (outcome net (sent w + i) url) = true) →
  client_error (outcome net (sent w + k) url) = true →
  ∃ status statusText body c' w',
    outcome net (sent w + k) url = Response status statusText body ∧
    attempts net url budget attempt lastError c w
      = (inl (handleHttpError status statusText), c', w') ∧
    sent w' = (sent w + k + 1)%nat.
Proof.
  induction k as [|k IH]; intros budget attempt lastError c w Hk Hle Htr Hce.
  - destruct budget as [|b]; [lia|].
    rewrite Nat.add_0_r in *.
    destruct (client_error_thrown c _ Hce) as (status & statusText & body & Ho & Hth & Hcl).
    destruct (try_attempt_thrown c w _ Hth) as (c1 & w1 & Htry & Hm & Ht & Hs).
    exists status, statusText, body, c1, w1.
    split; [assumption|]. split; [|lia].
    cbn [attempts].
    replace (attempt <=? maxRetries c) with true by (symmetry; lia).
    simpl. rewrite Htry, (classify_timeout c c1 _ Ht), Hcl. reflexivity.
  - destruct budget as [|b]; [lia|].
    destruct (transient_thrown c _ (Htr 0%nat (Nat.lt_0_succ _))) as (e & He & Hcl).
    rewrite Nat.add_0_r in He.
    destruct (try_attempt_thrown c w e He) as (c1 & w1 & Htry & Hm & Ht & Hs).
    rewrite (attempts_retry b attempt lastError c c1 w w1 e);
      [|lia|assumption|now rewrite (classify_timeout c c1 e Ht)|lia].
    destruct (IH b (attempt + 1) (Some (fst (classify c1 e))) c1
                (sleep w1 (backoffTime attempt)))
      as (status & statusText & body & c' & w' & Ho & Hrun & Hsent).
    + lia.
    + lia.
    + intros i Hi. simpl. rewrite Hs.
      replace (S (sent w) + i)%nat with (sent w + S i)%nat by lia.
      apply Htr. lia.
    + simpl. rewrite Hs.
      replace (S (sent w) + k)%nat with (sent w + S k)%nat by lia. exact Hce.
    + simpl in Ho, Hsent. rewrite Hs in Ho, Hsent.
      replace (S (sent w) + k)%nat with (sent w + S k)%nat in Ho by lia.
      exists status, statusText, body, c', w'. repeat split; [assumption..|lia].
Qed.

Lemma try_attempt_maxRetries (c c1 : HttpClient.t) (w w1 : World)
    (r : JsError + Json.t) :
  try_attempt net c w url = (r, c1, w1) → maxRetries c1 = maxRetries c.
Proof.
  unfold try_attempt.
  destruct (enforceRateLimit_frame c w) as (Hm & _).
  destruct (enforceRateLimit c w) as [c0 w0]. simpl in Hm.
  destruct (fetch net w0 url) as [o w2].
  destruct o as [status statusText body|e].
  - destruct (negb (ok status)); [now intros [= _ <- _]|].
    destruct body as [e|data]; [now intros [= _ <- _]|].
    intros [= _ <- _]. now destruct (cache c0).
  - now intros [= _ <- _].
Qed.

(** The budget [get] passes to the loop is enough: any budget that covers
    the attempts left gives the same run. *)
Lemma attempts_enough_budget (b1 : nat) : ∀ b2 attempt lastError c w,
  maxRetries c - attempt + 1 ≤ Z.of_nat b1 →
  maxRetries c - attempt + 1 ≤ Z.of_nat b2 →
  attempts net url b1 attempt lastError c w
  = attempts net url b2 attempt lastError c w.
Proof.
  induction b1 as [|b1 IH]; intros b2 attempt lastError c w H1 H2.
  - destruct b2 as [|b2]; [reflexivity|]. simpl.
    replace (attempt <=? maxRetries c) with false by (symmetry; lia).
    reflexivity.
  - destruct b2 as [|b2].
    + simpl. replace (attempt <=? maxRetries c) with false by (symmetry; lia).
      reflexivity.
    + cbn [attempts]. destruct (negb (attempt <=? maxRetries c)); [reflexivity|].
      destruct (try_attempt net c w url) as [[r c1] w1] eqn:Htry.
      destruct r as [error|data]; [|reflexivity].
      destruct (classify c1 error) as [le1 rethrow].
      destruct rethrow; [reflexivity|].
      destruct (attempt =? maxRetries c1) eqn:E; [reflexivity|].
      apply try_attempt_maxRetries in Htry.
      apply IH; rewrite Htry; lia.
Qed.

End HttpRetry.

Section HttpGet.
Import Exceptions HttpClient.

Lemma cache_lookup_maxRetries (c : HttpClient.t) (w : World) (url : string)
    (skipCache : bool) :
  maxRetries (fst (cache_lookup c w url skipCache)) = maxRetries c ∧
  timeout (fst (cache_lookup c w url skipCache)) = timeout c.
Proof.
  unfold cache_lookup. destruct (cache c) as [rc|]; [|now split].
  destruct (negb skipCache); [|now split].
  destruct (RequestCache.get rc url (clock w)). now split.
Qed.

(** C1 (as the code has it). When the cache gives no value, [get] answers
    rate-limit (429) responses, timeouts, network-transport errors and
    responses with a status of 500 or more with another attempt: if every
    attempt fails that way it sends [maxRetries + 1] requests, the first one
    and [maxRetries] retries, and then fails with the last error.  A 4xx
    response other than 429 (408 included) whose message carries no
    transport marker ends the call on its first occurrence: no further
    request is sent and the error of that response is the result. *)
Theorem http_get_retry_policy (net : Network) (c : HttpClient.t) (w : World)
    (url : string) (skipCache : bool) :
  0 ≤ maxRetries c →
  snd (cache_lookup c w url skipCache) = None →
  ((∀ i, (i ≤ Z.to_nat (maxRetries c))%nat →
         transient (outcome net (sent w + i) url) = true) →
   ∃ e0 c' w',
     get net c w url skipCache = (inl (fst (classify c e0)), c', w') ∧
     thrown (outcome net (sent w + Z.to_nat (maxRetries c)) url) = Some e0 ∧
     requests w' = (sent w + Z.to_nat (maxRetries c) + 1)%nat)
  ∧
  (∀ k, (k ≤ Z.to_nat (maxRetries c))%nat →
        (∀ i, (i < k)%nat → transient (outcome net (sent w + i) url) = true) →
        client_error (outcome net (sent w + k) url) = true →
        ∃ status statusText body c' w',
          outcome net (sent w + k) url = Response status statusText body ∧
          get net c w url skipCache
            = (inl (handleHttpError status statusText), c', w') ∧
          requests w' = (sent w + k + 1)%nat).
Proof.
  intros Hmax Hmiss.
  destruct (cache_lookup_maxRetries c w url skipCache) as [Hm Ht].
  unfold get. destruct (cache_lookup c w url skipCache) as [c1 cached].
  simpl in Hmiss, Hm, Ht. subst cached.
  replace (Z.to_nat (maxRetries c1 + 1)) with (S (Z.to_nat (maxRetries c)))
    by (rewrite Hm; lia).
  split.
  - intros Htr.
    destruct (attempts_all_transient net url (Z.to_nat (maxRetries c)) 0 None c1 w)
      as (e0 & c' & w' & Hrun & Hth & Hsent).
    + rewrite Hm. lia.
    + exact Htr.
    + exists e0, c', w'. rewrite Hrun, (classify_timeout c c1 e0 Ht).
      split; [reflexivity|]. split; [assumption|]. unfold requests. lia.
  - intros k Hk Htr Hce.
    destruct (attempts_client_error net url k (S (Z.to_nat (maxRetries c))) 0 None c1 w)
      as (status & statusText & body & c' & w' & Ho & Hrun & Hsent);
      [lia|rewrite Hm; lia|assumption|assumption|].
    exists status, statusText, body, c', w'. now rewrite Hrun.
Qed.

End HttpGet.

(** C1, claim as stated, refuted: a service that answers 408 gets one
    request, not the four of the retry budget, although
    [ErrorHandler.isRetryable] counts the error as one to retry. *)
Lemma http_get_408_not_retried :
  let '(r, _, w) :=
    HttpClient.get (HttpScenario.always 408 "Request Timeout")
      HttpScenario.client HttpScenario.start HttpScenario.data_url false in
  HttpClient.maxRetries HttpScenario.client = 3 ∧
  HttpClient.requests w = 1%nat ∧
  r = inl (Exceptions.new_RequestError "HTTP 408: Request Timeout" (Some 408)) ∧
  Exceptions.isRetryable
    (Exceptions.new_RequestError "HTTP 408: Request Timeout" (Some 408)) = true.
Proof. vm_compute. repeat split. Qed.

Lemma http_get_retry_witness :
  (∃ e c' w',
     HttpClient.get (HttpScenario.always 503 "Service Unavailable")
       HttpScenario.client HttpScenario.start HttpScenario.data_url false
     = (inl e, c', w') ∧ HttpClient.requests w' = 4%nat)
  ∧
  (∃ e c' w',
     HttpClient.get (HttpScenario.always 400 "Bad Request")
       HttpScenario.client HttpScenario.start HttpScenario.data_url false
     = (inl e, c', w') ∧ HttpClient.requests w' = 1%nat).
Proof.
  split.
  - destruct (http_get_retry_policy (HttpScenario.always 503 "Service Unavailable")
                HttpScenario.client HttpScenario.start HttpScenario.data_url false)
      as [H _]; [vm_compute; discriminate | reflexivity |].
    destruct H as (e0 & c' & w' & Hrun & _ & Hreq); [intros i _; reflexivity|].
    exists (fst (HttpClient.classify HttpScenario.client e0)), c', w'.
    split; [exact Hrun | exact Hreq].
  - destruct (http_get_retry_policy (HttpScenario.always 400 "Bad Request")
                HttpScenario.client HttpScenario.start HttpScenario.data_url false)
      as [_ H]; [vm_compute; discriminate | reflexivity |].
    destruct (H 0%nat) as (status & statusText & body & c' & w' & _ & Hrun & Hreq).
    + vm_compute. lia.
    + intros i Hi. lia.
    + vm_compute. reflexivity.
    + exists (HttpClient.handleHttpError status statusText), c', w'.
      split; [exact Hrun | exact Hreq].
Defined.

(** C2, the code at a rate-limited service: after each 429 the loop pauses
    [2 ^ attempt * 1000] ms (1 s, 2 s, 4 s), the schedule of every other
    retried error, where [ErrorHandler.getRetryDelay] prescribes
    [min 60000 (2 ^ attempt * 5000)] for a [RateLimitError]. *)
Theorem http_get_rate_limit_backoff :
  let '(r, _, w) :=
    HttpClient.get (HttpScenario.always 429 "Too Many Requests")
      HttpScenario.client HttpScenario.start HttpScenario.data_url false in
  r = inl (Exceptions.new_RateLimitError "Rate limit exceeded: Too Many Requests") ∧
  HttpClient.requests w = 4%nat ∧
  HttpClient.sleeps w = [1000; 2000; 4000] ∧
  map (Exceptions.getRetryDelay
         (Exceptions.new_RateLimitError "Rate limit exceeded: Too Many Requests"))
      [0; 1; 2] = [5000; 10000; 20000] ∧
  map (Exceptions.getRetryDelay
         (Exceptions.new_RequestError "HTTP 503: Service Unavailable" (Some 503)))
      [0; 1; 2] = [1000; 2000; 4000].
Proof. vm_compute. repeat split. Qed.

(** ** Item extraction: the keys of the result *)

Section ItemKeys.
Import ItemExtractor.
Variable re : RegExp.Engine.

Lemma map_set_keys (m : list (string * ExtractedItem)) (k : string)
    (v : ExtractedItem) (x : string) :
  x ∈ map fst (map_set m k v) → x = k ∨ x ∈ map fst m.
Proof.
  induction m as [|[k' v'] r IH]; simpl.
  - rewrite list_elem_of_singleton. auto.
  - destruct (String.eqb k' k); simpl; rewrite !elem_of_cons.
    + tauto.
    + intros [->|H]; [auto|]. destruct (IH H); auto.
Qed.

Lemma extract_loop_keys (content : string) (toc : list (string * nat))
    (defs : list ItemDefinition) : ∀ (acc : list (string * ExtractedItem)) x,
  x ∈ map fst (fold_left (extract_item re content toc) defs acc) →
  x ∈ map fst acc ∨ x ∈ map number defs.
Proof.
  induction defs as [|d defs IH]; cbn [fold_left map]; intros acc x Hx; [auto|].
  apply IH in Hx as [Hx|Hx].
  - unfold extract_item in Hx.
    destruct (try_patterns re content toc d (patterns d)).
    + apply map_set_keys in Hx as [->|Hx]; [right; apply elem_of_cons|]; auto.
    + auto.
  - right. apply elem_of_cons. auto.
Qed.

Lemma extractItemsFromContent_keys (content : string) (ft : FormType)
    (toc : list (string * nat)) (x : string) :
  x ∈ map fst (extractItemsFromContent re content ft toc) →
  x ∈ map number (default [] (formItems ft)).
Proof.
  intros Hx. apply extract_loop_keys in Hx as [Hx|Hx]; [inversion Hx|exact Hx].
Qed.

Lemma object_set_keys (o : JsObject.t) (k : string) (v : JsObject.Value) (x : string) :
  x ∈ JsObject.keys (JsObject.set o k v) → x = k ∨ x ∈ JsObject.keys o.
Proof.
  unfold JsObject.set, JsObject.keys.
  destruct (String.eqb k "__proto__"); [auto|]. simpl.
  rewrite dom_insert_L, elem_of_union, elem_of_singleton. tauto.
Qed.

Lemma process_item_keys (o : JsObject.t) (k : string) (e : ExtractedItem)
    (x : string) :
  x ∈ JsObject.keys (process_item re o (k, e)) → x = k ∨ x ∈ JsObject.keys o.
Proof.
  unfold process_item.
  destruct (_ <? _)%nat; [apply object_set_keys|].
  destruct (_ || _); apply object_set_keys.
Qed.

Lemma postProcess_loop_keys (items : list (string * ExtractedItem)) (x : string) :
  ∀ acc, x ∈ JsObject.keys (fold_left (process_item re) items acc) →
         x ∈ JsObject.keys acc ∨ x ∈ map fst items.
Proof.
  induction items as [|[k e] items IH]; cbn [fold_left map]; intros acc Hx; [auto|].
  apply IH in Hx as [Hx|Hx]; [|right; apply elem_of_cons; auto].
  apply process_item_keys in Hx as [->|Hx]; [right; apply elem_of_cons|]; auto.
Qed.

Lemma postProcessItems_keys (items : list (string * ExtractedItem)) (x : string) :
  x ∈ JsObject.keys (postProcessItems re items) → x ∈ map fst items.
Proof.
  intros Hx. apply postProcess_loop_keys in Hx as [Hx|Hx]; [|exact Hx].
  unfold JsObject.keys, JsObject.empty in Hx. simpl in Hx.
  rewrite dom_empty_L in Hx. now apply not_elem_of_empty in Hx.
Qed.

(** For a form type with a registry, [extractItems] returns an object
    whose keys are item numbers of that registry. *)
Lemma extractItems_supported (content formType : string) (ft : FormType)
    (defs : list ItemDefinition) :
  parseFormType formType = inr ft → formItems ft = Some defs →
  ∃ m, extractItems re content formType = inr m ∧
       ∀ k, k ∈ JsObject.keys m → k ∈ map number defs.
Proof.
  intros Hp Hf. unfold extractItems. rewrite Hp, Hf.
  eexists. split; [reflexivity|].
  intros k Hk. apply postProcessItems_keys, extractItemsFromContent_keys in Hk.
  now rewrite Hf in Hk.
Qed.

End ItemKeys.

(** C10. For every engine, content and form type that [parseFormType]
    maps to a form with a registry (10-K, 10-Q, 8-K), [extractItems]
    returns an object, and every key of it is the number of an entry of
    that registry; for ["8-K"] the keys are among the fifteen numbers
    1.01 to 9.01. *)
Theorem extractItems_keys_in_registry (re : RegExp.Engine) (content : string) :
  (∀ formType ft defs,
     ItemExtractor.parseFormType formType = inr ft →
     ItemExtractor.formItems ft = Some defs →
     ∃ m, ItemExtractor.extractItems re content formType = inr m ∧
          ∀ k, k ∈ JsObject.keys m → k ∈ map ItemExtractor.number defs)
  ∧
  (∃ m, ItemExtractor.extractItems re content "8-K" = inr m ∧
        ∀ k, k ∈ JsObject.keys m →
             k ∈ ["1.01"; "1.02"; "2.01"; "2.02"; "2.03"; "3.01"; "3.02";
                  "4.01"; "4.02"; "5.01"; "5.02"; "5.03"; "7.01"; "8.01";
                  "9.01"]).
Proof.
  split.
  - intros formType ft defs. apply extractItems_supported.
  - apply (extractItems_supported re content "8-K" ItemExtractor.FORM_8K
             ItemExtractor.FORM_8K_ITEMS); reflexivity.
Qed.

Lemma extractItems_witness :
  ∃ m, ItemExtractor.extractItems RegExp.literal_engine
         "<p>Annual report.</p> <p>MD&A: not applicable.</p>" "Form 10-K" = inr m ∧
       ∀ k, k ∈ JsObject.keys m →
            k ∈ map ItemExtractor.number ItemExtractor.FORM_10K_ITEMS.
Proof.
  apply (proj1 (extractItems_keys_in_registry RegExp.literal_engine
                  "<p>Annual report.</p> <p>MD&A: not applicable.</p>")
           "Form 10-K" ItemExtractor.FORM_10K ItemExtractor.FORM_10K_ITEMS);
    reflexivity.
Defined.

(** The run behind the witness: the alias of item 7 is found, and the short
    text is kept because it says "not applicable". *)
Example extractItems_alias_run :
  ItemExtractor.extractItems RegExp.literal_engine
    "<p>Annual report.</p> <p>MD&A: not applicable.</p>" "Form 10-K"
  = inr (JsObject.mkObject
           {[ "7" := JsObject.VString "MD&A: not applicable.</p>" ]}).
Proof. vm_compute. reflexivity. Qed.

(** ** Item extraction: requested subsets *)

Section ItemSubset.
Import ItemExtractor.
Variable re : RegExp.Engine.

Lemma inherited_proto (k : string) :
  JsObject.inherited k = false → String.eqb k "__proto__" = false.
Proof.
  intros H. destruct (String.eqb_spec k "__proto__") as [->|]; [|reflexivity].
  discriminate H.
Qed.

(** The loop of [extractSpecificItems] on requests that name no member of
    [Object.prototype]: requested keys take the value stored in the full
    extraction, all other keys stay as they were. *)
Lemma specific_loop_own (allItems : JsObject.t) (itemNumbers : list string) :
  (∀ n, n ∈ itemNumbers → JsObject.inherited n = false) →
  ∀ acc k,
    JsObject.own
      (fold_left
         (λ result itemNum,
            if JsObject.has allItems itemNum then
              JsObject.set result itemNum (JsObject.get allItems itemNum)
            else result) itemNumbers acc) !! k
    = match JsObject.own allItems !! k with
      | Some v => if bool_decide (k ∈ itemNumbers) then Some v
                  else JsObject.own acc !! k
      | None => JsObject.own acc !! k
      end.
Proof.
  induction itemNumbers as [|n l IH]; intros Hown acc k; cbn [fold_left].
  - destruct (JsObject.own allItems !! k); [|reflexivity].
    rewrite bool_decide_eq_false_2; [reflexivity|]. intros H. inversion H.
  - rewrite IH by (intros m Hm; apply Hown, elem_of_cons; auto).
    assert (Hn : JsObject.inherited n = false)
      by (apply Hown, elem_of_cons; auto).
    unfold JsObject.has, JsObject.get. rewrite Hn, orb_false_r.
    destruct (JsObject.own allItems !! k) as [v|] eqn:Hk.
    + destruct (decide (k ∈ l)) as [Hin|Hnin].
      * rewrite (bool_decide_eq_true_2 (k ∈ l)) by assumption.
        rewrite (bool_decide_eq_true_2 (k ∈ n :: l)) by (apply elem_of_cons; auto).
        reflexivity.
      * rewrite (bool_decide_eq_false_2 (k ∈ l)) by assumption.
        destruct (decide (k = n)) as [->|Hne].
        -- rewrite (bool_decide_eq_true_2 (n ∈ n :: l)) by (apply elem_of_cons; auto).
           rewrite Hk. rewrite (bool_decide_eq_true_2 (is_Some (Some v))) by eauto.
           unfold JsObject.set. rewrite (inherited_proto n Hn). simpl.
           apply lookup_insert_eq.
        -- rewrite (bool_decide_eq_false_2 (k ∈ n :: l))
             by (rewrite elem_of_cons; intros [?|?]; congruence).
           destruct (bool_decide (is_Some (JsObject.own allItems !! n)));
             [|reflexivity].
           unfold JsObject.set. rewrite (inherited_proto n Hn). simpl.
           apply lookup_insert_ne. congruence.
    + destruct (decide (k = n)) as [->|Hne].
      * rewrite Hk. rewrite (bool_decide_eq_false_2 (is_Some None));
          [reflexivity|]. intros [x Hx]. discriminate.
      * destruct (bool_decide (is_Some (JsObject.own allItems !! n)));
          [|reflexivity].
        unfold JsObject.set. rewrite (inherited_proto n Hn). simpl.
        apply lookup_insert_ne. congruence.
Qed.

(** On such requests [extractSpecificItems] is the full extraction
    restricted to the requested keys. *)
Lemma extractSpecificItems_restricts (content formType : string)
    (itemNumbers : list string) (allItems : JsObject.t) :
  extractItems re content formType = inr allItems →
  (∀ n, n ∈ itemNumbers → JsObject.inherited n = false) →
  ∃ result,
    extractSpecificItems re content formType itemNumbers = inr result ∧
    ∀ k, JsObject.own result !! k
         = if bool_decide (k ∈ itemNumbers) then JsObject.own allItems !! k
           else None.
Proof.
  intros Hall Hown. unfold extractSpecificItems. rewrite Hall.
  eexists. split; [reflexivity|]. intros k.
  rewrite specific_loop_own by assumption. simpl. rewrite lookup_empty.
  destruct (JsObject.own allItems !! k); [reflexivity|].
  now destruct (bool_decide _).
Qed.

End ItemSubset.

(** C7, the code on a request that names a member of [Object.prototype]:
    [itemNum in allItems] holds through the prototype chain, so the name
    becomes a key of the result, bound to the inherited function, although
    the full extraction has no such key. *)
Theorem extractSpecificItems_inherited_name (re : RegExp.Engine)
    (content : string) :
  ∃ allItems result,
    ItemExtractor.extractItems re content "10-K" = inr allItems ∧
    ItemExtractor.extractSpecificItems re content "10-K" ["toString"]
      = inr result ∧
    ("toString" ∉ JsObject.keys allItems) ∧
    JsObject.own result !! "toString" = Some (JsObject.VInherited "toString").
Proof.
  destruct (extractItems_supported re content "10-K" ItemExtractor.FORM_10K
              ItemExtractor.FORM_10K_ITEMS) as (allItems & Hall & Hkeys);
    [reflexivity..|].
  assert (Hnot : "toString" ∉ JsObject.keys allItems).
  { intros H. apply Hkeys in H. revert H.
    apply (bool_decide_unpack _). vm_compute. exact I. }
  exists allItems. eexists. split; [exact Hall|].
  unfold ItemExtractor.extractSpecificItems. rewrite Hall.
  split; [reflexivity|]. split; [exact Hnot|].
  cbn [fold_left]. unfold JsObject.has, JsObject.get.
  replace (JsObject.inherited "toString") with true by reflexivity.
  rewrite orb_true_r.
  assert (Hnone : JsObject.own allItems !! "toString" = None).
  { apply (not_elem_of_dom (D:=gset string)). exact Hnot. }
  rewrite Hnone. unfold JsObject.set. simpl. apply lookup_insert_eq.
Qed.

(** ** Ownership forms: failure of the constructor *)

Section OwnershipConstructor.
Import Exceptions OwnershipFormParser.
Variable parse : string → JsError + Xml.

(** The two errors [extractFormType] can throw. *)
Lemma extractFormType_error (root : Xml) (e : JsError) :
  extractFormType root = inl e →
  e = new_OwnershipFormParseError "Could not determine form type from XML"
  ∨ (name e = "TypeError" ∧
     ∃ v, findNestedValue (document root) ["documentType"] = Some v ∧
          truthy v = true ∧ toString v = inl e).
Proof.
  unfold extractFormType. cbv zeta.
  destruct (findNestedValue (document root) ["documentType"]) as [v|] eqn:Hv;
    cbn [found].
  - destruct (truthy v) eqn:Ht.
    + cbn [default from_option id].
      destruct (toString v) as [te|s] eqn:Hs; [|discriminate].
      intros [= <-]. right. split; [|eauto].
      clear Hv Ht. revert te Hs.
      destruct v as [s|props|items]; cbn [toString]; intros te.
      * discriminate.
      * destruct (existsb _ props); [now intros [= <-]|discriminate].
      * destruct ((fix strings (l : list Xml) : option (list string) := _) items);
          [discriminate|now intros [= <-]].
    + destruct (found (findNestedValue _ ["schemaVersion"])); [discriminate|].
      intros [= <-]. now left.
  - destruct (found (findNestedValue _ ["schemaVersion"])); [discriminate|].
    intros [= <-]. now left.
Qed.

Lemma extractFormType_no_type (root : Xml) :
  found (findNestedValue (document root) ["documentType"]) = false →
  found (findNestedValue (document root) ["schemaVersion"]) = false →
  extractFormType root
  = inl (new_OwnershipFormParseError "Could not determine form type from XML").
Proof. intros Hd Hs. unfold extractFormType. cbv zeta. now rewrite Hd, Hs. Qed.

(** C5. The constructor returns no parser but throws an
    [OwnershipFormParseError] on every text that cannot be read as a form:
    when the XML parser rejects the text, with the parser's message; and
    when the parser reads the text but the tree holds neither a
    [documentType] nor a [schemaVersion] (the empty tree of a text without
    any tag, for one), with the message that the form type could not be
    determined.  The only other error the constructor can throw is the
    [TypeError] of [documentType.toString()], which needs a tree that has
    a [documentType] element. *)
Theorem ownership_constructor_parse_error (xmlContent : Content) :
  (∀ error, parse (xmlString xmlContent) = inl error →
     OwnershipFormParser.new parse xmlContent
     = inl (new_OwnershipFormParseError
              ("Failed to parse XML: " +:+ message error)))
  ∧
  (∀ root, parse (xmlString xmlContent) = inr root →
     found (findNestedValue (document root) ["documentType"]) = false →
     found (findNestedValue (document root) ["schemaVersion"]) = false →
     OwnershipFormParser.new parse xmlContent
     = inl (new_OwnershipFormParseError
              "Could not determine form type from XML"))
  ∧
  (parse (xmlString xmlContent) = inr (XObject []) →
   OwnershipFormParser.new parse xmlContent
   = inl (new_OwnershipFormParseError
            "Could not determine form type from XML"))
  ∧
  (∀ thrown, OwnershipFormParser.new parse xmlContent = inl thrown →
     (class thrown = OwnershipFormParseError ∧
      name thrown = "OwnershipFormParseError" ∧
      instanceof thrown OwnershipFormParseError = true)
     ∨
     (name thrown = "TypeError" ∧
      ∃ root v, parse (xmlString xmlContent) = inr root ∧
                findNestedValue (document root) ["documentType"] = Some v ∧
                truthy v = true ∧ toString v = inl thrown))
  ∧
  (∀ p, OwnershipFormParser.new parse xmlContent = inr p →
     ∃ root, parse (xmlString xmlContent) = inr root ∧
             OwnershipFormParser.root p = root ∧
             (found (findNestedValue (document root) ["documentType"]) = true
              ∨ found (findNestedValue (document root) ["schemaVersion"]) = true)).
Proof.
  split; [|split; [|split; [|split]]].
  - intros error Hp. unfold OwnershipFormParser.new. now rewrite Hp.
  - intros root Hp Hd Hs. unfold OwnershipFormParser.new.
    now rewrite Hp, (extractFormType_no_type root Hd Hs).
  - intros Hp. unfold OwnershipFormParser.new.
    now rewrite Hp, (extractFormType_no_type (XObject []) eq_refl eq_refl).
  - intros thrown. unfold OwnershipFormParser.new.
    destruct (parse (xmlString xmlContent)) as [error|root].
    + intros [= <-]. left. repeat split.
    + destruct (extractFormType root) as [error|ft] eqn:E; [|discriminate].
      intros [= <-]. apply extractFormType_error in E as [->|[Hn (v & Hv & Ht & Hs)]].
      * left. repeat split.
      * right. split; [exact Hn|]. eauto 10.
  - intros p. unfold OwnershipFormParser.new.
    destruct (parse (xmlString xmlContent)) as [error|root]; [discriminate|].
    destruct (extractFormType root) as [error|ft] eqn:E; [discriminate|].
    intros [= <-]. exists root. split; [reflexivity|]. split; [reflexivity|].
    destruct (found (findNestedValue (document root) ["documentType"])) eqn:Hd;
      [now left|right].
    destruct (found (findNestedValue (document root) ["schemaVersion"])) eqn:Hs;
      [reflexivity|].
    now rewrite (extractFormType_no_type root Hd Hs) in E.
Qed.

End OwnershipConstructor.

(** The test of [__tests__/parsers.test.ts]: text that is not XML. *)
Lemma ownership_constructor_witness :
  OwnershipFormParser.new OwnershipFormParser.sample_parse
    (OwnershipFormParser.OfString "not xml at all")
  = inl (Exceptions.new_OwnershipFormParseError
           "Could not determine form type from XML")
  ∧
  OwnershipFormParser.new OwnershipFormParser.sample_parse
    (OwnershipFormParser.OfString "<!-- not xml at all")
  = inl (Exceptions.new_OwnershipFormParseError
           "Failed to parse XML: Comment is not closed.").
Proof.
  split.
  - apply (proj1 (proj2 (ownership_constructor_parse_error
                           OwnershipFormParser.sample_parse
                           (OwnershipFormParser.OfString "not xml at all")))
             (OwnershipFormParser.XObject []));
      reflexivity.
  - apply (proj1 (ownership_constructor_parse_error
                    OwnershipFormParser.sample_parse
                    (OwnershipFormParser.OfString "<!-- not xml at all"))
             (Exceptions.mkError Exceptions.PlainError "Error"
                "Comment is not closed." None)).
    reflexivity.
Defined.

Example ownership_constructor_accepts :
  OwnershipFormParser.formType <$>
    (match OwnershipFormParser.new OwnershipFormParser.sample_parse
             (OwnershipFormParser.OfString "<documentType> 4 </documentType>") with
     | inr p => Some p
     | inl _ => None
     end) = Some "4".
Proof. vm_compute. reflexivity. Qed.

(** A well-formed document whose [documentType] element has a child named
    [toString]: the constructor's error is a [TypeError], thrown after the
    [try] block. *)
Example ownership_constructor_type_error :
  OwnershipFormParser.new
    (λ _, inr (OwnershipFormParser.XObject
                 [("ownershipDocument",
                   OwnershipFormParser.XObject
                     [("documentType",
                       OwnershipFormParser.XObject
                         [("toString", OwnershipFormParser.XText "4")])])]))
    (OwnershipFormParser.OfString
       "<ownershipDocument><documentType><toString>4</toString></documentType></ownershipDocument>")
  = inl (OwnershipFormParser.new_TypeError
           "documentType.toString is not a function").
Proof. reflexivity. Qed.

(** ** Risk factors: size of the result *)

Lemma string_substring_length (n m : nat) (s : string) :
  (String.length (String.substring n m s) ≤ m)%nat.
Proof.
  revert n m. induction s as [|c s IH]; intros n m.
  - destruct n, m; simpl; lia.
  - destruct n as [|n].
    + destruct m as [|m]; simpl; [lia|]. specialize (IH 0%nat m). lia.
    + simpl. apply IH.
Qed.

Lemma js_substring_length (s : string) (a b : nat) :
  (String.length (Js.substring s a b) ≤ Nat.max a b - Nat.min a b)%nat.
Proof.
  unfold Js.substring. etransitivity; [apply string_substring_length|]. lia.
Qed.

(** C9. Whatever the engine and the text, [getRiskFactors] returns at most
    10 records, and the description of each has at most 500 characters. *)
Theorem getRiskFactors_bounded (re : RegExp.Engine) (rawContent : string) :
  (length (FinancialFormParser.getRiskFactors re rawContent) ≤ 10)%nat ∧
  Forall (λ r, (String.length (FinancialFormParser.description r) ≤ 500)%nat)
         (FinancialFormParser.getRiskFactors re rawContent).
Proof.
  unfold FinancialFormParser.getRiskFactors. split.
  - rewrite length_take. lia.
  - apply Forall_take, Forall_fmap, Forall_forall.
    intros f _. simpl.
    pose proof (js_substring_length (Js.trim f) 0 500). lia.
Qed.

(** ** Financial ratios *)

Section Ratios.
Import FinancialFormParser.
Local Open Scope float_scope.

Lemma ratio_guard (n d : float) (r : float) :
  (if truthy n && truthy d && nonzero d then Some (n / d) else None) = Some r →
  PrimFloat.eqb n 0 = false ∧ PrimFloat.eqb d 0 = false ∧ r = n / d.
Proof.
  unfold truthy, nonzero.
  destruct (PrimFloat.eqb n 0); [discriminate|].
  destruct (PrimFloat.eqb d 0); simpl.
  - rewrite andb_false_r. discriminate.
  - destruct (_ && _); [|discriminate]. intros [= <-]. auto.
Qed.

Lemma ratio_guard_zero (n d : float) :
  PrimFloat.eqb d 0 = true →
  (if truthy n && truthy d && nonzero d then Some (n / d) else None) = None.
Proof.
  intros H. unfold nonzero. rewrite H. simpl. now rewrite andb_false_r.
Qed.

(** C8 (as the code has it). Each ratio is a number only when its inputs are
    there and its denominator is not zero, and then it is their quotient;
    with an input missing or a zero denominator it is [null].  The quick
    assets are 80% of the total current assets when the lines that are not
    labelled inventory, prepaid, deferred or other current assets add up to
    zero, the list is not empty and no line is labelled inventory. *)
Theorem ratios_guarded (bs : BalanceSheet) (inc : IncomeStatement) :
  (* debt to equity *)
  ((∀ r, calculateDebtToEquity bs = Some r →
      ∃ l e, totalLiabilities (liabilities bs) = Some l ∧
             totalEquity (equity bs) = Some e ∧
             PrimFloat.eqb (value e) 0 = false ∧ r = value l / value e) ∧
   (totalLiabilities (liabilities bs) = None → calculateDebtToEquity bs = None) ∧
   (match totalEquity (equity bs) with
    | Some e => PrimFloat.eqb (value e) 0 = true
    | None => True
    end → calculateDebtToEquity bs = None))
  ∧ (* return on equity *)
  ((∀ r, calculateROE inc bs = Some r →
      ∃ n e, netIncome inc = Some n ∧ totalEquity (equity bs) = Some e ∧
             PrimFloat.eqb (value e) 0 = false ∧ r = value n / value e) ∧
   (netIncome inc = None → calculateROE inc bs = None) ∧
   (match totalEquity (equity bs) with
    | Some e => PrimFloat.eqb (value e) 0 = true
    | None => True
    end → calculateROE inc bs = None))
  ∧ (* current ratio *)
  ((∀ r, calculateCurrentRatio bs = Some r →
      PrimFloat.eqb (total (currentLiabilities (liabilities bs))) 0 = false ∧
      r = total (currentAssets (assets bs))
          / total (currentLiabilities (liabilities bs))) ∧
   (PrimFloat.eqb (total (currentLiabilities (liabilities bs))) 0 = true →
    calculateCurrentRatio bs = None))
  ∧ (* quick ratio *)
  ((∀ r, calculateQuickRatio bs = Some r →
      PrimFloat.eqb (total (currentLiabilities (liabilities bs))) 0 = false ∧
      r = quick_assets (currentAssets (assets bs))
          / total (currentLiabilities (liabilities bs))) ∧
   (PrimFloat.eqb (total (currentLiabilities (liabilities bs))) 0 = true →
    calculateQuickRatio bs = None) ∧
   (PrimFloat.eqb (listed_quick_assets (currentAssets (assets bs))) 0 = true →
    currentAssets (assets bs) ≠ [] →
    find is_inventory (currentAssets (assets bs)) = None →
    quick_assets (currentAssets (assets bs))
    = total (currentAssets (assets bs)) * 0.8)).
Proof.
  split; [|split; [|split]].
  - split; [|split].
    + unfold calculateDebtToEquity. intros r.
      destruct (totalLiabilities _) as [l|]; [|discriminate].
      destruct (totalEquity _) as [e|]; [|discriminate].
      intros H. apply ratio_guard in H as (_ & Hd & ->).
      exists l, e. auto.
    + unfold calculateDebtToEquity. now intros ->.
    + unfold calculateDebtToEquity.
      destruct (totalLiabilities _) as [l|]; [|reflexivity].
      destruct (totalEquity _) as [i|]; [|reflexivity].
      apply ratio_guard_zero.
  - split; [|split].
    + unfold calculateROE. intros r.
      destruct (netIncome _) as [n|]; [|discriminate].
      destruct (totalEquity _) as [e|]; [|discriminate].
      intros H. apply ratio_guard in H as (_ & Hd & ->).
      exists n, e. auto.
    + unfold calculateROE. now intros ->.
    + unfold calculateROE.
      destruct (netIncome _) as [n|]; [|reflexivity].
      destruct (totalEquity _) as [i|]; [|reflexivity].
      apply ratio_guard_zero.
  - split.
    + unfold calculateCurrentRatio. intros r H.
      apply ratio_guard in H as (_ & Hd & ->). auto.
    + unfold calculateCurrentRatio. apply ratio_guard_zero.
  - split; [|split].
    + unfold calculateQuickRatio. intros r H.
      apply ratio_guard in H as (_ & Hd & ->). auto.
    + unfold calculateQuickRatio. apply ratio_guard_zero.
    + intros Hz Hne Hinv. unfold quick_assets. rewrite Hz, Hinv.
      destruct (currentAssets (assets bs)); [contradiction|reflexivity].
Qed.

End Ratios.

(** C8, claim as stated, refuted: when the current assets are known by
    their total only, no line isolates the inventory, and yet the quick
    ratio is computed on the whole total (100 / 50), without the 80%
    estimate. *)
Lemma quick_ratio_no_fallback_on_total :
  find FinancialFormParser.is_inventory
    (FinancialFormParser.currentAssets
       (FinancialFormParser.assets RatioScenario.only_total)) = None ∧
  FinancialFormParser.calculateQuickRatio RatioScenario.only_total
    = Some 2%float ∧
  FinancialFormParser.calculateQuickRatio RatioScenario.only_total
    ≠ Some (100 * 0.8 / 50)%float.
Proof. vm_compute. repeat split. discriminate. Qed.

Lemma ratios_witness :
  FinancialFormParser.quick_assets
    (FinancialFormParser.currentAssets
       (FinancialFormParser.assets RatioScenario.only_prepaid))
  = (100 * 0.8)%float
  ∧ FinancialFormParser.calculateDebtToEquity RatioScenario.only_prepaid
    = Some 2%float.
Proof.
  destruct (ratios_guarded RatioScenario.only_prepaid
              (FinancialFormParser.mkIncomeStatement None None None None None []))
    as ((Hde & _) & _ & _ & (_ & _ & Hq)).
  split.
  - apply Hq; [reflexivity | discriminate | reflexivity].
  - destruct (FinancialFormParser.calculateDebtToEquity RatioScenario.only_prepaid)
      as [r|] eqn:E; [|vm_compute in E; discriminate].
    destruct (Hde r eq_refl) as (l & e & Hl & He & _ & ->).
    vm_compute in Hl, He. injection Hl as <-. injection He as <-.
    reflexivity.
Defined.

(* ===================================================================== *)
(** * Further properties of the code *)
(* ===================================================================== *)

(** ** Cache: what every sequence of calls keeps *)

Section CacheBehaviour.
Context {T : Type}.
Implicit Types (c : Cache.t T) (k key : string).

(** X1. On a cache built with a positive maximum size, after any sequence
    of [get], [set], [delete], [has] and [clear] calls the access order
    lists exactly the stored keys, each once, and the number of entries is
    at most the maximum. *)
Theorem cache_invariant_all_calls (o : Cache.CacheOptions) (K : nat)
    (ops : list (Cache.Call T)) :
  (1 ≤ K)%nat → Cache.maxSize o = Some (Z.of_nat K) →
  let c := Cache.run (Cache.new o) ops in
  NoDup (Cache.accessOrder c) ∧
  (∀ k, k ∈ Cache.accessOrder c ↔ is_Some (Cache.cache c !! k)) ∧
  length (Cache.accessOrder c) = size (Cache.cache c) ∧
  (size (Cache.cache c) ≤ K)%nat.
Proof.
  intros HK Ho c.
  assert (Hwf : Cache.wf c).
  { apply cache_run_bounded; [apply cache_wf_new| |]; simpl; rewrite Ho; simpl;
      rewrite ?map_size_empty; destruct (Z.of_nat K =? 0) eqn:E; lia. }
  destruct Hwf as [Hnd Hdom]. repeat split; try assumption; try apply Hdom.
  - symmetry. now apply cache_wf_size.
  - now apply cache_size_invariant.
Qed.

Lemma cache_call_counters c (op : Cache.Call T) :
  (Cache.hits (Cache.call c op) + Cache.misses (Cache.call c op)
   = Cache.hits c + Cache.misses c + (if Cache.is_get op then 1 else 0))%nat.
Proof.
  destruct op as [key now|s|key|key now|]; cbn [Cache.call Cache.is_get].
  - unfold Cache.get. destruct (Cache.cache c !! key) as [e|]; [|simpl; lia].
    destruct (Cache.expired e now); simpl; lia.
  - unfold Cache.set_call, Cache.set.
    destruct (_ && _); simpl; [|lia].
    unfold Cache.evictLRU. destruct (Cache.accessOrder c); simpl; lia.
  - simpl. lia.
  - unfold Cache.has. destruct (Cache.cache c !! key) as [e|]; [|simpl; lia].
    destruct (Cache.expired e now); simpl; lia.
  - simpl. lia.
Qed.

(** X2. Only [get] moves the counters, and each [get] moves exactly one of
    them: after any sequence of calls on a new cache, hits plus misses is
    the number of [get] calls made, and the hit rate reported by [getStats]
    is [0] (not a division by zero) as long as no [get] was made. *)
Theorem cache_counters_count_gets (o : Cache.CacheOptions)
    (ops : list (Cache.Call T)) :
  let c := Cache.run (Cache.new o) ops in
  (Cache.hits c + Cache.misses c)%nat = Cache.gets ops ∧
  Cache.st_size (Cache.getStats c) = size (Cache.cache c) ∧
  Cache.st_hitRate (Cache.getStats c)
  = if (0 <? Cache.gets ops)%nat
    then PrimFloat.div (Cache.number_of (Cache.hits c))
                       (Cache.number_of (Cache.gets ops))
    else PrimFloat.zero.
Proof.
  intros c.
  assert (H : ∀ l c0,
    (Cache.hits (Cache.run c0 l) + Cache.misses (Cache.run c0 l)
     = Cache.hits c0 + Cache.misses c0 + Cache.gets l)%nat).
  { induction l as [|op l IH]; intros c0; [unfold Cache.gets; simpl; lia|].
    change (Cache.run c0 (op :: l)) with (Cache.run (Cache.call c0 op) l).
    rewrite IH, cache_call_counters. unfold Cache.gets. simpl.
    destruct (Cache.is_get op); simpl; lia. }
  specialize (H ops (Cache.new o)). fold c in H. simpl in H.
  split; [exact H|]. split; [reflexivity|].
  unfold Cache.getStats. simpl. now rewrite H.
Qed.

(** X3. [delete] reports whether the key was stored; afterwards the key is
    gone (a [get] misses, [has] is false) and every other entry is as
    before.  Deleting a key that is not stored changes nothing. *)
Theorem cache_delete_removes c key :
  Cache.wf c →
  let c' := fst (Cache.delete c key) in
  snd (Cache.delete c key) = bool_decide (is_Some (Cache.cache c !! key)) ∧
  Cache.wf c' ∧
  Cache.cache c' !! key = None ∧
  (∀ k, k ≠ key → Cache.cache c' !! k = Cache.cache c !! k) ∧
  (∀ now, snd (Cache.get c' key now) = None ∧ snd (Cache.has c' key now) = false) ∧
  (Cache.cache c !! key = None → c' = c).
Proof.
  intros Hwf c'. split; [reflexivity|]. split; [now apply cache_wf_delete|].
  assert (Hnone : Cache.cache c' !! key = None) by apply lookup_delete_eq.
  split; [exact Hnone|]. split; [|split].
  - intros k Hk. simpl. apply lookup_delete_ne. congruence.
  - intros now. unfold Cache.get, Cache.has. now rewrite Hnone.
  - intros Habs. unfold c', Cache.delete. simpl.
    rewrite delete_id by assumption.
    rewrite remove_first_notin.
    + now destruct c.
    + intros Hin. apply Hwf in Hin. rewrite Habs in Hin.
      destruct Hin as [x Hx]. discriminate.
Qed.

(** X4. [set] on a key that is already stored never evicts: the same keys
    are stored afterwards, every other entry is untouched, the size is the
    same even at full capacity, and the key becomes the most recently used
    one. *)
Theorem cache_set_existing_keeps_all c key d ttl t0 now :
  is_Some (Cache.cache c !! key) →
  let c' := Cache.set c key d ttl t0 now in
  (∀ k, k ≠ key → Cache.cache c' !! k = Cache.cache c !! k) ∧
  (∀ k, is_Some (Cache.cache c' !! k) ↔ is_Some (Cache.cache c !! k)) ∧
  size (Cache.cache c') = size (Cache.cache c) ∧
  Cache.accessOrder c' = Js.remove_first key (Cache.accessOrder c) ++ [key].
Proof.
  intros Hk c'.
  assert (Hc : Cache.cache c'
    = <[key := Cache.mkEntry d t0
                 (if Js.or_num ttl (Cache.r_ttl (Cache.options c)) >? 0
                  then Some (now + Js.or_num ttl (Cache.r_ttl (Cache.options c)))
                  else None)]> (Cache.cache c)
    ∧ Cache.accessOrder c' = Js.remove_first key (Cache.accessOrder c) ++ [key]).
  { unfold c', Cache.set. rewrite bool_decide_eq_true_2 by assumption.
    rewrite andb_false_r. simpl. now split. }
  destruct Hc as [Hc Ho]. rewrite Hc. split; [|split; [|split]].
  - intros k Hne. apply lookup_insert_ne. congruence.
  - intros k. destruct (decide (key = k)) as [->|Hne].
    + rewrite lookup_insert_eq. split; [now intros _|eauto].
    + now rewrite lookup_insert_ne.
  - now apply map_size_insert_Some.
  - exact Ho.
Qed.

(** X5. [has] is not an access: on a stored entry that has not expired it
    answers [true] and leaves the cache exactly as it was.  So, unlike
    [get], it does not protect the key: if the key is the least recently
    used one and the cache is full, the next [set] of a new key evicts it. *)
Theorem cache_has_does_not_promote c key rest now key' d ttl t0 t1 e :
  Cache.wf c →
  Cache.accessOrder c = key :: rest →
  Cache.cache c !! key = Some e → Cache.expired e now = false →
  Cache.cache c !! key' = None →
  Cache.r_maxSize (Cache.options c) ≤ Z.of_nat (size (Cache.cache c)) →
  Cache.has c key now = (c, true) ∧
  Cache.cache (Cache.set (fst (Cache.has c key now)) key' d ttl t0 t1) !! key
  = None.
Proof.
  intros Hwf Hord He Hx Hfresh Hfull.
  assert (Hhas : Cache.has c key now = (c, true)).
  { unfold Cache.has. now rewrite He, Hx. }
  split; [exact Hhas|]. rewrite Hhas. cbn [fst].
  destruct (cache_set_fresh_full c key' d ttl t0 t1 key rest Hwf Hfresh Hfull Hord)
    as [_ Hdom].
  apply (not_elem_of_dom (D:=gset string)). rewrite Hdom.
  rewrite elem_of_union, elem_of_singleton, elem_of_difference, elem_of_singleton.
  intros [->|[_ Hn]]; [|now apply Hn].
  rewrite Hfresh in He. discriminate.
Qed.

Lemma cleanup_loop_lookup (now : Z) (l : list (string * Cache.CacheEntry T)) :
  ∀ c n k,
    Cache.cache (fst (fold_left (Cache.cleanup_entry now) l (c, n))) !! k
    = if existsb (λ p, String.eqb (fst p) k && Cache.expired (snd p) now) l
      then None else Cache.cache c !! k.
Proof.
  induction l as [|[k' e] l IH]; intros c n k; [reflexivity|].
  cbn [fold_left existsb]. unfold Cache.cleanup_entry at 2. cbn [fst snd].
  destruct (Cache.expired e now) eqn:He.
  - rewrite IH. destruct (existsb _ l); [now rewrite orb_true_r|].
    rewrite orb_false_r, andb_true_r. simpl.
    destruct (String.eqb_spec k' k) as [->|Hne].
    + apply lookup_delete_eq.
    + now apply lookup_delete_ne.
  - rewrite andb_false_r. simpl. apply IH.
Qed.

Lemma cleanup_loop_frame (now : Z) (l : list (string * Cache.CacheEntry T)) :
  ∀ c n,
    Cache.wf c →
    let r := fold_left (Cache.cleanup_entry now) l (c, n) in
    Cache.wf (fst r) ∧
    Cache.options (fst r) = Cache.options c ∧
    Cache.hits (fst r) = Cache.hits c ∧ Cache.misses (fst r) = Cache.misses c ∧
    snd r = (n + length (List.filter (λ p, Cache.expired (snd p) now) l))%nat.
Proof.
  induction l as [|[k' e] l IH]; intros c n Hwf; cbn [fold_left].
  - simpl. repeat split; try assumption; try apply Hwf. apply plus_n_O.
  - assert (Hstep : Cache.cleanup_entry now (c, n) (k', e)
                    = if Cache.expired e now
                      then (fst (Cache.delete c k'), S n) else (c, n))
      by reflexivity.
    cbv zeta. rewrite Hstep. cbn [List.filter snd].
    destruct (Cache.expired e now) eqn:He.
    + destruct (IH (fst (Cache.delete c k')) (S n)) as (H1 & H2 & H3 & H4 & H5);
        [now apply cache_wf_delete|].
      cbv zeta in *.
      split; [exact H1|]. split; [rewrite H2; reflexivity|].
      split; [rewrite H3; reflexivity|]. split; [rewrite H4; reflexivity|].
      rewrite H5. simpl. lia.
    + now apply IH.
Qed.

(** X6. [cleanup] removes exactly the entries that have expired at its clock
    reading and returns how many they were; the entries that have not
    expired, the counters and the representation invariant are kept, so a
    [get] right after it finds every remaining key. *)
Theorem cache_cleanup_removes_expired c now :
  Cache.wf c →
  let c' := fst (Cache.cleanup c now) in
  Cache.wf c' ∧
  (∀ k, Cache.cache c' !! k
        = match Cache.cache c !! k with
          | Some e => if Cache.expired e now then None else Some e
          | None => None
          end) ∧
  snd (Cache.cleanup c now)
  = length (List.filter (λ p, Cache.expired (snd p) now)
              (map_to_list (Cache.cache c))) ∧
  (∀ k e, Cache.cache c' !! k = Some e →
          snd (Cache.get c' k now) = Some (Cache.data e)) ∧
  Cache.hits c' = Cache.hits c ∧ Cache.misses c' = Cache.misses c.
Proof.
  intros Hwf c'.
  destruct (cleanup_loop_frame now (map_to_list (Cache.cache c)) c 0%nat Hwf)
    as (H1 & _ & H3 & H4 & H5).
  fold (Cache.cleanup c now) in H1, H3, H4, H5. fold c' in H1, H3, H4.
  assert (Hlook : ∀ k, Cache.cache c' !! k
        = match Cache.cache c !! k with
          | Some e => if Cache.expired e now then None else Some e
          | None => None
          end).
  { intros k. unfold c', Cache.cleanup. rewrite cleanup_loop_lookup.
    destruct (Cache.cache c !! k) as [e|] eqn:Hk.
    - destruct (Cache.expired e now) eqn:He.
      + replace (existsb _ _) with true; [reflexivity|].
        symmetry. apply existsb_exists. exists (k, e). split.
        * apply list_elem_of_In, elem_of_map_to_list, Hk.
        * simpl. now rewrite String.eqb_refl, He.
      + replace (existsb _ _) with false; [reflexivity|].
        symmetry. apply not_true_is_false. intros Hex.
        apply existsb_exists in Hex as ([k2 e2] & Hin & Hp).
        apply list_elem_of_In, elem_of_map_to_list in Hin.
        simpl in Hp. apply andb_true_iff in Hp as [Hk2 He2].
        apply String.eqb_eq in Hk2. subst k2. congruence.
    - replace (existsb _ _) with false; [reflexivity|].
      symmetry. apply not_true_is_false. intros Hex.
      apply existsb_exists in Hex as ([k2 e2] & Hin & Hp).
      apply list_elem_of_In, elem_of_map_to_list in Hin.
      simpl in Hp. apply andb_true_iff in Hp as [Hk2 _].
      apply String.eqb_eq in Hk2. subst k2. congruence. }
  split; [exact H1|]. split; [exact Hlook|]. split; [rewrite H5; reflexivity|].
  split; [|now split].
  intros k e Hk. apply cache_get_live; [exact Hk|].
  rewrite Hlook in Hk. destruct (Cache.cache c !! k) as [e0|]; [|discriminate].
  destruct (Cache.expired e0 now) eqn:He0; [discriminate|]. congruence.
Qed.

End CacheBehaviour.

Lemma cache_invariant_all_calls_witness :
  let c := Cache.run (Cache.new CacheScenario.options)
             (map Cache.CallSet CacheScenario.three
              ++ [Cache.CallGet "key1" 10;
                  Cache.CallSet (CacheScenario.call "key4" "value4");
                  Cache.CallHas "key2" 20; Cache.CallDelete "key3"]) in
  NoDup (Cache.accessOrder c) ∧
  (∀ k, k ∈ Cache.accessOrder c ↔ is_Some (Cache.cache c !! k)) ∧
  length (Cache.accessOrder c) = size (Cache.cache c) ∧
  (size (Cache.cache c) ≤ 3)%nat.
Proof.
  apply (cache_invariant_all_calls CacheScenario.options 3%nat); [lia|reflexivity].
Defined.

Lemma cache_delete_removes_witness :
  let c := Cache.set_all (Cache.new CacheScenario.options) CacheScenario.three in
  snd (Cache.delete c "key2") = true ∧
  Cache.cache (fst (Cache.delete c "key2")) !! "key2" = None ∧
  snd (Cache.get (fst (Cache.delete c "key2")) "key2" 10) = None.
Proof.
  intros c.
  destruct (cache_delete_removes c "key2") as (H1 & _ & H3 & _ & H5 & _).
  - repeat apply cache_wf_set. apply cache_wf_new.
  - split; [rewrite H1; vm_compute; reflexivity|].
    split; [exact H3 | exact (proj1 (H5 10))].
Defined.

Lemma cache_set_existing_keeps_all_witness :
  let c := Cache.set_all (Cache.new CacheScenario.options) CacheScenario.three in
  let c' := Cache.set c "key1" "again" None 5 5 in
  size (Cache.cache c') = 3%nat ∧
  Cache.accessOrder c' = ["key2"; "key3"; "key1"] ∧
  Cache.cache c' !! "key2" = Cache.cache c !! "key2".
Proof.
  intros c c'.
  destruct (cache_set_existing_keeps_all c "key1" "again" None 5 5)
    as (H1 & _ & H3 & H4).
  - vm_compute. eauto.
  - fold c' in H1, H3, H4. split; [rewrite H3; vm_compute; reflexivity|].
    split; [rewrite H4; vm_compute; reflexivity|].
    apply H1. discriminate.
Defined.

Lemma cache_has_does_not_promote_witness :
  let c := Cache.set_all (Cache.new CacheScenario.options) CacheScenario.three in
  Cache.has c "key1" 10 = (c, true) ∧
  Cache.cache (Cache.set (fst (Cache.has c "key1" 10)) "key4" "value4" None 20 20)
    !! "key1" = None.
Proof.
  intros c.
  apply (cache_has_does_not_promote c "key1" ["key2"; "key3"] 10 "key4" "value4"
           None 20 20 (Cache.mkEntry "value1" 0 (Some 1000))).
  - repeat apply cache_wf_set. apply cache_wf_new.
  - vm_compute. reflexivity.
  - vm_compute. reflexivity.
  - vm_compute. reflexivity.
  - vm_compute. reflexivity.
  - vm_compute. discriminate.
Defined.

Lemma cache_cleanup_removes_expired_witness :
  let c := Cache.set (Cache.set (Cache.new CacheScenario.options)
                        "short" "a" (Some 1000) 0 0)
             "long" "b" (Some 5000) 0 0 in
  Cache.cache (fst (Cache.cleanup c 2000)) !! "short" = None ∧
  snd (Cache.get (fst (Cache.cleanup c 2000)) "long" 2000) = Some "b" ∧
  snd (Cache.cleanup c 2000) = 1%nat.
Proof.
  intros c.
  destruct (cache_cleanup_removes_expired c 2000) as (_ & H2 & H3 & H4 & _).
  - repeat apply cache_wf_set. apply cache_wf_new.
  - split; [rewrite H2; vm_compute; reflexivity|].
    split; [|rewrite H3; vm_compute; reflexivity].
    apply (H4 "long" (Cache.mkEntry "b" 0 (Some 5000))).
    rewrite H2. vm_compute. reflexivity.
Defined.

(** ** HTTP client: pacing, recovery and the response cache *)

Section HttpBehaviour.
Import Exceptions HttpClient.

Lemma enforceRateLimit_clock (c : HttpClient.t) (w : World) :
  clock (snd (enforceRateLimit c w))
  = Z.max (clock w) (lastRequestTime c + rateLimitDelay c) ∧
  lastRequestTime (fst (enforceRateLimit c w)) = clock (snd (enforceRateLimit c w)) ∧
  rateLimitDelay (fst (enforceRateLimit c w)) = rateLimitDelay c.
Proof.
  unfold enforceRateLimit. cbn [fst snd lastRequestTime rateLimitDelay].
  destruct (Z.ltb_spec (clock w - lastRequestTime c) (rateLimitDelay c));
    cbn [sleep clock]; repeat split; lia.
Qed.

Lemma try_attempt_dispatch (net : Network) (c : HttpClient.t) (w : World)
    (url : string) :
  lastRequestTime (snd (fst (try_attempt net c w url)))
  = Z.max (clock w) (lastRequestTime c + rateLimitDelay c) ∧
  rateLimitDelay (snd (fst (try_attempt net c w url))) = rateLimitDelay c ∧
  clock (snd (try_attempt net c w url))
  = Z.max (clock w) (lastRequestTime c + rateLimitDelay c) + latency net (sent w).
Proof.
  unfold try_attempt.
  destruct (enforceRateLimit_clock c w) as (Hc & Hl & Hd).
  destruct (enforceRateLimit_frame c w) as (_ & _ & _ & Hs).
  destruct (enforceRateLimit c w) as [c1 w1]. cbn [fst snd] in *.
  unfold fetch. rewrite Hs, <- Hc, <- Hl.
  destruct (outcome net (sent w) url) as [status statusText body|e];
    [|now repeat split].
  destruct (negb (ok status)); [now repeat split|].
  destruct body as [e|data]; [now repeat split|].
  destruct (cache c1); now repeat split.
Qed.

(** X7. Calls that do not overlap are paced: an attempt is dispatched at
    the later of the current time and the previous dispatch plus
    [rateLimitDelay], without any pause when that much time has already
    passed, so an attempt started after the one before it was dispatched
    follows it by at least [rateLimitDelay].  Calls that overlap are not
    paced: the limiter reads [lastRequestTime] before its pause and
    writes it after, so a call that reaches it while another one is
    pausing reads the same value, and both resume and send their requests
    at the same instant. *)
Theorem http_requests_spaced (net net' : Network) (c : HttpClient.t)
    (w w' : World) (url url' : string) :
  let c1 := snd (fst (try_attempt net c w url)) in
  let c2 := snd (fst (try_attempt net' c1 w' url')) in
  lastRequestTime c1 = Z.max (clock w) (lastRequestTime c + rateLimitDelay c) ∧
  rateLimitDelay c ≤ lastRequestTime c2 - lastRequestTime c1 ∧
  (rateLimitDelay c ≤ clock w - lastRequestTime c →
   snd (enforceRateLimit c w) = w) ∧
  enforceRateLimit c w
  = (let w1 := match rateLimit_pause c (clock w) with
               | Some ms => sleep w ms
               | None => w
               end in
     (rateLimit_stamp c (clock w1), w1)) ∧
  (∀ tA tB ms,
     rateLimit_pause c tA = Some ms → tA ≤ tB → tB < tA + ms →
     let '(dA, dB, c') := overlapped c tA tB in
     dA = lastRequestTime c + rateLimitDelay c ∧ dB = dA ∧
     lastRequestTime c' = dA ∧ dB - dA < ms).
Proof.
  intros c1 c2.
  destruct (try_attempt_dispatch net c w url) as (H1 & Hd & _).
  destruct (try_attempt_dispatch net' c1 w' url') as (H2 & _ & _).
  fold c1 in H1, Hd. fold c2 in H2.
  split; [exact H1|]. split; [lia|]. split; [|split].
  - intros Hle. unfold enforceRateLimit. cbn [snd].
    now replace (clock w - lastRequestTime c <? rateLimitDelay c) with false
      by (symmetry; lia).
  - unfold enforceRateLimit, rateLimit_pause, rateLimit_stamp. cbv zeta.
    now destruct (clock w - lastRequestTime c <? rateLimitDelay c).
  - intros tA tB ms HA Hle Hlt. unfold overlapped. cbv zeta.
    unfold rateLimit_pause in HA |- *. cbv zeta in HA |- *.
    destruct (Z.ltb_spec (tA - lastRequestTime c) (rateLimitDelay c)) as [HpA|];
      [|discriminate].
    injection HA as <-.
    destruct (Z.ltb_spec (tB - lastRequestTime c) (rateLimitDelay c)) as [HpB|HpB];
      [|lia].
    cbn [default from_option id rateLimit_stamp lastRequestTime].
    repeat split; lia.
Qed.

Variable net : Network.
Variable url : string.

Lemma try_attempt_failure_cache (c c1 : HttpClient.t) (w w1 : World) (e : JsError) :
  try_attempt net c w url = (inl e, c1, w1) → cache c1 = cache c.
Proof.
  unfold try_attempt.
  destruct (enforceRateLimit_frame c w) as (_ & _ & Hc & _).
  destruct (enforceRateLimit c w) as [c0 w0]. cbn [fst] in Hc.
  destruct (fetch net w0 url) as [o w2].
  destruct o as [status statusText body|e'].
  - destruct (negb (ok status)); [now intros [= _ <- _]|].
    destruct body as [e'|data]; [now intros [= _ <- _]|discriminate].
  - now intros [= _ <- _].
Qed.

Lemma try_attempt_success (c : HttpClient.t) (w : World) (status : Z)
    (statusText : string) (data : Json.t) :
  outcome net (sent w) url = Response status statusText (inr data) →
  ok status = true →
  ∃ c1 w1, try_attempt net c w url = (inr data, c1, w1) ∧
    sent w1 = S (sent w) ∧
    cache c1 = (λ rc, RequestCache.set rc url data (clock w1) (clock w1)) <$> cache c.
Proof.
  intros Ho Hok. unfold try_attempt.
  destruct (enforceRateLimit_frame c w) as (_ & _ & Hc & Hs).
  destruct (enforceRateLimit c w) as [c0 w0]. cbn [fst snd] in Hc, Hs.
  unfold fetch. rewrite Hs, Ho, Hok. cbn [negb].
  eexists _, _. split; [reflexivity|]. split; [reflexivity|].
  rewrite <- Hc. destruct (cache c0) eqn:E; [reflexivity | exact E].
Qed.

(** Success met after [k] transient failures. *)
Lemma attempts_recover (k : nat) (status : Z) (statusText : string)
    (data : Json.t) : ∀ budget attempt lastError c w,
  (k < budget)%nat →
  attempt + Z.of_nat k ≤ maxRetries c →
  (∀ i, (i < k)%nat → transient (outcome net (sent w + i) url) = true) →
  outcome net (sent w + k) url = Response status statusText (inr data) →
  ok status = true →
  ∃ c' w',
    attempts net url budget attempt lastError c w = (inr data, c', w') ∧
    sent w' = (sent w + k + 1)%nat ∧
    cache c' = (λ rc, RequestCache.set rc url data (clock w') (clock w')) <$> cache c.
Proof.
  induction k as [|k IH]; intros budget attempt lastError c w Hk Hle Htr Ho Hok.
  - destruct budget as [|b]; [lia|].
    rewrite Nat.add_0_r in *.
    destruct (try_attempt_success c w status statusText data Ho Hok)
      as (c1 & w1 & Htry & Hs & Hc).
    exists c1, w1. split; [|split; [lia|exact Hc]].
    cbn [attempts].
    replace (attempt <=? maxRetries c) with true by (symmetry; lia).
    simpl. now rewrite Htry.
  - destruct budget as [|b]; [lia|].
    destruct (transient_thrown c _ (Htr 0%nat (Nat.lt_0_succ _))) as (e & He & Hcl).
    rewrite Nat.add_0_r in He.
    destruct (try_attempt_thrown net url c w e He) as (c1 & w1 & Htry & Hm & Ht & Hs).
    rewrite (attempts_retry net url b attempt lastError c c1 w w1 e);
      [|lia|assumption|now rewrite (classify_timeout c c1 e Ht)|lia].
    destruct (IH b (attempt + 1) (Some (fst (classify c1 e))) c1
                (sleep w1 (backoffTime attempt)))
      as (c' & w' & Hrun & Hsent & Hc).
    + lia.
    + lia.
    + intros i Hi. simpl. rewrite Hs.
      replace (S (sent w) + i)%nat with (sent w + S i)%nat by lia.
      apply Htr. lia.
    + simpl. rewrite Hs.
      replace (S (sent w) + k)%nat with (sent w + S k)%nat by lia. exact Ho.
    + assumption.
    + exists c', w'. simpl in Hsent. rewrite Hs in Hsent.
      rewrite (try_attempt_failure_cache c c1 w w1 e Htry) in Hc.
      split; [assumption|]. split; [lia|assumption].
Qed.

Lemma cache_lookup_cache (c : HttpClient.t) (w : World) (skipCache : bool) :
  match cache c with
  | Some rc => ∃ rc', cache (fst (cache_lookup c w url skipCache)) = Some rc' ∧
                      Cache.options rc' = Cache.options rc
  | None => cache (fst (cache_lookup c w url skipCache)) = None
  end.
Proof.
  unfold cache_lookup. destruct (cache c) as [rc|] eqn:Hc; [|exact Hc].
  destruct (negb skipCache); [|eauto].
  unfold RequestCache.get.
  pose proof (cache_call_options rc
    (Cache.CallGet (CacheKey.generateRequestKey url Json.JUndefined) (clock w)))
    as Ho.
  cbn [Cache.call] in Ho.
  destruct (Cache.get rc _ (clock w)) as [rc' d]. cbn [fst cache]. eauto.
Qed.

(** X8. A success that follows [k] failures of the retried kinds, [k]
    within the retry budget, is the result of [get]: the parsed body is
    returned after exactly [k + 1] requests, and a client with a cache
    stores it under the URL, stamped with the time of arrival. *)
Theorem http_get_recovers (c : HttpClient.t) (w : World) (skipCache : bool)
    (k : nat) (status : Z) (statusText : string) (data : Json.t) :
  0 ≤ maxRetries c →
  snd (cache_lookup c w url skipCache) = None →
  (k ≤ Z.to_nat (maxRetries c))%nat →
  (∀ i, (i < k)%nat → transient (outcome net (sent w + i) url) = true) →
  outcome net (sent w + k) url = Response status statusText (inr data) →
  ok status = true →
  ∃ c' w',
    get net c w url skipCache = (inr data, c', w') ∧
    requests w' = (sent w + k + 1)%nat ∧
    match cache c with
    | Some rc =>
        ∃ rc', cache c'
               = Some (RequestCache.set rc' url data (clock w') (clock w')) ∧
               Cache.options rc' = Cache.options rc
    | None => cache c' = None
    end.
Proof.
  intros Hmax Hmiss Hk Htr Ho Hok.
  destruct (cache_lookup_maxRetries c w url skipCache) as [Hm _].
  pose proof (cache_lookup_cache c w skipCache) as Hcache.
  unfold get. destruct (cache_lookup c w url skipCache) as [c1 cached].
  cbn [fst snd] in Hmiss, Hm, Hcache. subst cached.
  destruct (attempts_recover k status statusText data
              (Z.to_nat (maxRetries c1 + 1)) 0 None c1 w)
    as (c' & w' & Hrun & Hsent & Hc); [lia|lia|assumption..|].
  exists c', w'. split; [exact Hrun|]. split; [exact Hsent|].
  rewrite Hc. destruct (cache c) as [rc|].
  - destruct Hcache as (rc' & -> & Hopt). exists rc'. now split.
  - now rewrite Hcache.
Qed.

(** X9. A body stored by the client is served from the cache up to and
    including the instant [now + ttl] of its expiry, whatever the service
    would answer: [get] returns it without sending a request and without
    pausing.  One millisecond later the lookup misses. *)
Theorem http_get_served_from_cache (c : HttpClient.t) (rc : RequestCache.t)
    (w : World) (data : Json.t) (t0 now : Z) :
  cache c = Some (RequestCache.set rc url data t0 now) →
  data ≠ Json.JNull →
  0 < Cache.r_ttl (Cache.options rc) → 0 ≤ now →
  (clock w ≤ now + Cache.r_ttl (Cache.options rc) →
   fst (fst (get net c w url false)) = inr data ∧
   snd (get net c w url false) = w) ∧
  (now + Cache.r_ttl (Cache.options rc) < clock w →
   snd (cache_lookup c w url false) = None).
Proof.
  intros Hc Hnn Httl Hnow.
  set (key := CacheKey.generateRequestKey url Json.JUndefined).
  set (e := Cache.mkEntry data t0 (Some (now + Cache.r_ttl (Cache.options rc)))).
  assert (He : Cache.cache (RequestCache.set rc url data t0 now) !! key = Some e).
  { unfold RequestCache.set. fold key. rewrite cache_set_lookup.
    unfold Js.or_num. now replace (Cache.r_ttl (Cache.options rc) >? 0) with true
      by (symmetry; lia). }
  split; intros Ht.
  - assert (Hget : snd (Cache.get (RequestCache.set rc url data t0 now) key (clock w))
                 = Some data).
    { apply (cache_get_live _ key (clock w) e He).
      unfold Cache.expired, e. cbn [Cache.expiry].
      apply andb_false_iff. right. lia. }
    unfold get, cache_lookup. rewrite Hc. cbn [negb].
    unfold RequestCache.get. fold key.
    destruct (Cache.get _ key (clock w)) as [rc' d]. cbn [snd] in Hget. subst d.
    cbn [RequestCache.not_null]. destruct data; now split.
  - destruct (cache_get_expired (RequestCache.set rc url data t0 now) key
                (clock w) e He) as [Hmiss _].
    { unfold Cache.expired, e. cbn [Cache.expiry].
      apply andb_true_iff. split; [apply negb_true_iff|]; lia. }
    unfold cache_lookup. rewrite Hc. cbn [negb].
    unfold RequestCache.get. fold key.
    destruct (Cache.get _ key (clock w)) as [rc' d]. cbn [snd] in Hmiss. now subst d.
Qed.

(** X10. A JSON [null] body is stored like any other, but the lookup that
    opens [get] takes the stored [null] for a miss: at every later time the
    client goes to the service again, while the cache below counts the
    lookup as a hit as long as the entry has not expired. *)
Theorem http_null_body_never_served (c : HttpClient.t) (rc : RequestCache.t)
    (w : World) (t0 now : Z) :
  cache c = Some (RequestCache.set rc url Json.JNull t0 now) →
  snd (cache_lookup c w url false) = None ∧
  (clock w ≤ now + Cache.r_ttl (Cache.options rc) →
   ∃ rc', cache (fst (cache_lookup c w url false)) = Some rc' ∧
          Cache.hits rc' = S (Cache.hits rc)).
Proof.
  intros Hc.
  set (key := CacheKey.generateRequestKey url Json.JUndefined).
  unfold cache_lookup. rewrite Hc. cbn [negb].
  unfold RequestCache.get, RequestCache.set. fold key.
  pose proof (cache_set_lookup rc key Json.JNull None t0 now) as He.
  assert (Hh : Cache.hits (Cache.set rc key Json.JNull None t0 now) = Cache.hits rc).
  { unfold Cache.set. cbn [Cache.hits Cache.updateAccessOrder
      Cache.removeFromAccessOrder].
    destruct (_ && _); [|reflexivity].
    unfold Cache.evictLRU. now destruct (Cache.accessOrder rc). }
  unfold Cache.get. rewrite He.
  match goal with |- context [Cache.expired ?e ?t] =>
    destruct (Cache.expired e t) eqn:Hx end.
  - split; [reflexivity|]. intros Ht. exfalso.
    unfold Cache.expired in Hx. cbn [Cache.expiry] in Hx.
    unfold Js.or_num in Hx.
    destruct (Cache.r_ttl (Cache.options rc) >? 0); [|discriminate].
    apply andb_true_iff in Hx as [_ Hx]. lia.
  - split; [reflexivity|]. intros _. eexists. split; [reflexivity|].
    cbn [Cache.hits Cache.updateAccessOrder Cache.removeFromAccessOrder].
    now rewrite Hh.
Qed.

(** X11. [invalidateCache(urlPattern)] does not look at its pattern: like
    [clearCache] it empties the whole response cache, so afterwards the
    lookup of every URL misses, also of URLs the pattern does not cover. *)
Theorem http_invalidateCache_clears_all (c : HttpClient.t) (urlPattern : string)
    (w : World) :
  invalidateCache c urlPattern = clearCache c ∧
  snd (cache_lookup (invalidateCache c urlPattern) w url false) = None ∧
  (∀ rc, cache (invalidateCache c urlPattern) = Some rc → Cache.cache rc = ∅).
Proof.
  split; [reflexivity|]. unfold invalidateCache.
  destruct (cache c) as [rc0|] eqn:Hc.
  - split.
    + unfold cache_lookup. cbn [cache with_cache negb].
      unfold RequestCache.get, Cache.get, RequestCache.invalidateUrl, Cache.clear.
      cbn [Cache.cache]. now rewrite lookup_empty.
    + intros rc [= <-]. reflexivity.
  - split; [|intros rc Habs; congruence].
    unfold cache_lookup. now rewrite Hc.
Qed.

(** X12. With a negative [maxRetries] (the constructor only replaces [0]
    and [undefined] by the default) the loop body never runs: [get] sends
    no request and fails with the generic [SecEdgarApiError] of message
    [Max retries exceeded]. *)
Theorem http_get_negative_retries (c : HttpClient.t) (w : World)
    (skipCache : bool) :
  maxRetries c < 0 →
  snd (cache_lookup c w url skipCache) = None →
  fst (fst (get net c w url skipCache))
  = inl (new_SecEdgarApiError "Max retries exceeded") ∧
  snd (get net c w url skipCache) = w.
Proof.
  intros Hneg Hmiss.
  destruct (cache_lookup_maxRetries c w url skipCache) as [Hm _].
  unfold get. destruct (cache_lookup c w url skipCache) as [c1 cached].
  cbn [fst snd] in Hmiss, Hm. subst cached.
  replace (Z.to_nat (maxRetries c1 + 1)) with 0%nat by lia.
  now split.
Qed.





End HttpBehaviour.

Lemma http_requests_spaced_witness :
  snd (HttpClient.enforceRateLimit HttpScenario.client HttpScenario.start)
  = HttpScenario.start
  ∧
  (let c := HttpClient.rateLimit_stamp HttpScenario.client 1700000000000 in
   let '(dA, dB, c') :=
     HttpClient.overlapped c 1700000000010 1700000000020 in
   dA = HttpClient.lastRequestTime c + HttpClient.rateLimitDelay c ∧ dB = dA ∧
   HttpClient.lastRequestTime c' = dA ∧ dB - dA < 90).
Proof.
  split.
  - destruct (http_requests_spaced (HttpScenario.always 200 "OK")
                (HttpScenario.always 200 "OK") HttpScenario.client
                HttpScenario.start (HttpClient.mkWorld 1700000000020 1 [])
                HttpScenario.data_url HttpScenario.data_url)
      as (_ & _ & H3 & _).
    apply H3. vm_compute. discriminate.
  - destruct (http_requests_spaced (HttpScenario.always 200 "OK")
                (HttpScenario.always 200 "OK")
                (HttpClient.rateLimit_stamp HttpScenario.client 1700000000000)
                HttpScenario.start (HttpClient.mkWorld 1700000000020 1 [])
                HttpScenario.data_url HttpScenario.data_url)
      as (_ & _ & _ & _ & H5).
    apply (H5 1700000000010 1700000000020 90); [reflexivity|lia|lia].
Defined.

Lemma http_get_recovers_witness :
  ∃ c' w',
    HttpClient.get (HttpCacheScenario.flaky 2 HttpCacheScenario.tickers)
      HttpCacheScenario.client HttpScenario.start HttpScenario.data_url false
    = (inr HttpCacheScenario.tickers, c', w') ∧
    HttpClient.requests w' = 3%nat.
Proof.
  destruct (http_get_recovers (HttpCacheScenario.flaky 2 HttpCacheScenario.tickers)
              HttpScenario.data_url HttpCacheScenario.client HttpScenario.start
              false 2 200 "OK" HttpCacheScenario.tickers)
    as (c' & w' & Hrun & Hreq & _).
  - vm_compute. discriminate.
  - vm_compute. reflexivity.
  - vm_compute. lia.
  - intros i Hi. destruct i as [|[|i]]; [reflexivity|reflexivity|lia].
  - reflexivity.
  - reflexivity.
  - exists c', w'. split; [exact Hrun | exact Hreq].
Defined.

Lemma http_get_served_from_cache_witness :
  fst (fst (HttpClient.get (HttpScenario.always 503 "Service Unavailable")
              HttpCacheScenario.warm (HttpCacheScenario.at_time 301000)
              HttpScenario.data_url false))
  = inr HttpCacheScenario.tickers
  ∧ snd (HttpClient.cache_lookup HttpCacheScenario.warm
           (HttpCacheScenario.at_time 301001) HttpScenario.data_url false)
    = None.
Proof.
  split.
  - destruct (http_get_served_from_cache
                (HttpScenario.always 503 "Service Unavailable")
                HttpScenario.data_url HttpCacheScenario.warm
                (RequestCache.new (Cache.mkOptions (Some 300000) (Some 500) None))
                (HttpCacheScenario.at_time 301000) HttpCacheScenario.tickers
                1000 1000) as [H _];
      [reflexivity|discriminate|vm_compute; reflexivity|lia|].
    apply H. vm_compute. discriminate.
  - destruct (http_get_served_from_cache
                (HttpScenario.always 503 "Service Unavailable")
                HttpScenario.data_url HttpCacheScenario.warm
                (RequestCache.new (Cache.mkOptions (Some 300000) (Some 500) None))
                (HttpCacheScenario.at_time 301001) HttpCacheScenario.tickers
                1000 1000) as [_ H];
      [reflexivity|discriminate|vm_compute; reflexivity|lia|].
    apply H. vm_compute. reflexivity.
Defined.

Lemma http_null_body_never_served_witness :
  snd (HttpClient.cache_lookup HttpCacheScenario.warm_null
         (HttpCacheScenario.at_time 2000) HttpScenario.data_url false) = None
  ∧ ∃ rc', HttpClient.cache
             (fst (HttpClient.cache_lookup HttpCacheScenario.warm_null
                     (HttpCacheScenario.at_time 2000) HttpScenario.data_url false))
           = Some rc' ∧ Cache.hits rc' = 1%nat.
Proof.
  destruct (http_null_body_never_served HttpScenario.data_url
              HttpCacheScenario.warm_null
              (RequestCache.new (Cache.mkOptions (Some 300000) (Some 500) None))
              (HttpCacheScenario.at_time 2000) 1000 1000) as [H1 H2];
    [reflexivity|].
  split; [exact H1|]. apply H2. vm_compute. discriminate.
Defined.

Lemma http_invalidateCache_clears_all_witness :
  snd (HttpClient.cache_lookup
         (HttpClient.invalidateCache HttpCacheScenario.warm "/api/xbrl/")
         (HttpCacheScenario.at_time 2000) HttpScenario.data_url false) = None
  ∧ ∃ rc, HttpClient.cache
            (HttpClient.invalidateCache HttpCacheScenario.warm "/api/xbrl/")
          = Some rc ∧ Cache.cache rc = ∅.
Proof.
  destruct (http_invalidateCache_clears_all HttpScenario.data_url
              HttpCacheScenario.warm "/api/xbrl/" (HttpCacheScenario.at_time 2000))
    as (_ & H2 & H3).
  split; [exact H2|]. eexists. split; [reflexivity|]. now apply H3.
Defined.

Lemma http_get_negative_retries_witness :
  fst (fst (HttpClient.get (HttpScenario.always 200 "OK")
              (HttpClient.new "Test/1.0 (test@example.com)"
                 (HttpClient.mkOptions None (Some (-1)) None HttpClient.CacheOff))
              HttpScenario.start HttpScenario.data_url false))
  = inl (Exceptions.new_SecEdgarApiError "Max retries exceeded").
Proof.
  apply (http_get_negative_retries (HttpScenario.always 200 "OK")
           HttpScenario.data_url); [vm_compute; reflexivity | reflexivity].
Defined.


(** ** Error handling: [ErrorHandler] against the retry loop *)

Section RetryAdvice.
Import Exceptions HttpClient.

(** X14. [ErrorHandler.getRetryDelay] is capped and never decreases with the
    attempt number: at most 60 s for a [RateLimitError] (reached from
    attempt 4 on) and at most 30 s for any other error (reached from
    attempt 5 on), and at least one second.  The pause the client's loop
    takes is not capped.  For an error that is no [RateLimitError] it
    equals the handler's delay up to attempt 4 and is longer from attempt
    5 on; for a [RateLimitError] it is shorter than the handler's delay up
    to attempt 5 and longer from attempt 6 on. *)
Theorem getRetryDelay_capped_monotone (e : JsError) (attempt attempt' : Z) :
  0 ≤ attempt → attempt ≤ attempt' →
  1000 ≤ getRetryDelay e attempt ∧
  getRetryDelay e attempt ≤ getRetryDelay e attempt' ∧
  getRetryDelay e attempt
  ≤ (if instanceof e RateLimitError then 60000 else 30000) ∧
  (4 ≤ attempt → instanceof e RateLimitError = true →
   getRetryDelay e attempt = 60000) ∧
  (5 ≤ attempt → instanceof e RateLimitError = false →
   getRetryDelay e attempt = 30000 ∧ getRetryDelay e attempt < backoffTime attempt) ∧
  (attempt ≤ 4 → instanceof e RateLimitError = false →
   getRetryDelay e attempt = backoffTime attempt) ∧
  (attempt ≤ 5 → instanceof e RateLimitError = true →
   backoffTime attempt < getRetryDelay e attempt) ∧
  (6 ≤ attempt → getRetryDelay e attempt < backoffTime attempt).
Proof.
  intros H0 Hle.
  assert (H1 : 1 ≤ 2 ^ attempt) by (pose proof (Z.pow_pos_nonneg 2 attempt); lia).
  assert (Hm : 2 ^ attempt ≤ 2 ^ attempt') by (apply Z.pow_le_mono_r; lia).
  assert (H4 : 4 ≤ attempt → 16 ≤ 2 ^ attempt).
  { intros H. change 16 with (2 ^ 4). apply Z.pow_le_mono_r; lia. }
  assert (H5 : 5 ≤ attempt → 32 ≤ 2 ^ attempt).
  { intros H. change 32 with (2 ^ 5). apply Z.pow_le_mono_r; lia. }
  assert (H6 : 6 ≤ attempt → 64 ≤ 2 ^ attempt).
  { intros H. change 64 with (2 ^ 6). apply Z.pow_le_mono_r; lia. }
  assert (L4 : attempt ≤ 4 → 2 ^ attempt ≤ 16).
  { intros H. change 16 with (2 ^ 4). apply Z.pow_le_mono_r; lia. }
  assert (L5 : attempt ≤ 5 → 2 ^ attempt ≤ 32).
  { intros H. change 32 with (2 ^ 5). apply Z.pow_le_mono_r; lia. }
  unfold getRetryDelay, backoffTime.
  destruct (instanceof e RateLimitError).
  - repeat split; try lia; discriminate.
  - repeat split; try lia; discriminate.
Qed.

(** X15. For the error of a response, [ErrorHandler.isRetryable] holds
    exactly at the statuses 429, 408 and 500 or more.  The client's loop
    retries every such error except the one of status 408, which it throws
    at the first occurrence (the message carrying no transport marker). *)
Theorem isRetryable_against_loop (c : HttpClient.t) (status : Z)
    (statusText : string) :
  let e := handleHttpError status statusText in
  isRetryable e = (status =? 429) || (status =? 408) || (500 <=? status) ∧
  (is_network_message (message e) = false →
   (isRetryable e = true → status ≠ 408 → snd (classify c e) = false) ∧
   (status = 408 → isRetryable e = true ∧ classify c e = (e, true))).
Proof.
  intros e.
  assert (Hr : isRetryable e
             = (status =? 429) || (status =? 408) || (500 <=? status)).
  { unfold e, handleHttpError.
    destruct (Z.eqb_spec status 401) as [->|H401]; [reflexivity|].
    destruct (Z.eqb_spec status 404) as [->|H404]; [reflexivity|].
    destruct (Z.eqb_spec status 429) as [->|H429]; [reflexivity|].
    unfold isRetryable. cbn.
    destruct (Z.eqb_spec status 0) as [->|H0]; [reflexivity|].
    cbn. rewrite Z.geb_leb.
    now destruct (status =? 408), (500 <=? status). }
  split; [exact Hr|]. intros Hmsg.
  pose proof (classify_http_error c status statusText) as Hc. fold e in Hc.
  cbv zeta in Hc. rewrite Hmsg in Hc. rewrite Hc, Hr. cbn [snd]. split.
  - intros Hret Hne.
    apply orb_true_iff in Hret as [Hret|Hret];
      [apply orb_true_iff in Hret as [Hret|Hret]|].
    + apply Z.eqb_eq in Hret. now subst status.
    + apply Z.eqb_eq in Hret. contradiction.
    + rewrite !andb_false_iff. left. right. lia.
  - intros ->. now split.
Qed.

End RetryAdvice.

Lemma getRetryDelay_capped_monotone_witness :
  Exceptions.getRetryDelay (Exceptions.new_RateLimitError "slow down") 6 = 60000
  ∧ Exceptions.getRetryDelay (Exceptions.new_NetworkError "ECONNRESET") 2
    ≤ Exceptions.getRetryDelay (Exceptions.new_NetworkError "ECONNRESET") 7
  ∧ HttpClient.backoffTime 5
    < Exceptions.getRetryDelay (Exceptions.new_RateLimitError "slow down") 5.
Proof.
  split; [|split].
  - destruct (getRetryDelay_capped_monotone
                (Exceptions.new_RateLimitError "slow down") 6 6)
      as (_ & _ & _ & H & _); [lia|lia|].
    apply H; [lia|reflexivity].
  - destruct (getRetryDelay_capped_monotone
                (Exceptions.new_NetworkError "ECONNRESET") 2 7)
      as (_ & H & _); [lia|lia|exact H].
  - destruct (getRetryDelay_capped_monotone
                (Exceptions.new_RateLimitError "slow down") 5 5)
      as (_ & _ & _ & _ & _ & _ & H & _); [lia|lia|].
    apply H; [lia|reflexivity].
Defined.

Lemma isRetryable_against_loop_witness :
  Exceptions.isRetryable (HttpClient.handleHttpError 408 "Request Timeout") = true
  ∧ snd (HttpClient.classify HttpScenario.client
           (HttpClient.handleHttpError 408 "Request Timeout")) = true
  ∧ snd (HttpClient.classify HttpScenario.client
           (HttpClient.handleHttpError 503 "Service Unavailable")) = false.
Proof.
  destruct (isRetryable_against_loop HttpScenario.client 408 "Request Timeout")
    as [_ H408]. destruct (H408 eq_refl) as [_ H]. destruct (H eq_refl) as [Hr Hc].
  destruct (isRetryable_against_loop HttpScenario.client 503 "Service Unavailable")
    as [_ H503]. destruct (H503 eq_refl) as [Hloop _].
  split; [exact Hr|]. split; [now rewrite Hc|].
  apply Hloop; [reflexivity | discriminate].
Defined.

(** ** The client constructor *)

Section ClientConstructor.
Import EdgarClient.

Lemma truthy_Some (s : option string) :
  truthy s = true → ∃ a r, s = Some (String a r).
Proof. destruct s as [[|a r]|]; try discriminate. eauto. Qed.

(** X16. [new EdgarClient] takes the user agent of the configuration unless
    it is missing or empty, and only then the one of the environment; it
    accepts the agent exactly when it has at least ten characters, and
    otherwise throws an [InvalidUserAgentError] on the field [userAgent].
    A short agent in the configuration is therefore rejected even when the
    environment holds a valid one. *)
Theorem edgar_client_user_agent (config : EdgarClientConfig) (env : option string) :
  match new config env with
  | inr client =>
      or_string (c_userAgent config) env = Some (userAgent client) ∧
      (10 ≤ String.length (userAgent client))%nat ∧
      HttpClient.userAgent (httpClient client) = userAgent client
  | inl e =>
      e_name e = "InvalidUserAgentError" ∧ e_field e = Some "userAgent" ∧
      ∀ ua, or_string (c_userAgent config) env = Some ua →
            (String.length ua < 10)%nat
  end
  ∧ (truthy (c_userAgent config) = true → new config env = new config None).
Proof.
  split.
  - unfold new. destruct (truthy (or_string _ _)) eqn:Htr; cbn [negb].
    + apply truthy_Some in Htr as (a & r & ->).
      change (default EmptyString (Some (String a r))) with (String a r).
      destruct (Nat.ltb_spec (String.length (String a r)) 10).
      * repeat split. now intros ua [= <-].
      * repeat split. assumption.
    + repeat split. intros ua Hua. rewrite Hua in Htr.
      destruct ua; [simpl; lia|discriminate].
  - intros Htr. unfold new, or_string. now rewrite Htr.
Qed.

(** X17. The HTTP client that a constructed [EdgarClient] holds never has a
    retry budget, a timeout or a pacing delay of [0] (a [0] in the
    configuration is replaced by the default), and its response cache, when
    not switched off, always has the TTL of five minutes and the capacity
    of 500 entries: cache options given in the configuration are dropped. *)
Theorem edgar_client_http_settings (config : EdgarClientConfig)
    (env : option string) (client : EdgarClient.t) :
  new config env = inr client →
  let h := httpClient client in
  HttpClient.maxRetries h ≠ 0 ∧ HttpClient.timeout h ≠ 0 ∧
  HttpClient.rateLimitDelay h ≠ 0 ∧
  match c_cache config with
  | HttpClient.CacheOff => HttpClient.cache h = None
  | _ => ∃ rc, HttpClient.cache h = Some rc ∧
               Cache.r_ttl (Cache.options rc) = 300000 ∧
               Cache.r_maxSize (Cache.options rc) = 500 ∧
               Cache.cache rc = ∅
  end.
Proof.
  unfold new. destruct (negb (truthy _)); [discriminate|].
  destruct (_ <? _)%nat; [discriminate|]. intros [= <-]. cbn.
  assert (Hor : ∀ o d, d ≠ 0 → Js.or_num o d ≠ 0).
  { intros [v|] d Hd; cbn; [|assumption].
    destruct (Z.eqb_spec v 0); assumption. }
  repeat split; try (apply Hor; discriminate).
  destruct (c_cache config); [reflexivity|..]; eexists; now repeat split.
Qed.

End ClientConstructor.

Lemma edgar_client_user_agent_witness :
  (∃ e, EdgarClient.new
          (EdgarClient.mkConfig (Some "MyApp") None None None HttpClient.CacheDefault)
          (Some "MyApp/1.0 (contact@example.com)") = inl e)
  ∧ EdgarClient.new
      (EdgarClient.mkConfig (Some "MyApp") None None None HttpClient.CacheDefault)
      (Some "MyApp/1.0 (contact@example.com)")
    = EdgarClient.new
        (EdgarClient.mkConfig (Some "MyApp") None None None HttpClient.CacheDefault)
        None.
Proof.
  destruct (edgar_client_user_agent
              (EdgarClient.mkConfig (Some "MyApp") None None None
                 HttpClient.CacheDefault)
              (Some "MyApp/1.0 (contact@example.com)")) as [_ H].
  split; [eexists; reflexivity|]. apply H. reflexivity.
Defined.

Lemma edgar_client_http_settings_witness :
  ∃ client rc,
    EdgarClient.new
      (EdgarClient.mkConfig (Some "MyApp/1.0 (contact@example.com)") None (Some 0)
         None (HttpClient.CacheWith (Cache.mkOptions (Some 60000) (Some 10) None)))
      None = inr client ∧
    HttpClient.maxRetries (EdgarClient.httpClient client) = 3 ∧
    HttpClient.cache (EdgarClient.httpClient client) = Some rc ∧
    Cache.r_ttl (Cache.options rc) = 300000.
Proof.
  eexists.
  destruct (edgar_client_http_settings
              (EdgarClient.mkConfig (Some "MyApp/1.0 (contact@example.com)") None
                 (Some 0) None
                 (HttpClient.CacheWith (Cache.mkOptions (Some 60000) (Some 10) None)))
              None _ eq_refl) as (_ & _ & _ & rc & Hrc & Httl & _).
  exists rc. split; [reflexivity|]. split; [reflexivity|].
  split; [exact Hrc | exact Httl].
Defined.

(** ** Endpoints: the CIK in request URLs *)

Section CikUrls.
Import Endpoints.

Lemma pretty_N_char_digit (d : N) :
  (d < 10)%N →
  is_digit (pretty_N_char d) = true ∧
  Js.digit_value 10 (pretty_N_char d) = Some (Z.of_N d).
Proof.
  intros Hd.
  assert (H : (d = 0 ∨ d = 1 ∨ d = 2 ∨ d = 3 ∨ d = 4 ∨ d = 5 ∨ d = 6 ∨ d = 7
               ∨ d = 8 ∨ d = 9)%N) by lia.
  repeat (destruct H as [->|H]; [now split|]). subst d. now split.
Qed.

Lemma pretty_N_go_digits (x : N) : ∀ s,
  all_digits s = true → all_digits (pretty_N_go x s) = true.
Proof.
  induction (N.lt_wf_0 x) as [x _ IH]; intros s Hs.
  destruct (N.eq_dec x 0%N) as [->|Hx]; [now rewrite pretty_N_go_0|].
  rewrite pretty_N_go_step by lia. apply IH; [apply N.div_lt; lia|].
  cbn [all_digits]. rewrite Hs, andb_true_r.
  apply pretty_N_char_digit. now apply N.mod_lt.
Qed.

Lemma parse_digits_pretty_go (x : N) : ∀ s acc,
  acc = None ∨ acc = Some 0 →
  Js.parse_digits 10 (pretty_N_go x s) acc
  = Js.parse_digits 10 s (if (x =? 0)%N then acc else Some (Z.of_N x)).
Proof.
  induction (N.lt_wf_0 x) as [x _ IH]; intros s acc Hacc.
  destruct (N.eqb_spec x 0%N) as [->|Hx]; [now rewrite pretty_N_go_0|].
  rewrite pretty_N_go_step by lia.
  rewrite IH by (try apply N.div_lt; try assumption; lia).
  cbn [Js.parse_digits].
  destruct (pretty_N_char_digit (x `mod` 10)%N) as [_ ->];
    [now apply N.mod_lt|].
  f_equal. f_equal.
  pose proof (N.div_mod x 10%N ltac:(lia)) as Hdm.
  destruct (N.eqb_spec (x `div` 10)%N 0%N) as [H0|H0].
  - rewrite H0 in Hdm. destruct Hacc as [-> | ->]; lia.
  - lia.
Qed.

Lemma parseInt_digits (s : string) :
  all_digits s = true → Js.parseInt s = Js.parse_digits 10 s None.
Proof.
  destruct s as [|a r]; [reflexivity|]. cbn [all_digits].
  intros [Ha Hr]%andb_true_iff.
  assert (Hcode : (48 ≤ Js.code a ≤ 57)%nat).
  { unfold is_digit in Ha. apply andb_true_iff in Ha as [H1 H2].
    apply Nat.leb_le in H1, H2. lia. }
  assert (Hsp : Js.is_space a = false).
  { unfold Js.is_space. cbv zeta.
    replace (Js.code a <=? 13)%nat with false by (symmetry; apply Nat.leb_gt; lia).
    replace (Js.code a =? 32)%nat with false by (symmetry; apply Nat.eqb_neq; lia).
    replace (Js.code a =? 160)%nat with false by (symmetry; apply Nat.eqb_neq; lia).
    now rewrite andb_false_r. }
  unfold Js.parseInt. cbn [Js.trimStart]. rewrite Hsp.
  assert (Ha' : ∃ n, (48 ≤ n ≤ 57)%nat ∧ a = ascii_of_nat n).
  { exists (Js.code a). split; [assumption|]. unfold Js.code.
    now rewrite ascii_nat_embedding. }
  destruct Ha' as (n & Hn & ->).
  assert (Hcases : (n = 48 ∨ n = 49 ∨ n = 50 ∨ n = 51 ∨ n = 52 ∨ n = 53
                    ∨ n = 54 ∨ n = 55 ∨ n = 56 ∨ n = 57)%nat) by lia.
  assert (Hmul : ∀ o : option Z, Z.mul 1 <$> o = o).
  { intros [z|]; [|reflexivity]. cbn. f_equal. now destruct z. }
  clear Ha Hcode Hsp.
  destruct Hcases as [->|Hcases].
  - destruct r as [|b r']; [reflexivity|].
    cbn [all_digits] in Hr. apply andb_true_iff in Hr as [Hb _].
    destruct b as [[] [] [] [] [] [] [] []]; try discriminate Hb;
      (etransitivity; [|apply Hmul]; reflexivity).
  - repeat (destruct Hcases as [->|Hcases];
            [etransitivity; [|apply Hmul]; reflexivity|]).
    subst n. etransitivity; [|apply Hmul]; reflexivity.
Qed.

Lemma string_length_app (a b : string) :
  String.length (a +:+ b) = (String.length a + String.length b)%nat.
Proof.
  induction a as [|c a IH]; [reflexivity|].
  change (S (String.length (a +:+ b)) = S (String.length a + String.length b)).
  now rewrite IH.
Qed.

Lemma repeat_zero_length (k : nat) :
  String.length (Js.repeat_string "0" k) = k.
Proof.
  induction k as [|k IH]; [reflexivity|].
  change (S (String.length (Js.repeat_string "0" k)) = S k). now rewrite IH.
Qed.

Lemma padStart_zero (s : string) :
  Js.padStart s 10 "0"
  = Js.repeat_string "0" (10 - String.length s) +:+ s.
Proof.
  unfold Js.padStart. cbn [String.eqb Ascii.eqb orb].
  destruct (Nat.leb_spec 10 (String.length s)) as [H|H]; cbn [orb].
  - now replace (10 - String.length s)%nat with 0%nat by lia.
  - f_equal.
    generalize (10 - String.length s)%nat as k.
    induction k as [|k IH]; [reflexivity|].
    change (String "0" (substring 0 k (Js.repeat_string "0" k))
            = String "0" (Js.repeat_string "0" k)).
    now rewrite IH.
Qed.

Lemma parse_digits_zeros (k : nat) (s : string) :
  Js.parse_digits 10 (Js.repeat_string "0" k +:+ s) None
  = Js.parse_digits 10 s (if (k =? 0)%nat then None else Some 0).
Proof.
  destruct k as [|k]; [reflexivity|]. cbn.
  induction k as [|k IH]; [reflexivity|]. cbn. exact IH.
Qed.

Lemma repeat_zero_digits (k : nat) (s : string) :
  all_digits s = true → all_digits (Js.repeat_string "0" k +:+ s) = true.
Proof. intros Hs. induction k as [|k IH]; [exact Hs|]. cbn. exact IH. Qed.

Lemma pretty_nonneg_digits (n : Z) : 0 ≤ n → all_digits (pretty n) = true.
Proof.
  intros Hn. destruct n as [|p|p]; [reflexivity| |lia].
  unfold pretty, pretty_Z, pretty, pretty_positive, pretty, pretty_N.
  destruct (decide (N.pos p = 0%N)); [discriminate|].
  now apply pretty_N_go_digits.
Qed.

(** X18. For a CIK given as a non-negative integer (below [2 ^ 53], where
    numbers are exact), the ten-digit padding and [parseInt] undo each
    other: the URL of [getFiling] carries the CIK in plain decimal
    notation, while the padded form has ten digits or, for longer numbers,
    all the digits of the CIK, and the accession number appears once
    without its dashes and once as given. *)
Theorem filing_url_cik_round_trip (n : Z) (accessionNumber : string) :
  0 ≤ n < 2 ^ 53 →
  Js.parseInt (cikStr (CikNumber n)) = Some n ∧
  String.length (cikStr (CikNumber n)) = Nat.max 10 (String.length (pretty n)) ∧
  all_digits (cikStr (CikNumber n)) = true ∧
  filing_url (CikNumber n) accessionNumber
  = SEC_BASE_URL +:+ "/Archives/edgar/data/" +:+ pretty n +:+ "/"
    +:+ Js.remove_char "-" accessionNumber +:+ "/" +:+ accessionNumber
    +:+ "-index.json".
Proof.
  intros [Hn _].
  assert (Hd : all_digits (cikStr (CikNumber n)) = true).
  { cbn [cikStr]. rewrite padStart_zero.
    now apply repeat_zero_digits, pretty_nonneg_digits. }
  assert (Hp : Js.parseInt (cikStr (CikNumber n)) = Some n).
  { rewrite parseInt_digits by exact Hd. cbn [cikStr].
    rewrite padStart_zero, parse_digits_zeros.
    destruct n as [|p|p]; [now destruct (_ =? _)%nat| |lia].
    unfold pretty, pretty_Z, pretty, pretty_positive, pretty, pretty_N.
    destruct (decide (N.pos p = 0%N)); [discriminate|].
    rewrite parse_digits_pretty_go by (destruct (_ =? _)%nat; auto).
    reflexivity. }
  split; [exact Hp|]. split; [|split; [exact Hd|]].
  - cbn [cikStr]. rewrite padStart_zero, string_length_app, repeat_zero_length.
    lia.
  - unfold filing_url. now rewrite Hp.
Qed.

(** X19. [getCompanyByCik] compares the [cik_str] of a company with the
    padded CIK by strict equality: a company is returned only if its
    [cik_str] is a string, of ten characters or more, equal to the padded
    CIK.  On a table whose [cik_str] values are not strings (JSON numbers,
    for one) it returns [null] for every CIK. *)
Theorem getCompanyByCik_needs_padded_string (tickers : list (string * Json.t))
    (cik : Cik) :
  (∀ company, getCompanyByCik tickers cik = Some company →
     In company (snd <$> tickers) ∧
     prop company "cik_str" = Json.JString (cikStr cik) ∧
     (10 ≤ String.length (cikStr cik))%nat) ∧
  ((∀ company s, In company (snd <$> tickers) →
      prop company "cik_str" ≠ Json.JString s) →
   getCompanyByCik tickers cik = None).
Proof.
  assert (Hlen : (10 ≤ String.length (cikStr cik))%nat).
  { destruct cik; cbn [cikStr]; rewrite padStart_zero, string_length_app,
      repeat_zero_length; lia. }
  split.
  - intros company Hfind. unfold getCompanyByCik in Hfind.
    apply find_some in Hfind as [Hin Hp].
    apply andb_true_iff in Hp as [_ Hs]. split; [exact Hin|]. split; [|exact Hlen].
    unfold is_string in Hs.
    destruct (prop company "cik_str"); try discriminate.
    apply String.eqb_eq in Hs. now subst.
  - intros Hnone. unfold getCompanyByCik.
    destruct (List.find _ _) as [company|] eqn:Hfind; [|reflexivity].
    apply find_some in Hfind as [Hin Hp].
    apply andb_true_iff in Hp as [_ Hs]. unfold is_string in Hs.
    destruct (prop company "cik_str") eqn:Hprop; try discriminate.
    now destruct (Hnone company s Hin).
Qed.

End CikUrls.

Lemma filing_url_cik_round_trip_witness :
  Endpoints.filing_url (Endpoints.CikNumber 320193) "0000320193-23-000106"
  = "https://data.sec.gov/Archives/edgar/data/320193/000032019323000106/0000320193-23-000106-index.json"
  ∧ Endpoints.cikStr (Endpoints.CikNumber 320193) = "0000320193".
Proof.
  destruct (filing_url_cik_round_trip 320193 "0000320193-23-000106")
    as (_ & _ & _ & H); [lia|].
  split; [rewrite H; reflexivity | reflexivity].
Defined.

Lemma getCompanyByCik_needs_padded_string_witness :
  Endpoints.getCompanyByCik
    [("0", Json.JObject [("cik_str", Json.JNumber 320193);
                         ("ticker", Json.JString "AAPL");
                         ("title", Json.JString "Apple Inc.")])]
    (Endpoints.CikNumber 320193) = None.
Proof.
  apply getCompanyByCik_needs_padded_string.
  intros company s [<-|[]]. discriminate.
Defined.

(** ** Letter case *)

Lemma upper_lower_char (c : ascii) :
  Js.is_ascii_char c = true →
  Js.upper_char (Js.lower_char c) = Js.upper_char c ∧
  Js.upper_char (Js.upper_char c) = Js.upper_char c ∧
  Js.lower_char (Js.upper_char c) = Js.lower_char c ∧
  Js.lower_char (Js.lower_char c) = Js.lower_char c.
Proof.
  destruct c as [[] [] [] [] [] [] [] []]; intros _; vm_compute; repeat split.
Qed.

Lemma toUpperCase_toLowerCase (s : string) :
  Js.ascii_only s = true →
  Js.toUpperCase (Js.toLowerCase s) = Js.toUpperCase s.
Proof.
  unfold Js.toUpperCase, Js.toLowerCase.
  induction s as [|c s IH]; [reflexivity|]. cbn [Js.map_chars Js.ascii_only].
  intros [Hc Hs]%andb_true_iff.
  now rewrite (IH Hs), (proj1 (upper_lower_char c Hc)).
Qed.

Lemma toUpperCase_idem (s : string) :
  Js.ascii_only s = true →
  Js.toUpperCase (Js.toUpperCase s) = Js.toUpperCase s.
Proof.
  unfold Js.toUpperCase.
  induction s as [|c s IH]; [reflexivity|]. cbn [Js.map_chars Js.ascii_only].
  intros [Hc Hs]%andb_true_iff.
  now rewrite (IH Hs), (proj1 (proj2 (upper_lower_char c Hc))).
Qed.

Lemma toLowerCase_toUpperCase (s : string) :
  Js.ascii_only s = true →
  Js.toLowerCase (Js.toUpperCase s) = Js.toLowerCase s.
Proof.
  unfold Js.toUpperCase, Js.toLowerCase.
  induction s as [|c s IH]; [reflexivity|]. cbn [Js.map_chars Js.ascii_only].
  intros [Hc Hs]%andb_true_iff.
  now rewrite (IH Hs), (proj1 (proj2 (proj2 (upper_lower_char c Hc)))).
Qed.

(** ** Item extraction: form types and values *)

Section ItemForms.
Import ItemExtractor.
Variable re : RegExp.Engine.

Lemma parseFormType_upper (s s' : string) (ft : FormType) :
  Js.toUpperCase s' = Js.toUpperCase s →
  parseFormType s = inr ft → parseFormType s' = inr ft.
Proof.
  unfold parseFormType. intros ->.
  repeat (destruct (_ || _); [trivial|]). discriminate.
Qed.

(** X20. A form type written in ASCII is read without regard to letter
    case: whenever [extractItems] succeeds for such a form type, it
    returns the same object for the lower-case and the upper-case spelling
    of it. *)
Theorem extractItems_form_type_case (content formType : string)
    (r : JsObject.t) :
  Js.ascii_only formType = true →
  extractItems re content formType = inr r →
  extractItems re content (Js.toLowerCase formType) = inr r ∧
  extractItems re content (Js.toUpperCase formType) = inr r.
Proof.
  intros Hascii. unfold extractItems.
  destruct (parseFormType formType) as [e|ft] eqn:Hp; [discriminate|].
  rewrite (parseFormType_upper formType (Js.toLowerCase formType) ft
             (toUpperCase_toLowerCase formType Hascii) Hp).
  rewrite (parseFormType_upper formType (Js.toUpperCase formType) ft
             (toUpperCase_idem formType Hascii) Hp).
  destruct (formItems ft); [|discriminate]. now split.
Qed.

(** X21. [extractItems] succeeds exactly when the upper-cased form type
    names 10-K, 10-Q or 8-K (with or without the dash).  Every other form
    type is rejected with an [InvalidFormTypeError] that carries the
    caller's string and the five names 10-K, 10-Q, 8-K, 20-F and 40-F: the
    forms 20-F and 40-F are rejected by an error that lists them as
    valid. *)
Theorem extractItems_rejects_unsupported (content formType : string) :
  match extractItems re content formType with
  | inr _ => names_supported_form (Js.toUpperCase formType) = true
  | inl e =>
      names_supported_form (Js.toUpperCase formType) = false ∧
      e = InvalidFormTypeError formType ["10-K"; "10-Q"; "8-K"; "20-F"; "40-F"]
  end
  ∧ (∀ ft, parseFormType formType = inr ft → ft = FORM_20F ∨ ft = FORM_40F →
       extractItems re content formType
       = inl (InvalidFormTypeError formType ["10-K"; "10-Q"; "8-K"; "20-F"; "40-F"])).
Proof.
  split.
  - unfold extractItems, parseFormType, names_supported_form.
    destruct (Js.includes _ "10-K"), (Js.includes _ "10K"),
      (Js.includes _ "10-Q"), (Js.includes _ "10Q"),
      (Js.includes _ "8-K"), (Js.includes _ "8K");
      cbn [orb formItems]; try reflexivity.
    repeat (destruct (_ || _); cbn [formItems]); now split.
  - intros ft Hp Hft. unfold extractItems. rewrite Hp.
    now destruct Hft as [-> | ->].
Qed.

End ItemForms.

Section ItemValues.
Import ItemExtractor.
Variable re : RegExp.Engine.

Lemma kept_object_set (o : JsObject.t) (k v : string) :
  kept_object o → kept_text v →
  kept_object (JsObject.set o k (JsObject.VString v)).
Proof.
  intros Ho Hv. unfold JsObject.set.
  destruct (String.eqb k "__proto__"); [exact Ho|].
  intros k' val. cbn [JsObject.own].
  destruct (decide (k = k')) as [->|Hne].
  - rewrite lookup_insert_eq. intros [= <-]. eauto.
  - rewrite lookup_insert_ne by assumption. apply Ho.
Qed.

Lemma process_item_kept (o : JsObject.t) (entry : string * ExtractedItem) :
  kept_object o → kept_object (process_item re o entry).
Proof.
  intros Ho. destruct entry as [k e]. unfold process_item.
  destruct (Nat.ltb_spec 50 (String.length (Js.trim
              (RegExp.replace re "\n\s*\n\s*\n" "g" (λ _, nl +:+ nl) (content e)))))
    as [Hlong|Hshort].
  - apply kept_object_set; [exact Ho|]. right. left. exact Hlong.
  - destruct (Js.includes _ "none") eqn:Hnone; cbn [orb].
    + apply kept_object_set; [exact Ho|]. right. right. left. exact Hnone.
    + destruct (Js.includes _ "not applicable") eqn:Hna.
      * apply kept_object_set; [exact Ho|]. right. right. right. exact Hna.
      * apply kept_object_set; [exact Ho|]. now left.
Qed.

(** X22. Every value of the object [extractItems] returns is a string, and
    a text of 50 characters or fewer (after trimming) survives only if it
    says "none" or "not applicable": each value is empty, or longer than 50
    characters trimmed, or contains one of the two phrases in any letter
    case. *)
Theorem extractItems_values_kept (content formType : string) (r : JsObject.t) :
  extractItems re content formType = inr r →
  ∀ k val, JsObject.own r !! k = Some val →
    ∃ v, val = JsObject.VString v ∧
         (v = EmptyString ∨ (50 < String.length (Js.trim v))%nat
          ∨ Js.includes (Js.toLowerCase v) "none" = true
          ∨ Js.includes (Js.toLowerCase v) "not applicable" = true).
Proof.
  unfold extractItems.
  destruct (parseFormType formType) as [e|ft]; [discriminate|].
  destruct (formItems ft); [|discriminate]. intros [= <-].
  unfold postProcessItems.
  assert (H : ∀ items acc, kept_object acc →
                kept_object (fold_left (process_item re) items acc)).
  { induction items as [|it items IH]; intros acc Hacc; [exact Hacc|].
    cbn [fold_left]. apply IH, process_item_kept, Hacc. }
  apply H. intros k val Hk. cbn in Hk. rewrite lookup_empty in Hk. discriminate.
Qed.

End ItemValues.

Section ItemMatches.
Import ItemExtractor.
Variable re : RegExp.Engine.

Lemma try_patterns_found (content : string) (toc : list (string * nat))
    (d : ItemDefinition) (ps : list string) :
  is_Some (try_patterns re content toc d ps) ↔
  ∃ p, p ∈ ps ∧ RegExp.matchAll re p "gi" content ≠ [].
Proof.
  induction ps as [|a ps IH]; cbn [try_patterns].
  - split; [intros [x Hx]; discriminate|intros (p & Hp & _); inversion Hp].
  - destruct (RegExp.matchAll re a "gi" content) as [|m ms] eqn:Hm.
    + rewrite IH. split; intros (p & Hp & Hne).
      * exists p. split; [apply elem_of_cons; auto|assumption].
      * apply elem_of_cons in Hp as [->|Hp]; [congruence|eauto].
    + split; [|eauto]. intros _. exists a.
      split; [apply elem_of_cons; auto|]. rewrite Hm. discriminate.
Qed.

Lemma map_set_keys_iff (m : list (string * ExtractedItem)) (k : string)
    (v : ExtractedItem) (x : string) :
  x ∈ map fst (map_set m k v) ↔ x = k ∨ x ∈ map fst m.
Proof.
  induction m as [|[k' v'] r IH]; cbn [map_set map fst].
  - rewrite list_elem_of_singleton. split; [auto|]. intros [->|H]; [auto|inversion H].
  - destruct (String.eqb_spec k' k) as [->|Hne]; cbn [map fst];
      rewrite !elem_of_cons; [tauto|]. rewrite IH. tauto.
Qed.

Lemma extract_loop_keys_iff (content : string) (toc : list (string * nat))
    (defs : list ItemDefinition) : ∀ (acc : list (string * ExtractedItem)) x,
  x ∈ map fst (fold_left (extract_item re content toc) defs acc) ↔
  x ∈ map fst acc ∨
  ∃ d, d ∈ defs ∧ number d = x ∧
       is_Some (try_patterns re content toc d (patterns d)).
Proof.
  induction defs as [|d defs IH]; cbn [fold_left]; intros acc x.
  - split; [auto|]. intros [H|(d & Hd & _)]; [exact H|inversion Hd].
  - rewrite IH. unfold extract_item.
    destruct (try_patterns re content toc d (patterns d)) as [e|] eqn:Ht.
    + rewrite map_set_keys_iff. split.
      * intros [[->|H]|(d' & Hd' & Hn & Hs)]; [right|auto|right].
        -- exists d. rewrite Ht. split; [apply elem_of_cons; auto|eauto].
        -- exists d'. split; [apply elem_of_cons; auto|eauto].
      * intros [H|(d' & Hd' & Hn & Hs)]; [auto|].
        apply elem_of_cons in Hd' as [->|Hd']; [auto|right; eauto].
    + split.
      * intros [H|(d' & Hd' & Hn & Hs)]; [auto|right].
        exists d'. split; [apply elem_of_cons; auto|eauto].
      * intros [H|(d' & Hd' & Hn & Hs)]; [auto|].
        apply elem_of_cons in Hd' as [->|Hd']; [|right; eauto].
        rewrite Ht in Hs. destruct Hs as [? ?]. discriminate.
Qed.

Lemma process_item_keys_iff (o : JsObject.t) (k : string) (e : ExtractedItem)
    (x : string) :
  k ≠ "__proto__" →
  x ∈ JsObject.keys (process_item re o (k, e)) ↔ x = k ∨ x ∈ JsObject.keys o.
Proof.
  intros Hk.
  assert (Hset : ∀ v, x ∈ JsObject.keys (JsObject.set o k v)
                      ↔ x = k ∨ x ∈ JsObject.keys o).
  { intros v. unfold JsObject.set, JsObject.keys.
    destruct (String.eqb_spec k "__proto__"); [contradiction|]. cbn [JsObject.own].
    rewrite dom_insert_L, elem_of_union, elem_of_singleton. tauto. }
  unfold process_item.
  destruct (_ <? _)%nat; [apply Hset|]. destruct (_ || _); apply Hset.
Qed.

Lemma postProcess_loop_keys_iff (items : list (string * ExtractedItem))
    (x : string) :
  (∀ k, k ∈ map fst items → k ≠ "__proto__") →
  ∀ acc, x ∈ JsObject.keys (fold_left (process_item re) items acc) ↔
         x ∈ JsObject.keys acc ∨ x ∈ map fst items.
Proof.
  induction items as [|[k e] items IH]; cbn [fold_left map fst]; intros Hk acc.
  - split; [auto|]. intros [H|H]; [exact H|inversion H].
  - rewrite IH by (intros k' Hk'; apply Hk, elem_of_cons; auto).
    rewrite process_item_keys_iff by (apply Hk, elem_of_cons; auto).
    rewrite elem_of_cons. tauto.
Qed.

Lemma registry_numbers (ft : FormType) (defs : list ItemDefinition) :
  formItems ft = Some defs → Forall (λ d, number d ≠ "__proto__") defs.
Proof.
  destruct ft; intros [= <-]; apply (bool_decide_unpack _); vm_compute; exact I.
Qed.

(** X23. An item number is a key of the object [extractItems] returns if
    and only if the registry of the form has a definition of that number
    one of whose patterns (number with title, number before a capital,
    number with a separator, or an alias) has a match in the cleaned
    content.  No item is dropped afterwards: an item whose text is too
    short is kept with an empty value. *)
Theorem extractItems_key_iff_match (content formType : string) (ft : FormType)
    (defs : list ItemDefinition) (r : JsObject.t) :
  parseFormType formType = inr ft → formItems ft = Some defs →
  extractItems re content formType = inr r →
  ∀ k, k ∈ JsObject.keys r ↔
       ∃ d p, d ∈ defs ∧ number d = k ∧ p ∈ patterns d ∧
              RegExp.matchAll re p "gi" (cleanContent re content) ≠ [].
Proof.
  intros Hp Hf. unfold extractItems. rewrite Hp, Hf. intros [= <-] k.
  pose proof (registry_numbers ft defs Hf) as Hreg.
  rewrite Forall_forall in Hreg.
  unfold postProcessItems, extractItemsFromContent. rewrite Hf. cbn [default].
  set (cc := cleanContent re content).
  set (toc := extractTableOfContents re cc).
  assert (Hkeys : ∀ x, x ∈ map fst (fold_left (extract_item re cc toc) defs [])
                  ↔ ∃ d, d ∈ defs ∧ number d = x ∧
                      is_Some (try_patterns re cc toc d (patterns d))).
  { intros x. rewrite extract_loop_keys_iff. split; [|auto].
    intros [H|H]; [inversion H|exact H]. }
  rewrite postProcess_loop_keys_iff.
  - rewrite Hkeys. split.
    + intros [H|(d & Hd & Hn & Hs)].
      * unfold JsObject.keys, JsObject.empty in H. cbn in H.
        rewrite dom_empty_L in H. now apply not_elem_of_empty in H.
      * apply try_patterns_found in Hs as (p & Hpin & Hne). eauto 10.
    + intros (d & p & Hd & Hn & Hpin & Hne). right.
      exists d. split; [exact Hd|]. split; [exact Hn|].
      apply try_patterns_found. eauto.
  - intros x Hx. apply Hkeys in Hx as (d & Hd & <- & _). now apply Hreg.
Qed.

End ItemMatches.

Lemma extractItems_form_type_case_witness :
  ItemExtractor.extractItems RegExp.literal_engine
    "<p>Annual report.</p> <p>MD&A: not applicable.</p>" "form 10-k"
  = inr (JsObject.mkObject
           {[ "7" := JsObject.VString "MD&A: not applicable.</p>" ]}).
Proof.
  apply (extractItems_form_type_case RegExp.literal_engine
           "<p>Annual report.</p> <p>MD&A: not applicable.</p>" "Form 10-K").
  - reflexivity.
  - vm_compute. reflexivity.
Defined.

Lemma extractItems_rejects_unsupported_witness :
  ItemExtractor.extractItems RegExp.literal_engine "Annual report" "Form 20-F"
  = inl (ItemExtractor.InvalidFormTypeError "Form 20-F"
           ["10-K"; "10-Q"; "8-K"; "20-F"; "40-F"]).
Proof.
  apply (proj2 (extractItems_rejects_unsupported RegExp.literal_engine
                  "Annual report" "Form 20-F") ItemExtractor.FORM_20F).
  - reflexivity.
  - now left.
Defined.

Lemma extractItems_values_kept_witness :
  ∃ v, JsObject.VString "MD&A: not applicable.</p>" = JsObject.VString v ∧
       (v = EmptyString ∨ (50 < String.length (Js.trim v))%nat
        ∨ Js.includes (Js.toLowerCase v) "none" = true
        ∨ Js.includes (Js.toLowerCase v) "not applicable" = true).
Proof.
  assert (H : ItemExtractor.extractItems RegExp.literal_engine
                 "<p>Annual report.</p> <p>MD&A: not applicable.</p>" "Form 10-K"
               = inr (JsObject.mkObject
                        {[ "7" := JsObject.VString "MD&A: not applicable.</p>" ]}))
    by (vm_compute; reflexivity).
  apply (extractItems_values_kept _ _ _ _ H "7"). vm_compute. reflexivity.
Defined.

Lemma extractItems_key_iff_match_witness :
  "7" ∈ JsObject.keys
          (JsObject.mkObject
             {[ "7" := JsObject.VString "MD&A: not applicable.</p>" ]}) ↔
  ∃ d p, d ∈ ItemExtractor.FORM_10K_ITEMS ∧ ItemExtractor.number d = "7" ∧
         p ∈ ItemExtractor.patterns d ∧
         RegExp.matchAll RegExp.literal_engine p "gi"
           (ItemExtractor.cleanContent RegExp.literal_engine
              "<p>Annual report.</p> <p>MD&A: not applicable.</p>") ≠ [].
Proof.
  apply (extractItems_key_iff_match RegExp.literal_engine
           "<p>Annual report.</p> <p>MD&A: not applicable.</p>" "Form 10-K"
           ItemExtractor.FORM_10K ItemExtractor.FORM_10K_ITEMS).
  - reflexivity.
  - reflexivity.
  - vm_compute. reflexivity.
Defined.

(** ** Financial forms: risk factors and ratios *)

Section RiskRecords.
Import FinancialFormParser.
Variable re : RegExp.Engine.

Lemma string_substring_prefix_length (n : nat) : ∀ s : string,
  (n ≤ String.length s)%nat → String.length (String.substring 0 n s) = n.
Proof.
  induction n as [|n IH]; intros s Hn.
  - now destruct s.
  - destruct s as [|c s]; [simpl in Hn; lia|].
    simpl. f_equal. apply IH. simpl in Hn. lia.
Qed.

Lemma js_substring_prefix_length (s : string) (n : nat) :
  String.length (Js.substring s 0 n) = Nat.min n (String.length s).
Proof.
  unfold Js.substring.
  replace (Nat.min (Nat.min 0 (String.length s)) (Nat.min n (String.length s)))
    with 0%nat by lia.
  rewrite string_substring_prefix_length; lia.
Qed.

Lemma extractRiskCategory_labels (riskText : string) :
  extractRiskCategory riskText
  ∈ ["Market Risk"; "Regulatory Risk"; "Technology Risk"; "Financial Risk";
     "Operational Risk"; "General Risk"].
Proof.
  unfold extractRiskCategory.
  destruct (find _ _) as [cat|] eqn:Hf.
  - apply find_some in Hf as [Hin _].
    repeat (destruct Hin as [<-|Hin];
            [apply (bool_decide_unpack _); vm_compute; exact I|]).
    destruct Hin.
  - apply (bool_decide_unpack _). vm_compute. exact I.
Qed.

(** X24. Every record [getRiskFactors] returns has a description of at
    least 51 characters (shorter pieces of the section are dropped before
    the cut to 500), and its category is one of the six labels Market,
    Regulatory, Technology, Financial, Operational and General Risk. *)
Theorem getRiskFactors_records (rawContent : string) :
  Forall (λ r, (51 ≤ String.length (description r))%nat ∧
               category r ∈ ["Market Risk"; "Regulatory Risk"; "Technology Risk";
                             "Financial Risk"; "Operational Risk"; "General Risk"])
         (getRiskFactors re rawContent).
Proof.
  unfold getRiskFactors. apply Forall_take, Forall_fmap, Forall_forall.
  intros f Hf. apply list_elem_of_filter in Hf as [Hlen _]. cbn.
  split; [|apply extractRiskCategory_labels].
  rewrite js_substring_prefix_length. lia.
Qed.

(** X25. For a risk text written in ASCII, the severity and the category
    do not depend on letter case, and a high-severity phrase decides
    alone: a text that holds one is rated [high] whatever else it holds. *)
Theorem risk_classification_ignores_case (riskText keyword : string) :
  Js.ascii_only riskText = true →
  assessRiskSeverity (Js.toUpperCase riskText) = assessRiskSeverity riskText ∧
  extractRiskCategory (Js.toUpperCase riskText) = extractRiskCategory riskText ∧
  (keyword ∈ ["material adverse"; "significant risk"; "substantial risk";
              "could result in"] →
   Js.includes (Js.toLowerCase riskText) keyword = true →
   assessRiskSeverity riskText = high ∧
   assessRiskSeverity (Js.toUpperCase riskText) = high).
Proof.
  intros Hascii.
  assert (Hs : assessRiskSeverity (Js.toUpperCase riskText)
             = assessRiskSeverity riskText).
  { unfold assessRiskSeverity. now rewrite toLowerCase_toUpperCase. }
  split; [exact Hs|]. split.
  - unfold extractRiskCategory. now rewrite toLowerCase_toUpperCase.
  - intros Hin Hk. rewrite Hs.
    assert (Hhigh : assessRiskSeverity riskText = high); [|now split].
    unfold assessRiskSeverity.
    replace (existsb _ ["material adverse"; _; _; _]) with true; [reflexivity|].
    symmetry. apply existsb_exists. exists keyword.
    split; [now apply list_elem_of_In|exact Hk].
Qed.

End RiskRecords.

Section RatioOperands.
Import FinancialFormParser.

Lemma truthy_zero (x : float) :
  PrimFloat.eqb x 0 = true ∨ PrimFloat.is_nan x = true → truthy x = false.
Proof.
  unfold truthy. intros [-> | ->]; [reflexivity|].
  now rewrite orb_true_r.
Qed.

(** X26. No ratio is computed from a numerator that is zero or not a
    number: with total liabilities of [0] the debt-to-equity ratio is
    [null] (not [0]), with a net income of [0] the return on equity is
    [null], and with current assets or quick assets that sum to [0] the
    current and the quick ratio are [null]. *)
Theorem ratios_null_on_zero_numerator (bs : BalanceSheet) (inc : IncomeStatement) :
  (∀ l, totalLiabilities (liabilities bs) = Some l →
        PrimFloat.eqb (value l) 0 = true ∨ PrimFloat.is_nan (value l) = true →
        calculateDebtToEquity bs = None) ∧
  (∀ n, netIncome inc = Some n →
        PrimFloat.eqb (value n) 0 = true ∨ PrimFloat.is_nan (value n) = true →
        calculateROE inc bs = None) ∧
  (PrimFloat.eqb (total (currentAssets (assets bs))) 0 = true
   ∨ PrimFloat.is_nan (total (currentAssets (assets bs))) = true →
   calculateCurrentRatio bs = None) ∧
  (PrimFloat.eqb (quick_assets (currentAssets (assets bs))) 0 = true
   ∨ PrimFloat.is_nan (quick_assets (currentAssets (assets bs))) = true →
   calculateQuickRatio bs = None).
Proof.
  split; [|split; [|split]].
  - intros l Hl Hz. unfold calculateDebtToEquity. rewrite Hl.
    destruct (totalEquity (equity bs)); [|reflexivity].
    now rewrite (truthy_zero _ Hz).
  - intros n Hn Hz. unfold calculateROE. rewrite Hn.
    destruct (totalEquity (equity bs)); [|reflexivity].
    now rewrite (truthy_zero _ Hz).
  - intros Hz. unfold calculateCurrentRatio. now rewrite (truthy_zero _ Hz).
  - intros Hz. unfold calculateQuickRatio. now rewrite (truthy_zero _ Hz).
Qed.

Lemma listed_quick_assets_all (l : list StatementItem) :
  Forall (λ a, excluded a = false) l → listed_quick_assets l = total l.
Proof.
  unfold listed_quick_assets, total. generalize 0%float as acc.
  induction l as [|a l IH]; intros acc Hall; [reflexivity|].
  inversion Hall as [|? ? Ha Hl]; subst. cbn [fold_left].
  rewrite Ha. cbn [negb]. now apply IH.
Qed.

(** X27. When no current asset carries one of the excluded labels
    (inventory, prepaid, deferred, other current assets) and the current
    assets do not sum to zero, the quick ratio is the current ratio: the
    80 % estimate and the inventory subtraction do not come into play. *)
Theorem quick_ratio_is_current_ratio (bs : BalanceSheet) :
  Forall (λ a, excluded a = false) (currentAssets (assets bs)) →
  PrimFloat.eqb (total (currentAssets (assets bs))) 0 = false →
  quick_assets (currentAssets (assets bs)) = total (currentAssets (assets bs)) ∧
  calculateQuickRatio bs = calculateCurrentRatio bs.
Proof.
  intros Hall Hnz.
  assert (Hq : quick_assets (currentAssets (assets bs))
             = total (currentAssets (assets bs))).
  { unfold quick_assets. rewrite (listed_quick_assets_all _ Hall), Hnz.
    reflexivity. }
  split; [exact Hq|]. unfold calculateQuickRatio, calculateCurrentRatio.
  now rewrite Hq.
Qed.

End RatioOperands.

Lemma risk_classification_ignores_case_witness :
  FinancialFormParser.assessRiskSeverity
    "Currency swings MAY AFFECT margins and Could Result In losses."
  = FinancialFormParser.high.
Proof.
  destruct (risk_classification_ignores_case
              "Currency swings MAY AFFECT margins and Could Result In losses."
              "could result in") as (_ & _ & H); [reflexivity|].
  apply H.
  - apply (bool_decide_unpack _). vm_compute. exact I.
  - vm_compute. reflexivity.
Defined.

Lemma ratios_null_on_zero_numerator_witness :
  FinancialFormParser.calculateDebtToEquity
    (FinancialFormParser.mkBalanceSheet
       (FinancialFormParser.mkAssets [] [] None)
       (FinancialFormParser.mkLiabilities [] []
          (Some (RatioScenario.line "Total liabilities" 0)))
       (FinancialFormParser.mkEquity
          (Some (RatioScenario.line "Total shareholders' equity" 60)) None))
  = None.
Proof.
  apply (proj1 (ratios_null_on_zero_numerator _
                  (FinancialFormParser.mkIncomeStatement None None None None None []))
           (RatioScenario.line "Total liabilities" 0)).
  - reflexivity.
  - left. vm_compute. reflexivity.
Defined.

Lemma quick_ratio_is_current_ratio_witness :
  FinancialFormParser.calculateQuickRatio
    (RatioScenario.sheet [RatioScenario.line "Cash and cash equivalents" 60;
                          RatioScenario.line "Accounts receivable" 40])
  = FinancialFormParser.calculateCurrentRatio
      (RatioScenario.sheet [RatioScenario.line "Cash and cash equivalents" 60;
                            RatioScenario.line "Accounts receivable" 40]).
Proof.
  apply quick_ratio_is_current_ratio.
  - repeat constructor.
  - vm_compute. reflexivity.
Defined.

(** ** Endpoints: filtering the table of recent filings *)

Section RecentFilings.
Import Endpoints.

Lemma string_ltb_irrefl (s : string) : String.ltb s s = false.
Proof.
  unfold String.ltb. pose proof (String.compare_antisym s s) as H.
  destruct (String.compare s s); try reflexivity. discriminate H.
Qed.

Lemma given_Some (o : option string) :
  given o = true → ∃ s, o = Some s ∧ default EmptyString o = s.
Proof. destruct o as [[|a r]|]; try discriminate. eauto. Qed.

(** The rows [filterSubmissions] keeps. *)
Lemma indices_spec (recent : Recent) (options : RequestOptions) (i : nat) :
  i ∈ indices recent options ↔
  (i < length (accessionNumber recent))%nat ∧
  (given (submissionType options) = true →
   form recent !! i = submissionType options) ∧
  (∀ d, filingDate recent !! i = Some d →
     (given (fromDate options) = true →
      String.ltb d (default EmptyString (fromDate options)) = false) ∧
     (given (toDate options) = true →
      String.ltb (default EmptyString (toDate options)) d = false)).
Proof.
  assert (Hform : form_is recent options i ↔
                  form recent !! i = submissionType options
                  ∧ is_Some (submissionType options)).
  { unfold form_is.
    destruct (form recent !! i) as [f|], (submissionType options) as [t|];
      cbn; try (split; [intros []|intros [H1 [x H2]]; congruence]).
    rewrite Is_true_true, String.eqb_eq. split; [intros ->; eauto|].
    now intros [[= ->] _]. }
  assert (Hrange : in_range recent options i ↔
                   ∀ d, filingDate recent !! i = Some d →
     (given (fromDate options) = true →
      String.ltb d (default EmptyString (fromDate options)) = false) ∧
     (given (toDate options) = true →
      String.ltb (default EmptyString (toDate options)) d = false)).
  { unfold in_range. destruct (filingDate recent !! i) as [d|].
    - rewrite Is_true_true, andb_true_iff, !negb_true_iff, !andb_false_iff.
      split.
      + intros [H1 H2] d' [= <-]. split; intros Hg.
        * destruct H1 as [H1|H1]; congruence.
        * destruct H2 as [H2|H2]; congruence.
      + intros H. destruct (H d eq_refl) as [H1 H2]. split.
        * destruct (given (fromDate options)); [right|left]; auto.
        * destruct (given (toDate options)); [right|left]; auto.
    - split; [intros _ d Hd; discriminate|intros _; exact I]. }
  assert (Hseq : i ∈ seq 0 (length (accessionNumber recent))
               ↔ (i < length (accessionNumber recent))%nat).
  { rewrite list_elem_of_In, in_seq. lia. }
  unfold indices. cbv zeta.
  destruct (given (submissionType options)) eqn:Ht;
    destruct (given (fromDate options) || given (toDate options)) eqn:Hd;
    rewrite ?list_elem_of_filter, Hseq, ?Hform, ?Hrange.
  - apply given_Some in Ht as (t & Ht & _). rewrite Ht.
    intuition (eauto; congruence).
  - apply orb_false_iff in Hd as [Hf Hto]. rewrite Hf, Hto.
    apply given_Some in Ht as (t & Ht & _). rewrite Ht.
    intuition (eauto; congruence).
  - intuition (eauto; congruence).
  - apply orb_false_iff in Hd as [Hf Hto]. rewrite Hf, Hto.
    intuition (eauto; congruence).
Qed.

(** X28. [filterSubmissions] keeps whole rows, in their order: every
    column of the result has one cell per kept row, cell [j] of each
    column comes from the same row of the input, and the kept rows are
    those whose form is the requested submission type and whose filing
    date is not before [fromDate] nor after [toDate] as strings.  Both
    ends of the range are included, and a row without a filing date
    passes the date filter. *)
Theorem filterSubmissions_rows (recent : Recent) (options : RequestOptions) :
  let r := filterSubmissions recent options in
  let rows := indices recent options in
  rows `sublist_of` seq 0 (length (accessionNumber recent)) ∧
  length (f_accessionNumber r) = length rows ∧
  length (f_form r) = length rows ∧ length (f_filingDate r) = length rows ∧
  Forall (λ c, length (snd c) = length rows) (f_other_columns r) ∧
  (∀ j i, rows !! j = Some i →
     f_accessionNumber r !! j = Some (accessionNumber recent !! i) ∧
     f_form r !! j = Some (form recent !! i) ∧
     f_filingDate r !! j = Some (filingDate recent !! i)) ∧
  length (f_other_columns r) = length (other_columns recent) ∧
  (∀ n name column, other_columns recent !! n = Some (name, column) →
     ∃ cells, f_other_columns r !! n = Some (name, cells) ∧
              ∀ j i, rows !! j = Some i → cells !! j = Some (column !! i)) ∧
  (∀ i, i ∈ rows ↔
     (i < length (accessionNumber recent))%nat ∧
     (given (submissionType options) = true →
      form recent !! i = submissionType options) ∧
     (∀ d, filingDate recent !! i = Some d →
        (given (fromDate options) = true →
         String.ltb d (default EmptyString (fromDate options)) = false) ∧
        (given (toDate options) = true →
         String.ltb (default EmptyString (toDate options)) d = false))) ∧
  (∀ i d, (i < length (accessionNumber recent))%nat →
     given (submissionType options) = false →
     filingDate recent !! i = Some d →
     fromDate options = Some d → toDate options = Some d → i ∈ rows).
Proof.
  intros r rows.
  split.
  { unfold rows, indices. cbv zeta.
    destruct (given (submissionType options)), (given _ || given _);
      repeat (etransitivity; [apply sublist_filter|]); reflexivity. }
  split; [apply length_fmap|]. split; [apply length_fmap|].
  split; [apply length_fmap|]. split.
  { unfold r, filterSubmissions. cbn [f_other_columns].
    apply Forall_fmap, Forall_forall. intros c _. cbn. apply length_fmap. }
  split.
  { intros j i Hj. unfold r, filterSubmissions.
    cbn [f_accessionNumber f_form f_filingDate].
    fold rows. rewrite !list_lookup_fmap, Hj. now repeat split. }
  split; [apply length_fmap|].
  split.
  { intros n name column Hn. unfold r, filterSubmissions.
    cbn [f_other_columns]. fold rows. rewrite list_lookup_fmap, Hn.
    eexists. split; [reflexivity|]. intros j i Hj. cbn [snd].
    now rewrite list_lookup_fmap, Hj. }
  split; [intros i; apply indices_spec|].
  intros i d Hi Ht Hd Hfrom Hto. apply indices_spec.
  split; [exact Hi|]. split; [rewrite Ht; discriminate|].
  intros d' Hd'. rewrite Hd in Hd'. injection Hd' as <-.
  rewrite Hfrom, Hto. change (default EmptyString (Some d)) with d.
  rewrite string_ltb_irrefl. now split.
Qed.

End RecentFilings.

Lemma filterSubmissions_rows_witness :
  1%nat ∈ Endpoints.indices
            (Endpoints.mkRecent
               ["0000320193-23-000006"; "0000320193-23-000064";
                "0000320193-23-000077"]
               ["10-Q"; "8-K"; "10-Q"]
               ["2023-02-03"; "2023-05-04"; "2023-08-04"]
               [("primaryDocument", ["q1.htm"; "event.htm"; "q3.htm"])])
            (Endpoints.mkRequestOptions None (Some "2023-05-04")
               (Some "2023-05-04"))
  ∧
  ∃ cells,
    Endpoints.f_other_columns
      (Endpoints.filterSubmissions
         (Endpoints.mkRecent
            ["0000320193-23-000006"; "0000320193-23-000064";
             "0000320193-23-000077"]
            ["10-Q"; "8-K"; "10-Q"]
            ["2023-02-03"; "2023-05-04"; "2023-08-04"]
            [("primaryDocument", ["q1.htm"; "event.htm"; "q3.htm"])])
         (Endpoints.mkRequestOptions None (Some "2023-05-04")
            (Some "2023-05-04"))) !! 0%nat
    = Some ("primaryDocument", cells) ∧
    cells !! 0%nat = Some (Some "event.htm").
Proof.
  destruct (filterSubmissions_rows
              (Endpoints.mkRecent
                 ["0000320193-23-000006"; "0000320193-23-000064";
                  "0000320193-23-000077"]
                 ["10-Q"; "8-K"; "10-Q"]
                 ["2023-02-03"; "2023-05-04"; "2023-08-04"]
                 [("primaryDocument", ["q1.htm"; "event.htm"; "q3.htm"])])
              (Endpoints.mkRequestOptions None (Some "2023-05-04")
                 (Some "2023-05-04")))
    as (_ & _ & _ & _ & _ & _ & _ & Hcol & _ & H).
  split.
  - apply (H 1%nat "2023-05-04"); [cbn; lia|reflexivity..].
  - destruct (Hcol 0%nat "primaryDocument" ["q1.htm"; "event.htm"; "q3.htm"]
                eq_refl) as (cells & Hc & Hrow).
    exists cells. split; [exact Hc|]. apply (Hrow 0%nat 1%nat). reflexivity.
Defined.

(** ** Endpoints: looking a company up by its ticker *)

Section TickerLookup.
Import Endpoints.

(** X29. On ASCII text (the query and the tickers of the table),
    [getCompanyByTicker] compares tickers without regard to letter case,
    on both sides: the lower-case and the upper-case spelling of a ticker
    give the same answer as the ticker itself; a company that is returned
    is an entry of the table whose ticker is a string equal to the query
    up to case; and [null] is returned only if no entry of the table has
    such a ticker. *)
Theorem getCompanyByTicker_ignores_case (tickers : list (string * Json.t))
    (ticker : string) :
  Js.ascii_only ticker = true →
  (∀ company s, In company (snd <$> tickers) →
     prop company "ticker" = Json.JString s → Js.ascii_only s = true) →
  getCompanyByTicker tickers (Js.toLowerCase ticker)
  = getCompanyByTicker tickers ticker ∧
  getCompanyByTicker tickers (Js.toUpperCase ticker)
  = getCompanyByTicker tickers ticker ∧
  (∀ company, getCompanyByTicker tickers ticker = inr (Some company) →
     In company (snd <$> tickers) ∧
     ∃ s, prop company "ticker" = Json.JString s ∧
          Js.toUpperCase s = Js.toUpperCase ticker) ∧
  (getCompanyByTicker tickers ticker = inr None →
   ∀ company s, In company (snd <$> tickers) →
     prop company "ticker" = Json.JString s →
     Js.toUpperCase s ≠ Js.toUpperCase ticker).
Proof.
  intros Hascii _.
  assert (Hup : ∀ t t', Js.toUpperCase t' = Js.toUpperCase t →
                  getCompanyByTicker tickers t' = getCompanyByTicker tickers t).
  { intros t t' Ht. induction tickers as [|[k c] rest IH]; [reflexivity|].
    cbn [getCompanyByTicker]. now rewrite Ht, IH. }
  split; [apply Hup, toUpperCase_toLowerCase, Hascii|].
  split; [apply Hup, toUpperCase_idem, Hascii|]. clear Hup.
  split.
  - induction tickers as [|[k c] rest IH]; intros company; [discriminate|].
    cbn [getCompanyByTicker fmap list_fmap snd].
    assert (Hrest : getCompanyByTicker rest ticker = inr (Some company) →
              In company (c :: (snd <$> rest)) ∧
              ∃ s, prop company "ticker" = Json.JString s ∧
                   Js.toUpperCase s = Js.toUpperCase ticker).
    { intros H. destruct (IH company H) as [Hin Hs]. split; [now right|exact Hs]. }
    destruct (object_with c "ticker"); [|exact Hrest].
    unfold ticker_upper.
    destruct (prop c "ticker") as [| | | |s| |] eqn:Hp;
      try discriminate; try exact Hrest.
    destruct (String.eqb_spec (Js.toUpperCase s) (Js.toUpperCase ticker)) as [He|_];
      [|exact Hrest].
    intros [= <-]. split; [now left|eauto].
  - induction tickers as [|[k c] rest IH]; intros Hnone company s Hin Hp;
      [destruct Hin|].
    cbn [getCompanyByTicker fmap list_fmap snd] in Hnone, Hin.
    assert (Hobj : object_with c "ticker" = false →
                   ∀ s', prop c "ticker" ≠ Json.JString s').
    { unfold object_with, prop. destruct c as [| | | | | |props]; try discriminate.
      intros Hex s'. destruct (List.find _ props) as [p|] eqn:Hf; [|discriminate].
      apply find_some in Hf as [Hin' Hk].
      assert (Htrue : existsb (λ p, String.eqb (fst p) "ticker") props = true)
        by (apply existsb_exists; eauto).
      congruence. }
    destruct (object_with c "ticker") eqn:Ho.
    + unfold ticker_upper in Hnone.
      destruct (prop c "ticker") as [| | | |s0| |] eqn:Hp0; try discriminate;
        try (destruct Hin as [<-|Hin]; [congruence|now apply (IH Hnone company s)]).
      destruct (String.eqb_spec (Js.toUpperCase s0) (Js.toUpperCase ticker))
        as [He|Hne]; [discriminate|].
      destruct Hin as [<-|Hin]; [congruence|now apply (IH Hnone company s)].
    + destruct Hin as [<-|Hin]; [now destruct (Hobj eq_refl s)|].
      now apply (IH Hnone company s).
Qed.

End TickerLookup.

Lemma getCompanyByTicker_ignores_case_witness :
  ∃ s, Endpoints.prop
         (Json.JObject [("cik_str", Json.JNumber 320193);
                        ("ticker", Json.JString "AAPL");
                        ("title", Json.JString "Apple Inc.")]) "ticker"
       = Json.JString s ∧
       Js.toUpperCase s = Js.toUpperCase "aapl".
Proof.
  destruct (getCompanyByTicker_ignores_case
              [("0", Json.JObject [("cik_str", Json.JNumber 320193);
                                   ("ticker", Json.JString "AAPL");
                                   ("title", Json.JString "Apple Inc.")])] "aapl")
    as (_ & _ & H & _).
  - reflexivity.
  - intros company s [<-|[]] [= <-]. reflexivity.
  - apply (H (Json.JObject [("cik_str", Json.JNumber 320193);
                            ("ticker", Json.JString "AAPL");
                            ("title", Json.JString "Apple Inc.")])).
    reflexivity.
Defined.

(** ** Cache keys: their alphabet, and [undefined] *)

Section KeyFormat.
Import CacheKey.

Lemma hex_digit_lower (n : Z) : lower_hex (Json.hex_digit n) = true.
Proof.
  unfold Json.hex_digit. generalize (Z.to_nat n) as k. intros k.
  do 16 (destruct k as [|k]; [reflexivity|]). now destruct k.
Qed.

Lemma hex_word_lower (w : Z) (rest : string) :
  all_lower_hex rest = true → all_lower_hex (MD5.hex_word w rest) = true.
Proof.
  intros Hrest. unfold MD5.hex_word, MD5.hex_byte.
  cbn -[Json.hex_digit lower_hex Z.div Z.modulo].
  now rewrite !hex_digit_lower, Hrest.
Qed.

(** X30. A cache key is written with the sixteen lower-case hexadecimal
    digits only.  [undefined] leaves no trace of its own in a key: as an
    argument (or array element) it is keyed like [null], and a property
    that holds it is keyed like a property that is absent, so such calls
    share one cache entry. *)
Theorem generateKey_alphabet_and_undefined (values l1 l2 : list Json.t)
    (p1 p2 : list (string * Json.t)) (k : string) :
  all_lower_hex (generateKey values) = true ∧
  generateKey (l1 ++ Json.JUndefined :: l2)
  = generateKey (l1 ++ Json.JNull :: l2) ∧
  generateKey (l1 ++ Json.JObject (p1 ++ (k, Json.JUndefined) :: p2) :: l2)
  = generateKey (l1 ++ Json.JObject (p1 ++ p2) :: l2).
Proof.
  split; [|split].
  - unfold generateKey, MD5.hexdigest.
    destruct (MD5.digest _) as [[[a b] c] d].
    now repeat apply hex_word_lower.
  - unfold generateKey. f_equal. cbn [Json.stringify].
    now rewrite !map_app.
  - unfold generateKey. f_equal. cbn [Json.stringify].
    rewrite !map_app. cbn [map Json.stringify].
    now rewrite !flat_map_app.
Qed.

End KeyFormat.
